(** * URDF commit viewer: structural parser, hierarchy builder and change analysis

    A shallow embedding of the regular-expression based extraction of
    [urdf-3d-viewer.py] and [urdf-viewer.py], of the hierarchy construction of
    [create_hierarchical_diagram] and of [analyze_code_changes] together with the
    part of Python's [difflib] it calls, followed by the properties of the
    specification stated over these definitions.

    Beside them: what [draw_link] reads of a parsed link, the rows of the
    diagram, [compare_commits] with [difflib.unified_diff], [create_diff_html],
    [analyze_urdf], [parse_github_url] with [urllib.parse.urlparse], the camera
    handlers of the viewer, [create_author_stats], and [print_table] and
    [find_free_port] of the launcher [run.py], with properties read off the
    code.

    Texts are strings over the code points 0..255 (Rocq's [ascii]). *)

From Stdlib Require Import Ascii String QArith DecimalString.
From stdpp Require Import base option list strings gmap sorting.

Local Open Scope nat_scope.

(** ** Python values and exceptions *)

(** A Python call either returns a value or raises [ValueError]; no other
    exception can leave the functions modelled here. *)
Inductive result (A : Type) : Type :=
| Ok (a : A)
| ValueError.
Arguments Ok {A} a.
Arguments ValueError {A}.

#[global] Instance result_ret : MRet result := fun _ a => Ok a.
#[global] Instance result_bind : MBind result := fun _ _ f m =>
  match m with Ok a => f a | ValueError => ValueError end.
#[global] Instance result_fmap : FMap result := fun _ _ f m =>
  match m with Ok a => Ok (f a) | ValueError => ValueError end.

(** [list(map(f, l))]: the first element on which [f] raises aborts the call. *)
Fixpoint map_result {A B} (f : A -> result B) (l : list A) : result (list B) :=
  match l with
  | [] => Ok []
  | x :: l' => y ← f x; ys ← map_result f l'; Ok (y :: ys)
  end.

(** ** Characters and strings *)

Definition DQUOTE : ascii := "034"%char.

(** Python texts and patterns are written here, in comments as in terms, with
    the single quote standing for the double quote; [py] puts the double
    quotes back. *)
Fixpoint py (s : string) : string :=
  match s with
  | EmptyString => EmptyString
  | String c s' => String (if Ascii.eqb c "'" then DQUOTE else c) (py s')
  end.

Definition code (c : ascii) : nat := nat_of_ascii c.

(** [str.isspace] and the class [\s] of [re] on code points below 256. *)
Definition is_space (c : ascii) : bool :=
  let n := code c in
  ((9 <=? n) && (n <=? 13)) || ((28 <=? n) && (n <=? 32)) || (n =? 133) || (n =? 160).

(** The class [\d] of [re] on code points below 256. *)
Definition is_digit (c : ascii) : bool :=
  let n := code c in (48 <=? n) && (n <=? 57).

(** [str.lower] on one code point below 256. *)
Definition lower_char (c : ascii) : ascii :=
  let n := code c in
  if ((65 <=? n) && (n <=? 90)) || ((192 <=? n) && (n <=? 222) && negb (n =? 215))
  then ascii_of_nat (n + 32) else c.

Fixpoint lower (s : string) : string :=
  match s with
  | EmptyString => EmptyString
  | String c s' => String (lower_char c) (lower s')
  end.

Definition is_empty (s : string) : bool :=
  match s with EmptyString => true | _ => false end.

Fixpoint all_chars (f : ascii -> bool) (s : string) : bool :=
  match s with
  | EmptyString => true
  | String c s' => f c && all_chars f s'
  end.

Fixpoint drop_chars (n : nat) (s : string) : string :=
  match n, s with
  | S n', String _ s' => drop_chars n' s'
  | _, _ => s
  end.

(** [str.split()] with no argument: the maximal runs of characters that are
    not whitespace.  [cur] is the run being read. *)
Fixpoint split_go (cur : string) (s : string) : list string :=
  match s with
  | EmptyString => if is_empty cur then [] else [cur]
  | String c s' =>
      if is_space c
      then (if is_empty cur then split_go EmptyString s' else cur :: split_go EmptyString s')
      else split_go (cur +:+ String c EmptyString) s'
  end.

Definition split (s : string) : list string := split_go EmptyString s.

(** ** The fragment of [re] used by the viewers *)

Module Re.

(** One pattern character against one text character, under [re.IGNORECASE]
    when [icase] is set. *)
Definition chr (icase : bool) (p c : ascii) : bool :=
  if icase then Ascii.eqb (lower_char p) (lower_char c) else Ascii.eqb p c.

(** A literal piece of a pattern at the start of [s]: the rest of [s]. *)
Fixpoint lit (icase : bool) (p s : string) : option string :=
  match p with
  | EmptyString => Some s
  | String a p' =>
      match s with
      | String c s' => if chr icase a c then lit icase p' s' else None
      | EmptyString => None
      end
  end.

(** The longest prefix of [s] made of characters of the class [f], and the rest. *)
Fixpoint span (f : ascii -> bool) (s : string) : string * string :=
  match s with
  | String c s' =>
      if f c then let '(g, r) := span f s' in (String c g, r) else (EmptyString, s)
  | EmptyString => (EmptyString, EmptyString)
  end.

(** [[class]+] followed in the pattern by a character outside the class: the
    greedy run is the only one that can be followed by that character, so
    giving characters back never helps and the run is the match. *)
Definition plus (f : ascii -> bool) (s : string) : option (string * string) :=
  match span f s with
  | (EmptyString, _) => None
  | gr => Some gr
  end.

(** [(.*?)p] under [re.DOTALL]: the text up to the first occurrence of the
    literal [p], and the text after it. *)
Fixpoint until (icase : bool) (p s : string) : option (string * string) :=
  match lit icase p s with
  | Some r => Some (EmptyString, r)
  | None =>
      match s with
      | String c s' => '(g, r) ← until icase p s'; Some (String c g, r)
      | EmptyString => None
      end
  end.

(** [re.search]: the match at the leftmost position that has one. *)
Fixpoint search {R} (m : string -> option R) (s : string) : option R :=
  match m s with
  | Some r => Some r
  | None =>
      match s with
      | String _ s' => search m s'
      | EmptyString => None
      end
  end.

(** The positions of [s] (offsets from its start) at which [m] matches. *)
Fixpoint positions {R} (m : string -> option R) (s : string) : list nat :=
  match m s with Some _ => [0] | None => [] end ++
  match s with
  | String _ s' => S <$> positions m s'
  | EmptyString => []
  end.

(** [re.finditer] for a pattern that matches no empty text: matches do not
    overlap, and the search resumes where the last match ended.  [m] returns
    its groups with the text left after the match; [skip] counts the
    characters of the current match still to pass. *)
Fixpoint finditer_go {R} (m : string -> option (R * string)) (skip : nat) (s : string)
  : list R :=
  match skip with
  | S k =>
      match s with
      | String _ s' => finditer_go m k s'
      | EmptyString => []
      end
  | 0 =>
      match m s with
      | Some (r, rest) =>
          r :: match s with
               | String _ s' => finditer_go m (String.length s - String.length rest - 1) s'
               | EmptyString => []
               end
      | None =>
          match s with
          | String _ s' => finditer_go m 0 s'
          | EmptyString => []
          end
      end
  end.

Definition finditer {R} (m : string -> option (R * string)) (s : string) : list R :=
  finditer_go m 0 s.

End Re.

(** ** Floating-point numbers *)

(** A Python [float].  [float_of_literal] is the value Python reads from a
    decimal literal (the same for [float('0.1')] and for the constant [0.1] of
    the source), [float_eqb] is [==].  Everything below holds for every such
    pair, in particular for IEEE binary64 with correct rounding. *)
Class PyFloat (F : Type) : Type := {
  float_of_literal : string -> F;
  float_eqb : F -> F -> bool
}.

(** The texts [float] accepts among those over [-], [.] and the digits, the
    only characters the patterns let through: an optional sign, then digits
    with at most one point and at least one digit. *)
Definition float_syntax (tok : string) : bool :=
  let body := match tok with
              | String "-"%char r => r
              | _ => tok
              end in
  let '(ip, rest) := Re.span is_digit body in
  match rest with
  | EmptyString => negb (is_empty ip)
  | String "."%char fp => all_chars is_digit fp && (negb (is_empty ip) || negb (is_empty fp))
  | _ => false
  end.

(** [float(tok)] for a text over [-], [.] and the digits. *)
Definition float {F} `{PyFloat F} (tok : string) : result F :=
  if float_syntax tok then Ok (float_of_literal tok) else ValueError.

(** [==] on two lists of floats. *)
Fixpoint list_float_eqb {F} `{PyFloat F} (l1 l2 : list F) : bool :=
  match l1, l2 with
  | [], [] => true
  | x :: l1', y :: l2' => float_eqb x y && list_float_eqb l1' l2'
  | _, _ => false
  end.

(** ** Data model *)

(** [{'type': 'box', 'size': ...}], [{'type': 'cylinder', 'radius': ...,
    'length': ...}] and [{'type': 'sphere', 'radius': ...}]. *)
Inductive geometry (F : Type) : Type :=
| Box (size : list F)
| Cylinder (radius length : F)
| Sphere (radius : F).
Arguments Box {F} size.
Arguments Cylinder {F} radius length.
Arguments Sphere {F} radius.

(** [{'xyz': ..., 'rpy': ...}]. *)
Record pose (F : Type) : Type := Pose { xyz : list F; rpy : list F }.
Arguments Pose {F} xyz rpy.
Arguments xyz {F} p.
Arguments rpy {F} p.

(** An entry of [self.links]. *)
Record link (F : Type) : Type := Link {
  link_name : string;
  link_geometry : geometry F;
  link_origin : pose F;
  link_type : string
}.
Arguments Link {F} link_name link_geometry link_origin link_type.
Arguments link_name {F} l.
Arguments link_geometry {F} l.
Arguments link_origin {F} l.
Arguments link_type {F} l.

(** An entry of [self.joints]; the standalone viewer stores no ['name']. *)
Record joint (F : Type) : Type := Joint {
  joint_name : option string;
  joint_parent : string;
  joint_child : string;
  joint_origin : pose F
}.
Arguments Joint {F} joint_name joint_parent joint_child joint_origin.
Arguments joint_name {F} j.
Arguments joint_parent {F} j.
Arguments joint_child {F} j.
Arguments joint_origin {F} j.

(** [self.links] and [self.joints] after [parse_urdf]. *)
Record model (F : Type) : Type := Model { links : list (link F); joints : list (joint F) }.
Arguments Model {F} links joints.
Arguments links {F} m.
Arguments joints {F} m.

(** The two copies of the viewer class: [urdf-3d-viewer.py], and the script
    that [create_3d_viewer_script] of [urdf-viewer.py] writes out. *)
Inductive variant : Type := Standalone | Embedded.

(** The second copy passes [re.IGNORECASE] to the shape, pose and visual
    patterns; the first passes no flag. *)
Definition ignorecase (v : variant) : bool :=
  match v with Standalone => false | Embedded => true end.

(** ** Patterns *)

Definition not_quote (c : ascii) : bool := negb (Ascii.eqb c DQUOTE).
(** [[\d\.\s]] *)
Definition size_class (c : ascii) : bool := is_digit c || Ascii.eqb c "." || is_space c.
(** [[\d\.]] *)
Definition number_class (c : ascii) : bool := is_digit c || Ascii.eqb c ".".
(** [[-\d\.\s]] *)
Definition pose_class (c : ascii) : bool :=
  Ascii.eqb c "-" || is_digit c || Ascii.eqb c "." || is_space c.

Definition QUOTE : string := String DQUOTE EmptyString.
Definition SIZE_EQ : string := Eval cbv in py "size='".
Definition RADIUS_EQ : string := Eval cbv in py "radius='".
Definition LENGTH_EQ : string := Eval cbv in py "length='".
Definition XYZ_EQ : string := Eval cbv in py "xyz='".
Definition RPY_EQ : string := Eval cbv in py "rpy='".
Definition NAME_EQ : string := Eval cbv in py "name='".
Definition LINK_EQ : string := Eval cbv in py "link='".

(** [<box\s+size='([\d\.\s]+)']: group 1. *)
Definition box_pattern (icase : bool) (s : string) : option string :=
  s ← Re.lit icase "<box" s;
  '(_, s) ← Re.plus is_space s;
  s ← Re.lit icase SIZE_EQ s;
  '(g, s) ← Re.plus size_class s;
  _ ← Re.lit icase QUOTE s;
  Some g.

(** [<cylinder\s+radius='([\d\.]+)'\s+length='([\d\.]+)']: groups 1 and 2. *)
Definition cylinder_pattern (icase : bool) (s : string) : option (string * string) :=
  s ← Re.lit icase "<cylinder" s;
  '(_, s) ← Re.plus is_space s;
  s ← Re.lit icase RADIUS_EQ s;
  '(g1, s) ← Re.plus number_class s;
  s ← Re.lit icase QUOTE s;
  '(_, s) ← Re.plus is_space s;
  s ← Re.lit icase LENGTH_EQ s;
  '(g2, s) ← Re.plus number_class s;
  _ ← Re.lit icase QUOTE s;
  Some (g1, g2).

(** [<sphere\s+radius='([\d\.]+)']: group 1. *)
Definition sphere_pattern (icase : bool) (s : string) : option string :=
  s ← Re.lit icase "<sphere" s;
  '(_, s) ← Re.plus is_space s;
  s ← Re.lit icase RADIUS_EQ s;
  '(g, s) ← Re.plus number_class s;
  _ ← Re.lit icase QUOTE s;
  Some g.

(** [<origin\s+xyz='([-\d\.\s]+)'(?:\s+rpy='([-\d\.\s]+)')?]: group 1, and
    group 2 when the optional part matches ([None] otherwise). *)
Definition origin_pattern (icase : bool) (s : string) : option (string * option string) :=
  s ← Re.lit icase "<origin" s;
  '(_, s) ← Re.plus is_space s;
  s ← Re.lit icase XYZ_EQ s;
  '(g1, s) ← Re.plus pose_class s;
  s ← Re.lit icase QUOTE s;
  Some (g1,
        '(_, s) ← Re.plus is_space s;
        s ← Re.lit icase RPY_EQ s;
        '(g2, s) ← Re.plus pose_class s;
        _ ← Re.lit icase QUOTE s;
        Some g2).

(** [<tag\s+attr='([^']+)'] for a tag and an attribute given literally:
    group 1 and the text after the match. *)
Definition named_tag (open attr_eq : string) (s : string) : option (string * string) :=
  s ← Re.lit false open s;
  '(_, s) ← Re.plus is_space s;
  s ← Re.lit false attr_eq s;
  '(g, s) ← Re.plus not_quote s;
  s ← Re.lit false QUOTE s;
  Some (g, s).

(** [<link\s+name='([^']+)'(.*?)</link>] under [re.DOTALL]: groups 1 and 2,
    and the text after the match. *)
Definition link_pattern (s : string) : option ((string * string) * string) :=
  '(name, s) ← named_tag "<link" NAME_EQ s;
  '(content, s) ← Re.until false "</link>" s;
  Some ((name, content), s).

(** [<joint\s+name='([^']+)'(.*?)</joint>] under [re.DOTALL]. *)
Definition joint_pattern (s : string) : option ((string * string) * string) :=
  '(name, s) ← named_tag "<joint" NAME_EQ s;
  '(content, s) ← Re.until false "</joint>" s;
  Some ((name, content), s).

(** [<parent\s+link='([^']+)'] and [<child\s+link='([^']+)']: group 1. *)
Definition parent_pattern (s : string) : option string :=
  fst <$> named_tag "<parent" LINK_EQ s.
Definition child_pattern (s : string) : option string :=
  fst <$> named_tag "<child" LINK_EQ s.

(** [<visual>(.*?)</visual>] under [re.DOTALL | re.IGNORECASE]: group 1. *)
Definition visual_pattern (s : string) : option string :=
  s ← Re.lit true "<visual>" s;
  '(content, _) ← Re.until true "</visual>" s;
  Some content.

(** ** Geometry and pose extraction, structural parser *)

Section Viewer.
Context {F : Type} `{PyFloat F}.

(** The constants [0.0] and [0.1] of the source. *)
Definition f0 : F := float_of_literal "0.0".
Definition f01 : F := float_of_literal "0.1".

Definition default_box : geometry F := Box [f01; f01; f01].
Definition zero3 : list F := [f0; f0; f0].
Definition zero_pose : pose F := Pose zero3 zero3.

(** [parse_geometry], urdf-3d-viewer.py:89-108 and urdf-viewer.py:168-187;
    the copies differ in the [re.IGNORECASE] flag only. *)
Definition parse_geometry (v : variant) (content : string) : result (geometry F) :=
  let icase := ignorecase v in
  let round_shapes : result (geometry F) :=
    match Re.search (cylinder_pattern icase) content with
    | Some (g1, g2) =>
        radius ← float g1;
        length ← float g2;
        Ok (Cylinder radius length)
    | None =>
        match Re.search (sphere_pattern icase) content with
        | Some g1 => radius ← float g1; Ok (Sphere radius)
        | None => Ok default_box
        end
    end in
  match Re.search (box_pattern icase) content with
  | Some g1 =>
      sizes ← map_result float (split g1);
      if 3 <=? length sizes then Ok (Box (take 3 sizes)) else round_shapes
  | None => round_shapes
  end.

(** [parse_origin], urdf-3d-viewer.py:110-124 and urdf-viewer.py:189-205; the
    second copy also replaces an [rpy] of fewer than three numbers. *)
Definition parse_origin (v : variant) (content : string) : result (pose F) :=
  match Re.search (origin_pattern (ignorecase v)) content with
  | Some (g1, g2) =>
      xyz ← map_result float (split g1);
      let xyz := if length xyz <? 3 then zero3 else xyz in
      rpy ← match g2 with
            | Some g2 =>
                rpy ← map_result float (split g2);
                Ok (match v with
                    | Embedded => if length rpy <? 3 then zero3 else rpy
                    | Standalone => rpy
                    end)
            | None => Ok zero3
            end;
      Ok (Pose (take 3 xyz) (take 3 rpy))
  | None => Ok zero_pose
  end.

(** [needle in s]. *)
Fixpoint contains (needle s : string) : bool :=
  match Re.lit false needle s with
  | Some _ => true
  | None =>
      match s with
      | String _ s' => contains needle s'
      | EmptyString => false
      end
  end.

(** [get_link_type], urdf-3d-viewer.py:126-139 and urdf-viewer.py:207-222. *)
Definition get_link_type (v : variant) (link_name : string) : string :=
  let name_lower := lower link_name in
  let has k := contains k name_lower in
  match v with
  | Standalone =>
      if has "base" || has "root" then "base"
      else if has "wheel" then "wheel"
      else if has "camera" || has "sensor" || has "lidar" then "sensor"
      else if has "gripper" || has "hand" || has "finger" then "gripper"
      else if has "joint" then "joint"
      else "link"
  | Embedded =>
      if has "base" || has "root" || has "chassis" then "base"
      else if has "wheel" || has "caster" then "wheel"
      else if has "camera" || has "sensor" || has "lidar" then "sensor"
      else if has "gripper" || has "hand" || has "finger" then "gripper"
      else if has "joint" then "joint"
      else if has "link" then "link"
      else "default"
  end.

(** The body of the link loop of urdf-3d-viewer.py:58-71. *)
Definition standalone_link (m : string * string) : result (link F) :=
  let '(link_name, link_content) := m in
  geometry ← parse_geometry Standalone link_content;
  origin ← parse_origin Standalone link_content;
  Ok (Link link_name geometry origin (get_link_type Standalone link_name)).

(** [visual_geometry['type'] != 'box' or visual_geometry['size'] != [0.1, 0.1, 0.1]] *)
Definition not_default_box (g : geometry F) : bool :=
  match g with
  | Box size => negb (list_float_eqb size [f01; f01; f01])
  | _ => true
  end.

(** The body of the link loop of urdf-viewer.py:123-149. *)
Definition embedded_link (m : string * string) : result (link F) :=
  let '(link_name, link_content) := m in
  '(geometry, origin) ←
    match Re.search visual_pattern link_content with
    | Some visual_content =>
        visual_origin ← parse_origin Embedded visual_content;
        let origin :=
          if negb (list_float_eqb (xyz visual_origin) zero3) then visual_origin else zero_pose in
        visual_geometry ← parse_geometry Embedded visual_content;
        let geometry :=
          if not_default_box visual_geometry then visual_geometry else default_box in
        Ok (geometry, origin)
    | None => Ok (default_box, zero_pose)
    end;
  Ok (Link link_name geometry origin (get_link_type Embedded link_name)).

(** The joint loop, urdf-3d-viewer.py:74-87 and urdf-viewer.py:152-166, over
    the matches of [joint_pattern]. *)
Fixpoint joint_loop (v : variant) (ms : list (string * string)) : result (list (joint F)) :=
  match ms with
  | [] => Ok []
  | (name, joint_content) :: ms' =>
      match Re.search parent_pattern joint_content, Re.search child_pattern joint_content with
      | Some parent, Some child =>
          origin ← parse_origin v joint_content;
          js ← joint_loop v ms';
          Ok (Joint (match v with Embedded => Some name | Standalone => None end)
                    parent child origin :: js)
      | _, _ => joint_loop v ms'
      end
  end.

(** [parse_urdf], urdf-3d-viewer.py:53-87 and urdf-viewer.py:118-166: the
    lists [self.links] and [self.joints] it leaves, or the exception. *)
Definition parse_urdf (v : variant) (urdf_content : string) : result (model F) :=
  if is_empty urdf_content then Ok (Model [] [])
  else
    links ← map_result (match v with Standalone => standalone_link | Embedded => embedded_link end)
                       (Re.finditer link_pattern urdf_content);
    joints ← joint_loop v (Re.finditer joint_pattern urdf_content);
    Ok (Model links joints).

(** The size summary of [analyze_urdf], urdf-viewer.py:1411-1418: the same
    pattern and conversion as the box of [parse_geometry], inside
    [try ... except: pass].  [None] leaves the field at its default text. *)
Definition analyze_urdf_size (content : string) : option (list F) :=
  match Re.search (fun s => s ← Re.lit false SIZE_EQ s;
                            '(g, s) ← Re.plus size_class s;
                            _ ← Re.lit false QUOTE s; Some g) content with
  | Some g1 =>
      match map_result float (split g1) with
      | Ok sizes => if 3 <=? length sizes then Some (take 3 sizes) else None
      | ValueError => None
      end
  | None => None
  end.

End Viewer.

(** ** [parse_urdf_structure], urdf-viewer.py:783-814 *)

(** An entry of [joints]. *)
Record edge : Type := Edge { edge_name : string; edge_parent : string; edge_child : string }.

(** [<joint\s+name='([^']+)'.*?<parent\s+link='([^']+)'.*?<child\s+link='([^']+)']
    under [re.DOTALL].  A later start of the parent part ends later than an
    earlier one, so the child part is looked for after the first parent tag,
    and likewise the first child tag after it is the match. *)
Definition edge_pattern (s : string) : option (edge * string) :=
  '(name, s) ← named_tag "<joint" NAME_EQ s;
  '(parent, s) ← Re.search (named_tag "<parent" LINK_EQ) s;
  '(child, s) ← Re.search (named_tag "<child" LINK_EQ) s;
  Some (Edge name parent child, s).

Record structure : Type := Structure { s_links : list string; s_joints : list edge }.

(** The lists ['links'] and ['joints'] of the result; ['graph'] is a copy of
    them for an optional library and is left out. *)
Definition parse_urdf_structure (content : string) : structure :=
  if is_empty content then Structure [] []
  else Structure (Re.finditer (named_tag "<link" NAME_EQ) content)
                 (Re.finditer edge_pattern content).

(** ** An instance of the floats for evaluation *)

(** The exact value of a decimal literal, as a rational.  Binary64 rounds
    this value; literals that differ here may round to one double, and equal
    values here are equal doubles. *)
Fixpoint digits_value (acc : N) (s : string) : N :=
  match s with
  | EmptyString => acc
  | String c s' => digits_value (10 * acc + N.of_nat (code c - 48))%N s'
  end.

Definition decimal_value (tok : string) : Q :=
  let '(neg, body) := match tok with
                      | String "-"%char r => (true, r)
                      | _ => (false, tok)
                      end in
  let '(ip, rest) := Re.span is_digit body in
  let fp := match rest with
            | String "."%char fp => fp
            | _ => EmptyString
            end in
  let q := Qred (Z.of_N (digits_value 0 (ip +:+ fp)) # Z.to_pos (10 ^ Z.of_nat (String.length fp))) in
  if neg then Qopp q else q.

#[global] Instance exact_float : PyFloat Q :=
  {| float_of_literal := decimal_value; float_eqb := Qeq_bool |}.

(** ** Hierarchy construction, urdf-viewer.py:823-849 *)

(** A value of the dict [hierarchy]: [{'depth': ..., 'children': [...]}]. *)
Record hnode : Type := HNode { depth : nat; children : list string }.

(** The dict [hierarchy] that [build_hierarchy] updates in place, and a ghost
    log that is not in the source: the calls of [build_hierarchy] that pass
    the depth guard (the visits), in the order they are made. *)
Record hstate : Type := HState {
  hierarchy : gmap string hnode;
  visits : list (string * nat)
}.

(** [hierarchy[node]['children'].append(child)] *)
Definition append_child (child : string) (n : hnode) : hnode :=
  HNode (depth n) (children n ++ [child]).

(** [build_hierarchy(node, depth)].  The calls nest at most twelve deep
    because of the guard [depth > 10]; [fuel] bounds the nesting. *)
Fixpoint build_hierarchy (fuel : nat) (joints : list edge) (node : string) (depth : nat)
  (st : hstate) : hstate :=
  match fuel with
  | 0 => st
  | S fuel' =>
      if 10 <? depth then st
      else
        let h := match hierarchy st !! node with
                 | Some _ => hierarchy st
                 | None => <[node := HNode depth []]> (hierarchy st)
                 end in
        foldl (fun st joint =>
                 if String.eqb (edge_parent joint) node
                 then
                   let child := edge_child joint in
                   build_hierarchy fuel' joints child (depth + 1)
                     (HState (alter (append_child child) node (hierarchy st)) (visits st))
                 else st)
              (HState h (visits st ++ [(node, depth)])) joints
  end.

(** [root_nodes], lines 826-831. *)
Definition root_nodes (links : list string) (joints : list edge) : list string :=
  let all_children : gset string := list_to_set (edge_child <$> joints) in
  let roots := filter (fun link => link ∉ all_children) links in
  match roots, links with
  | [], link0 :: _ => [link0]
  | _, _ => roots
  end.

(** Lines 833-849: the dict after the loop over the roots. *)
Definition build_all (links : list string) (joints : list edge) : hstate :=
  foldl (fun st root => build_hierarchy 12 joints root 0 st)
        (HState ∅ []) (root_nodes links joints).

(** The depth of the first and of the last visit of [node] in a log. *)
Definition first_visit (node : string) (log : list (string * nat)) : option nat :=
  snd <$> head (filter (fun v => v.1 = node) log).
Definition last_visit (node : string) (log : list (string * nat)) : option nat :=
  snd <$> last (filter (fun v => v.1 = node) log).

(** ** The part of Python's [difflib] behind [difflib.ndiff]

    [SequenceMatcher] and [Differ] of CPython 3.11 (Lib/difflib.py), which
    [analyze_code_changes] calls through [difflib.ndiff].  Sequences are
    lists, indices are naturals; every index that the source reads lies
    inside its sequence. *)

Module Difflib.

(** A matching block [(i, j, k)]: [a[i:i+k] == b[j:j+k]]. *)
Definition block : Type := nat * nat * nat.

(** The order of tuples that [list.sort] uses. *)
Definition block_leb (x y : block) : bool :=
  let '(i1, j1, k1) := x in
  let '(i2, j2, k2) := y in
  (i1 <? i2) || ((i1 =? i2) && ((j1 <? j2) || ((j1 =? j2) && (k1 <=? k2)))).

Definition block_le (x y : block) : Prop := block_leb x y.

Inductive tag : Type := Replace | Delete | Insert | Equal.

(** An entry [(tag, i1, i2, j1, j2)] of [get_opcodes]. *)
Record opcode : Type := Opcode { op_tag : tag; op_i1 : nat; op_i2 : nat; op_j1 : nat; op_j2 : nat }.

Section SequenceMatcher.
Context {A : Type} `{Countable A}.
(** [isjunk]; the constant [false] stands for [None]. *)
Variable isjunk : A -> bool.

(** The first loop of [__chain_b]: [b2j] before the purges. *)
Definition b2j_all (b : list A) : gmap A (list nat) :=
  foldl (fun (b2j : gmap A (list nat)) '(i, elt) => <[elt := default [] (b2j !! elt) ++ [i]]> b2j)
        ∅ (imap (fun i elt => (i, elt)) b).

(** [self.bjunk] *)
Definition bjunk (b : list A) : gset A :=
  filter (fun elt => isjunk elt = true) (dom (b2j_all b)).

(** [self.b2j] after [__chain_b]: the junk elements are purged, and when [b]
    has at least 200 elements so are the popular ones ([autojunk] is left at
    its default [True]). *)
Definition chain_b (b : list A) : gmap A (list nat) :=
  let b2j := filter (fun p => isjunk p.1 = false) (b2j_all b) in
  let n := length b in
  if 200 <=? n
  then let ntest := n / 100 + 1 in filter (fun p => length p.2 <= ntest) b2j
  else b2j.

(** The state of the main loop of [find_longest_match]. *)
Record scan : Type := Scan {
  newj2len : gmap nat nat;
  besti : nat;
  bestj : nat;
  bestsize : nat
}.

(** The loop [for j in b2j.get(a[i], nothing)], with its [continue] and
    [break].  [i - k + 1] is written [S i - k]: [k] never exceeds [i + 1]. *)
Fixpoint scan_row (j2len : gmap nat nat) (blo bhi i : nat) (js : list nat) (st : scan) : scan :=
  match js with
  | [] => st
  | j :: js' =>
      if j <? blo then scan_row j2len blo bhi i js' st
      else if bhi <=? j then st
      else
        let k := match j with
                 | 0 => 0
                 | S j' => default 0 (j2len !! j')
                 end + 1 in
        scan_row j2len blo bhi i js'
          (if bestsize st <? k
           then Scan (<[j := k]> (newj2len st)) (S i - k) (S j - k) k
           else Scan (<[j := k]> (newj2len st)) (besti st) (bestj st) (bestsize st))
  end.

(** The loop [for i in range(alo, ahi)]; [newj2len] of the state holds
    [j2len] between two rounds. *)
Definition scan_rows (a : list A) (b2j : gmap A (list nat)) (alo ahi blo bhi : nat) : scan :=
  foldl (fun st i =>
           scan_row (newj2len st) blo bhi i
                    (default [] (x ← a !! i; b2j !! x))
                    (Scan ∅ (besti st) (bestj st) (bestsize st)))
        (Scan ∅ alo blo 0) (seq alo (ahi - alo)).

(** [a[i] == b[j]], with [isbjunk(b[j])] equal to [junk]. *)
Definition same_at (a b : list A) (junk : bool) (i j : nat) : bool :=
  match a !! i, b !! j with
  | Some x, Some y => bool_decide (x = y) && bool_decide (bool_decide (y ∈ bjunk b) = junk)
  | _, _ => false
  end.

(** The loops [while besti > alo and bestj > blo and ...]. *)
Fixpoint extend_left (a b : list A) (junk : bool) (alo blo : nat) (bi bj bs : nat) : block :=
  match bi, bj with
  | S i', S j' =>
      if (alo <? bi) && (blo <? bj) && same_at a b junk i' j'
      then extend_left a b junk alo blo i' j' (S bs)
      else (bi, bj, bs)
  | _, _ => (bi, bj, bs)
  end.

(** The loops [while besti+bestsize < ahi and bestj+bestsize < bhi and ...];
    [n] bounds the rounds by the room left below [ahi]. *)
Fixpoint extend_right (a b : list A) (junk : bool) (ahi bhi : nat) (n : nat) (bi bj bs : nat)
  : block :=
  match n with
  | 0 => (bi, bj, bs)
  | S n' =>
      if (bi + bs <? ahi) && (bj + bs <? bhi) && same_at a b junk (bi + bs) (bj + bs)
      then extend_right a b junk ahi bhi n' bi bj (S bs)
      else (bi, bj, bs)
  end.

(** [find_longest_match(alo, ahi, blo, bhi)] *)
Definition find_longest_match (a b : list A) (alo ahi blo bhi : nat) : block :=
  let st := scan_rows a (chain_b b) alo ahi blo bhi in
  let '(bi, bj, bs) := extend_left a b false alo blo (besti st) (bestj st) (bestsize st) in
  let '(bi, bj, bs) := extend_right a b false ahi bhi (ahi - (bi + bs)) bi bj bs in
  let '(bi, bj, bs) := extend_left a b true alo blo bi bj bs in
  extend_right a b true ahi bhi (ahi - (bi + bs)) bi bj bs.

(** The loop [while queue] of [get_matching_blocks].  [queue] is a stack, its
    top first; [fuel] bounds the rounds. *)
Fixpoint blocks_loop (a b : list A) (fuel : nat) (queue : list (nat * nat * nat * nat))
  (matching_blocks : list block) : list block :=
  match fuel, queue with
  | S fuel', (alo, ahi, blo, bhi) :: queue' =>
      let '(i, j, k) := find_longest_match a b alo ahi blo bhi in
      if 0 <? k
      then
        let q1 := if (alo <? i) && (blo <? j) then [(alo, i, blo, j)] else [] in
        let q2 := if (i + k <? ahi) && (j + k <? bhi) then [(i + k, ahi, j + k, bhi)] else [] in
        blocks_loop a b fuel' (q2 ++ q1 ++ queue') (matching_blocks ++ [(i, j, k)])
      else blocks_loop a b fuel' queue' matching_blocks
  | _, _ => matching_blocks
  end.

(** The loop that merges adjacent blocks into [non_adjacent]. *)
Definition merge_adjacent (matching_blocks : list block) : list block :=
  let '((i1, j1, k1), non_adjacent) :=
    foldl (fun '((i1, j1, k1), non_adjacent) '(i2, j2, k2) =>
             if (i1 + k1 =? i2) && (j1 + k1 =? j2)
             then ((i1, j1, k1 + k2), non_adjacent)
             else ((i2, j2, k2),
                   if 0 <? k1 then non_adjacent ++ [(i1, j1, k1)] else non_adjacent))
          ((0, 0, 0), []) matching_blocks in
  if 0 <? k1 then non_adjacent ++ [(i1, j1, k1)] else non_adjacent.

(** [get_matching_blocks()] *)
Definition get_matching_blocks (a b : list A) : list block :=
  let la := length a in
  let lb := length b in
  let matching_blocks := blocks_loop a b (2 * la + 1) [(0, la, 0, lb)] [] in
  merge_adjacent (merge_sort block_le matching_blocks) ++ [(la, lb, 0)].

(** [get_opcodes()] *)
Definition get_opcodes (a b : list A) : list opcode :=
  (foldl (fun '(i, j, answer) '(ai, bj, size) =>
            let answer :=
              if (i <? ai) && (j <? bj) then answer ++ [Opcode Replace i ai j bj]
              else if i <? ai then answer ++ [Opcode Delete i ai j bj]
              else if j <? bj then answer ++ [Opcode Insert i ai j bj]
              else answer in
            (ai + size, bj + size,
             if 0 <? size then answer ++ [Opcode Equal ai (ai + size) bj (bj + size)] else answer))
         (0, 0, []) (get_matching_blocks a b)).2.

(** [_calculate_ratio(matches, length)], as an exact rational.  The source
    computes the quotient in binary64; the comparisons made with it agree
    with the exact ones as long as the two sequences have fewer than 2^26
    elements together. *)
Definition calculate_ratio (matches length : nat) : Q :=
  match length with
  | 0 => 1%Q
  | S _ => (2 * Z.of_nat matches # Pos.of_nat length)%Q
  end.

(** [ratio()] *)
Definition ratio (a b : list A) : Q :=
  calculate_ratio (foldr (fun x n => x.2 + n) 0 (get_matching_blocks a b)) (length a + length b).

(** The loop of [quick_ratio()]: [avail] and [matches]. *)
Definition quick_matches (a b : list A) : nat :=
  let fullbcount : gmap A nat :=
    foldl (fun m elt => <[elt := default 0 (m !! elt) + 1]> m) ∅ b in
  (foldl (fun '(avail, matches) elt =>
            let numb : Z := match (avail : gmap A Z) !! elt with
                            | Some n => n
                            | None => Z.of_nat (default 0 (fullbcount !! elt))
                            end in
            (<[elt := (numb - 1)%Z]> avail, if (0 <? numb)%Z then matches + 1 else matches))
         (∅, 0) a).2.

Definition quick_ratio (a b : list A) : Q :=
  calculate_ratio (quick_matches a b) (length a + length b).

Definition real_quick_ratio (a b : list A) : Q :=
  calculate_ratio (min (length a) (length b)) (length a + length b).

End SequenceMatcher.

(** [r > best_ratio] and [best_ratio < cutoff] on the exact ratios. *)
Definition Qltb (x y : Q) : bool := (Qnum x * QDen y <? Qnum y * QDen x)%Z.

(** [IS_CHARACTER_JUNK]: a blank or a tab. *)
Definition is_character_junk (ch : ascii) : bool :=
  Ascii.eqb ch " " || Ascii.eqb ch "009".

Definition chars (s : string) : list ascii := list_ascii_of_string s.

(** [c * n] for a one-character string [c]. *)
Fixpoint repeat_char (c : ascii) (n : nat) : string :=
  match n with
  | 0 => EmptyString
  | S n' => String c (repeat_char c n')
  end.

(** [str.rstrip()] *)
Fixpoint rstrip (s : string) : string :=
  match s with
  | EmptyString => EmptyString
  | String c s' =>
      let r := rstrip s' in
      if is_empty r && is_space c then EmptyString else String c r
  end.

(** [_keep_original_ws(s, tag_s)] *)
Fixpoint keep_original_ws (s tag_s : string) : string :=
  match s, tag_s with
  | String c s', String tag_c tag_s' =>
      String (if Ascii.eqb tag_c " " && is_space c then c else tag_c) (keep_original_ws s' tag_s')
  | _, _ => EmptyString
  end.

Definition NEWLINE : string := String "010" EmptyString.

(** [Differ._qformat] *)
Definition qformat (aline bline atags btags : string) : list string :=
  let atags := rstrip (keep_original_ws aline atags) in
  let btags := rstrip (keep_original_ws bline btags) in
  ["- " +:+ aline] ++
  (if is_empty atags then [] else ["? " +:+ atags +:+ NEWLINE]) ++
  ["+ " +:+ bline] ++
  (if is_empty btags then [] else ["? " +:+ btags +:+ NEWLINE]).

(** [Differ._dump(tag, x, lo, hi)] *)
Definition dump (tag : string) (x : list string) (lo hi : nat) : list string :=
  (fun line => tag +:+ " " +:+ line) <$> take (hi - lo) (drop lo x).

(** [Differ._plain_replace] *)
Definition plain_replace (a : list string) (alo ahi : nat) (b : list string) (blo bhi : nat)
  : list string :=
  if bhi - blo <? ahi - alo
  then dump "+" b blo bhi ++ dump "-" a alo ahi
  else dump "-" a alo ahi ++ dump "+" b blo bhi.

(** The state of the search loops of [_fancy_replace]: [best_ratio],
    [(best_i, best_j)] once assigned, and [(eqi, eqj)]. *)
Record pick : Type := Pick {
  best_ratio : Q;
  best_ij : option (nat * nat);
  eq_ij : option (nat * nat)
}.

(** The loops [for j in range(blo, bhi): for i in range(alo, ahi)]; the
    cruncher compares the characters of [a[i]] with those of [b[j]]. *)
Definition fancy_pick (a : list string) (alo ahi : nat) (b : list string) (blo bhi : nat) : pick :=
  foldl (fun st j =>
    foldl (fun st i =>
      match a !! i, b !! j with
      | Some ai, Some bj =>
          if String.eqb ai bj
          then match eq_ij st with
               | None => Pick (best_ratio st) (best_ij st) (Some (i, j))
               | Some _ => st
               end
          else
            if Qltb (best_ratio st) (real_quick_ratio (chars ai) (chars bj))
               && Qltb (best_ratio st) (quick_ratio (chars ai) (chars bj))
               && Qltb (best_ratio st) (ratio is_character_junk (chars ai) (chars bj))
            then Pick (ratio is_character_junk (chars ai) (chars bj)) (Some (i, j)) (eq_ij st)
            else st
      | _, _ => st
      end) st (seq alo (ahi - alo)))
    (Pick (74 # 100) None None) (seq blo (bhi - blo)).

(** The tag strings [atags] and [btags] of the synch pair. *)
Definition intraline_tags (aelt belt : string) : string * string :=
  foldl (fun '(atags, btags) op =>
           let la := op_i2 op - op_i1 op in
           let lb := op_j2 op - op_j1 op in
           match op_tag op with
           | Replace => (atags +:+ repeat_char "^" la, btags +:+ repeat_char "^" lb)
           | Delete => (atags +:+ repeat_char "-" la, btags)
           | Insert => (atags, btags +:+ repeat_char "+" lb)
           | Equal => (atags +:+ repeat_char " " la, btags +:+ repeat_char " " lb)
           end)
        (EmptyString, EmptyString)
        (get_opcodes is_character_junk (chars aelt) (chars belt)).

(** [Differ._fancy_replace], with [_fancy_helper] as the local [helper].
    Every nested call works on fewer lines of [a]; [fuel] bounds the
    nesting. *)
Fixpoint fancy_replace (fuel : nat) (a : list string) (alo ahi : nat) (b : list string)
  (blo bhi : nat) : list string :=
  match fuel with
  | 0 => []
  | S fuel' =>
      let helper alo ahi blo bhi :=
        if alo <? ahi
        then (if blo <? bhi then fancy_replace fuel' a alo ahi b blo bhi
              else dump "-" a alo ahi)
        else if blo <? bhi then dump "+" b blo bhi
        else [] in
      let st := fancy_pick a alo ahi b blo bhi in
      let synch : option (nat * nat * bool) :=
        if Qltb (best_ratio st) (75 # 100)
        then match eq_ij st with
             | None => None
             | Some (eqi, eqj) => Some (eqi, eqj, true)
             end
        else match best_ij st with
             | Some (best_i, best_j) => Some (best_i, best_j, false)
             | None => None
             end in
      match synch with
      | None => plain_replace a alo ahi b blo bhi
      | Some (best_i, best_j, identical) =>
          let aelt := default EmptyString (a !! best_i) in
          let belt := default EmptyString (b !! best_j) in
          helper alo best_i blo best_j ++
          (if identical then ["  " +:+ aelt]
           else let '(atags, btags) := intraline_tags aelt belt in
                qformat aelt belt atags btags) ++
          helper (best_i + 1) ahi (best_j + 1) bhi
      end
  end.

(** [Differ.compare(a, b)], with [linejunk=None] and
    [charjunk=IS_CHARACTER_JUNK]: this is [difflib.ndiff(a, b)]. *)
Definition ndiff (a b : list string) : list string :=
  mbind (M := list) (fun op =>
    match op_tag op with
    | Replace => fancy_replace (S (op_i2 op - op_i1 op)) a (op_i1 op) (op_i2 op) b (op_j1 op) (op_j2 op)
    | Delete => dump "-" a (op_i1 op) (op_i2 op)
    | Insert => dump "+" b (op_j1 op) (op_j2 op)
    | Equal => dump " " a (op_i1 op) (op_i2 op)
    end) (get_opcodes (fun _ => false) a b).

End Difflib.

(** ** Change analysis, urdf-viewer.py:1056-1107 *)

(** [str.splitlines()]: the line boundaries below code point 256 are line
    feed, vertical tab, form feed, carriage return (with a following line
    feed), the separators 28 to 30 and the next-line character 133.  [cur]
    is the line being read, [after_cr] tells that the last character was a
    carriage return. *)
Definition is_linebreak (c : ascii) : bool :=
  let n := code c in
  ((10 <=? n) && (n <=? 13)) || ((28 <=? n) && (n <=? 30)) || (n =? 133).

Fixpoint splitlines_go (cur : string) (after_cr : bool) (s : string) : list string :=
  match s with
  | EmptyString => if is_empty cur then [] else [cur]
  | String c s' =>
      if after_cr && (code c =? 10) then splitlines_go cur false s'
      else if is_linebreak c then cur :: splitlines_go EmptyString (code c =? 13) s'
      else splitlines_go (cur +:+ String c EmptyString) false s'
  end.

Definition splitlines (s : string) : list string := splitlines_go EmptyString false s.

(** [line.startswith(prefix)] *)
Definition startswith (prefix line : string) : bool :=
  match Re.lit false prefix line with
  | Some _ => true
  | None => false
  end.

(** The dict [changes]. *)
Record changes : Type := Changes {
  added_lines : nat;
  removed_lines : nat;
  modified_lines : nat;
  unchanged_lines : nat;
  changes_by_type : gmap string nat;
  line_changes : list (string * string)
}.

(** [counter[key] += 1] on a [Counter]. *)
Definition incr (key : string) (counter : gmap string nat) : gmap string nat :=
  <[key := default 0 (counter !! key) + 1]> counter.

(** The loop over [diff], lines 1074-1084. *)
Definition count_line (ch : changes) (line : string) : changes :=
  if startswith "+ " line && negb (startswith "++" line)
  then Changes (added_lines ch + 1) (removed_lines ch) (modified_lines ch) (unchanged_lines ch)
               (changes_by_type ch) (line_changes ch ++ [("+", drop_chars 2 line)])
  else if startswith "- " line && negb (startswith "--" line)
  then Changes (added_lines ch) (removed_lines ch + 1) (modified_lines ch) (unchanged_lines ch)
               (changes_by_type ch) (line_changes ch ++ [("-", drop_chars 2 line)])
  else if startswith "  " line
  then Changes (added_lines ch) (removed_lines ch) (modified_lines ch) (unchanged_lines ch + 1)
               (changes_by_type ch) (line_changes ch)
  else if startswith "? " line
  then Changes (added_lines ch) (removed_lines ch) (modified_lines ch + 1) (unchanged_lines ch)
               (changes_by_type ch) (line_changes ch)
  else ch.

(** The body of the loop over [changes['line_changes'][:100]], lines
    1086-1105: the key that is incremented, if any. *)
Definition element_kind (line : string) : option string :=
  let line_lower := lower line in
  let has k := contains k line_lower in
  if has "<link" then Some "link"
  else if has "<joint" then Some "joint"
  else if has "<visual" then Some "visual"
  else if has "<collision" then Some "collision"
  else if has "<origin" then Some "origin"
  else if has "<geometry" then Some "geometry"
  else if has "<material" then Some "material"
  else if has (py "name='") then Some "name"
  else if has (py "xyz='") || has (py "rpy='") then Some "pose"
  else None.

Definition classify (counter : gmap string nat) (change : string * string) : gmap string nat :=
  match element_kind change.2 with
  | Some key => incr key counter
  | None => counter
  end.

(** Lines 1065-1107 on the list [diff]. *)
Definition analyze_diff (diff : list string) : changes :=
  let ch := foldl count_line (Changes 0 0 0 0 ∅ []) diff in
  Changes (added_lines ch) (removed_lines ch) (modified_lines ch) (unchanged_lines ch)
          (foldl classify (changes_by_type ch) (take 100 (line_changes ch)))
          (line_changes ch).

(** [analyze_code_changes(old_content, new_content)]; [None] is the empty
    dict [{}] returned when one of the texts is empty. *)
Definition analyze_code_changes (old_content new_content : string) : option changes :=
  if is_empty old_content || is_empty new_content then None
  else Some (analyze_diff (Difflib.ndiff (splitlines old_content) (splitlines new_content))).

(** [changes.get('added_lines', 0)], [changes.get('removed_lines', 0)] and
    [changes.get('changes_by_type')] as the callers read the result (lines
    1142-1143, 1175 and 1863-1871); an absent mapping is read as empty. *)
Definition get_added_lines (r : option changes) : nat := default 0 (added_lines <$> r).
Definition get_removed_lines (r : option changes) : nat := default 0 (removed_lines <$> r).
Definition get_changes_by_type (r : option changes) : gmap string nat :=
  default ∅ (changes_by_type <$> r).

(** * Further parts of the program *)

(** ** What [draw_link] reads of a parsed link *)

(** [self.colors], urdf-3d-viewer.py:43-51 and urdf-viewer.py:108-116. *)
Definition colors {F} `{PyFloat F} : gmap string (F * F * F * F) :=
  let c r g b := (float_of_literal r, float_of_literal g, float_of_literal b,
                  float_of_literal "1.0") in
  {[ "base" := c "0.2" "0.4" "0.8";
     "link" := c "0.4" "0.8" "0.2";
     "joint" := c "0.8" "0.2" "0.2";
     "wheel" := c "0.8" "0.4" "0.2";
     "sensor" := c "0.8" "0.2" "0.8";
     "gripper" := c "0.2" "0.8" "0.8";
     "default" := c "0.7" "0.7" "0.7" ]}.

(** [x, y, z = l]: unpacking a list into three names raises [ValueError]
    unless the list has exactly three elements. *)
Definition unpack3 {A} (l : list A) : result (A * A * A) :=
  match l with
  | [x; y; z] => Ok (x, y, z)
  | _ => ValueError
  end.

(** The head of [draw_link], urdf-3d-viewer.py:302-304 and
    urdf-viewer.py:383-385: the two unpackings of the pose of a parsed link
    (the key ['origin'] is always present in it). *)
Definition draw_link_pose {F} (l : link F) : result ((F * F * F) * (F * F * F)) :=
  let origin := link_origin l in
  '(x, y, z) ← unpack3 (xyz origin);
  '(roll, pitch, yaw) ← unpack3 (rpy origin);
  Ok ((x, y, z), (roll, pitch, yaw)).

(** ** The rows of the diagram, urdf-viewer.py:851-857 *)

(** [max_depth]: the greatest depth in [hierarchy], 0 for the empty dict.
    [max] does not depend on the order of the values. *)
Definition max_depth (h : gmap string hnode) : nat :=
  match (map_to_list h).*2 with
  | [] => 0
  | info :: infos => foldl max (depth info) (depth <$> infos)
  end.

(** The dict [y_positions]. *)
Definition y_positions (h : gmap string hnode) : gmap string Z :=
  (fun info => Z.of_nat (max_depth h) - Z.of_nat (depth info))%Z <$> h.

(** ** [difflib.unified_diff] and [compare_commits], urdf-viewer.py:1039-1054 *)

(** [s[:n]] *)
Fixpoint take_chars (n : nat) (s : string) : string :=
  match n, s with
  | S n', String c s' => String c (take_chars n' s')
  | _, _ => EmptyString
  end.

(** ['{}'.format(n)] for a natural number. *)
Definition str_of_nat (n : nat) : string := NilZero.string_of_uint (Nat.to_uint n).

Section GroupedOpcodes.
Context {A : Type} `{Countable A}.

(** The fix-up of the leading and of the trailing group of
    [SequenceMatcher.get_grouped_opcodes(n)]. *)
Definition fix_first (n : nat) (codes : list Difflib.opcode) : list Difflib.opcode :=
  match codes with
  | Difflib.Opcode Difflib.Equal i1 i2 j1 j2 :: rest =>
      Difflib.Opcode Difflib.Equal (max i1 (i2 - n)) i2 (max j1 (j2 - n)) j2 :: rest
  | _ => codes
  end.

Definition fix_last (n : nat) (codes : list Difflib.opcode) : list Difflib.opcode :=
  match last codes with
  | Some (Difflib.Opcode Difflib.Equal i1 i2 j1 j2) =>
      <[length codes - 1 := Difflib.Opcode Difflib.Equal i1 (min i2 (i1 + n)) j1 (min j2 (j1 + n))]> codes
  | _ => codes
  end.

(** The loop of [get_grouped_opcodes]: the groups yielded so far and the
    group being filled. *)
Definition group_step (n : nat) (st : list (list Difflib.opcode) * list Difflib.opcode)
  (op : Difflib.opcode) : list (list Difflib.opcode) * list Difflib.opcode :=
  let '(groups, group) := st in
  let '(Difflib.Opcode tag i1 i2 j1 j2) := op in
  match tag with
  | Difflib.Equal =>
      if n + n <? i2 - i1
      then (groups ++ [group ++ [Difflib.Opcode tag i1 (min i2 (i1 + n)) j1 (min j2 (j1 + n))]],
            [Difflib.Opcode tag (max i1 (i2 - n)) i2 (max j1 (j2 - n)) j2])
      else (groups, group ++ [op])
  | _ => (groups, group ++ [op])
  end.

(** [SequenceMatcher(None, a, b).get_grouped_opcodes(n)], as the list of
    the groups it yields. *)
Definition get_grouped_opcodes (n : nat) (a b : list A) : list (list Difflib.opcode) :=
  let codes := Difflib.get_opcodes (fun _ => false) a b in
  let codes := match codes with
               | [] => [Difflib.Opcode Difflib.Equal 0 1 0 1]
               | _ => codes
               end in
  let codes := fix_last n (fix_first n codes) in
  let '(groups, group) := foldl (group_step n) ([], []) codes in
  match group with
  | [] => groups
  | [Difflib.Opcode Difflib.Equal _ _ _ _] => groups
  | _ => groups ++ [group]
  end.

End GroupedOpcodes.

(** [_format_range_unified(start, stop)] *)
Definition format_range_unified (start stop : nat) : string :=
  let beginning := start + 1 in
  let length := stop - start in
  if length =? 1 then str_of_nat beginning
  else str_of_nat (if length =? 0 then beginning - 1 else beginning) +:+ "," +:+ str_of_nat length.

(** The lines [unified_diff] yields for one opcode of a group. *)
Definition unified_lines (a b : list string) (op : Difflib.opcode) : list string :=
  let old := take (Difflib.op_i2 op - Difflib.op_i1 op) (drop (Difflib.op_i1 op) a) in
  let new := take (Difflib.op_j2 op - Difflib.op_j1 op) (drop (Difflib.op_j1 op) b) in
  match Difflib.op_tag op with
  | Difflib.Equal => (fun line => " " +:+ line) <$> old
  | Difflib.Replace => ((fun line => "-" +:+ line) <$> old) ++ ((fun line => "+" +:+ line) <$> new)
  | Difflib.Delete => (fun line => "-" +:+ line) <$> old
  | Difflib.Insert => (fun line => "+" +:+ line) <$> new
  end.

(** The lines of one group: the range line and the lines of its opcodes.
    A group that is yielded is never empty. *)
Definition unified_group (a b : list string) (group : list Difflib.opcode) : list string :=
  match head group, last group with
  | Some first, Some last =>
      ("@@ -" +:+ format_range_unified (Difflib.op_i1 first) (Difflib.op_i2 last)
       +:+ " +" +:+ format_range_unified (Difflib.op_j1 first) (Difflib.op_j2 last) +:+ " @@")
      :: (group ≫= unified_lines a b)
  | _, _ => []
  end.

(** [difflib.unified_diff(a, b, fromfile, tofile, lineterm='')], with no
    file dates and the default three lines of context. *)
Definition unified_diff (a b : list string) (fromfile tofile : string) : list string :=
  match get_grouped_opcodes 3 a b with
  | [] => []
  | groups => ["--- " +:+ fromfile; "+++ " +:+ tofile] ++ (groups ≫= unified_group a b)
  end.

(** [compare_commits(old_content, new_content, old_sha, new_sha)]. *)
Definition compare_commits (old_content new_content old_sha new_sha : string)
  : option (list string) :=
  if is_empty old_content || is_empty new_content then None
  else Some (unified_diff (splitlines old_content) (splitlines new_content)
               ("a/" +:+ take_chars 8 old_sha) ("b/" +:+ take_chars 8 new_sha)).

(** ** [create_diff_html], urdf-viewer.py:1109-1134 *)

Section DiffHtml.
(** The text of the block shown for an empty diff; its letters lie outside
    the code points 0..255. *)
Variable no_changes : string.

(** The block of one diff line. *)
Definition diff_line_html (line : string) : string :=
  if startswith "---" line || startswith "+++" line
  then "<div style='color: #6c757d; padding: 5px; font-family: monospace;'>" +:+ line +:+ "</div>"
  else if startswith "@@" line
  then "<div style='background: #e9ecef; color: #495057; padding: 5px; font-family: monospace; font-weight: bold;'>" +:+ line +:+ "</div>"
  else if startswith "+" line
  then "<div style='background: #d4edda; color: #155724; padding: 5px; font-family: monospace; border-left: 3px solid #28a745; margin-left: 10px;'>" +:+ line +:+ "</div>"
  else if startswith "-" line
  then "<div style='background: #f8d7da; color: #721c24; padding: 5px; font-family: monospace; border-left: 3px solid #dc3545; margin-left: 10px;'>" +:+ line +:+ "</div>"
  else "<div style='color: #212529; padding: 5px; font-family: monospace;'>" +:+ line +:+ "</div>".

(** The loop over [diff_lines]: the list [html_lines]; [line_count] lines
    have been shown. *)
Fixpoint html_lines (max_lines : Z) (line_count : nat) (diff_lines : list string) : list string :=
  match diff_lines with
  | [] => []
  | line :: rest =>
      if (max_lines <=? Z.of_nat line_count)%Z
      then ["<div style='color: #666; padding: 5px; font-weight: bold;'>...</div>"]
      else diff_line_html line :: html_lines max_lines (line_count + 1) rest
  end.

(** [create_diff_html(diff_lines, max_lines)]; [None] and the empty list
    are the values that [not diff_lines] holds for. *)
Definition create_diff_html (diff_lines : option (list string)) (max_lines : Z) : string :=
  match diff_lines with
  | None | Some [] =>
      "<div style='padding: 20px; background: #f8f9fa; border-radius: 5px;'>" +:+ no_changes +:+ "</div>"
  | Some diff_lines =>
      "<div style='max-height: 500px; overflow-y: auto; border: 1px solid #dee2e6; border-radius: 5px;'>"
      +:+ String.concat "" (html_lines max_lines 0 diff_lines) +:+ "</div>"
  end.

End DiffHtml.

(** ** [analyze_urdf], urdf-viewer.py:1400-1444 *)

(** A literal pattern, and [len(re.findall(pattern, content))]. *)
Definition literal (icase : bool) (p : string) (s : string) : option (unit * string) :=
  s ← Re.lit icase p s; Some ((), s).

Definition count_matches {R} (m : string -> option (R * string)) (content : string) : nat :=
  length (Re.finditer m content).

(** [<link\s] and [<joint\s]: the tag name and one blank character. *)
Definition tag_space (open : string) (s : string) : option (unit * string) :=
  s ← Re.lit false open s;
  match s with
  | String c s' => if is_space c then Some ((), s') else None
  | EmptyString => None
  end.

(** [mass\s*value\s*=\s*'([\d\.]+)']: group 1.  No literal of the pattern
    starts with a blank character, so every [\s*] takes the whole run. *)
Definition mass_pattern (s : string) : option string :=
  s ← Re.lit false "mass" s;
  s ← Re.lit false "value" (Re.span is_space s).2;
  s ← Re.lit false "=" (Re.span is_space s).2;
  s ← Re.lit false QUOTE (Re.span is_space s).2;
  '(g, s) ← Re.plus number_class s;
  _ ← Re.lit false QUOTE s;
  Some g.

(** The dict [stats].  [stat_size] and [stat_mass] hold the numbers that
    the source formats into the texts of ['size'] and ['mass']: [stat_size]
    is [None] when ['size'] keeps its default text; [stat_mass] is [None]
    when the key ['mass'] is absent and [Some ValueError] when it holds the
    text for a mass that could not be read. *)
Record urdf_stats (F : Type) : Type := UrdfStats {
  stat_links : nat;
  stat_joints : nat;
  stat_visuals : nat;
  stat_collisions : nat;
  stat_lines : nat;
  stat_size : option (list F);
  stat_structure : structure;
  stat_mass : option (result F);
  stat_joint_types : gmap string nat;
  stat_geometries : gmap string nat
}.
Arguments UrdfStats {F}.
Arguments stat_links {F} u.
Arguments stat_joints {F} u.
Arguments stat_visuals {F} u.
Arguments stat_collisions {F} u.
Arguments stat_lines {F} u.
Arguments stat_size {F} u.
Arguments stat_structure {F} u.
Arguments stat_mass {F} u.
Arguments stat_joint_types {F} u.
Arguments stat_geometries {F} u.

Definition analyze_urdf {F} `{PyFloat F} (content : string) : urdf_stats F :=
  UrdfStats
    (count_matches (tag_space "<link") content)
    (count_matches (tag_space "<joint") content)
    (count_matches (literal true "<visual>") content)
    (count_matches (literal true "<collision>") content)
    (length (splitlines content))
    (analyze_urdf_size content)
    (parse_urdf_structure content)
    (float <$> Re.search mass_pattern content)
    {[ "revolute" := count_matches (literal true (py "type='revolute'")) content;
       "prismatic" := count_matches (literal true (py "type='prismatic'")) content;
       "fixed" := count_matches (literal true (py "type='fixed'")) content;
       "continuous" := count_matches (literal true (py "type='continuous'")) content ]}
    {[ "box" := count_matches (literal true "<box") content;
       "cylinder" := count_matches (literal true "<cylinder") content;
       "sphere" := count_matches (literal true "<sphere") content;
       "mesh" := count_matches (literal true "<mesh") content ]}.

(** ** [parse_github_url], urdf-viewer.py:634-642, and [urllib.parse.urlparse]

    [urlparse] and [urlsplit] of CPython 3.11 (Lib/urllib/parse.py) on a
    [str].  The one library call left open is [ipaddress.ip_address], which
    [urlsplit] applies to a host in brackets. *)

(** [c in s] *)
Fixpoint str_in (c : ascii) (s : string) : bool :=
  match s with
  | EmptyString => false
  | String c' s' => Ascii.eqb c c' || str_in c s'
  end.

(** [s.partition(c)] for a one-character separator: the text before the
    first [c] and the text after it, [None] when [c] is not in [s]. *)
Fixpoint partition (c : ascii) (s : string) : option (string * string) :=
  match s with
  | EmptyString => None
  | String c' s' =>
      if Ascii.eqb c c' then Some (EmptyString, s')
      else '(before, after) ← partition c s'; Some (String c' before, after)
  end.

(** [s.rpartition(c)[2]]: the text after the last [c], all of [s] when [c]
    is not in it. *)
Fixpoint after_last (c : ascii) (s : string) : string :=
  match s with
  | EmptyString => EmptyString
  | String c' s' => if str_in c s' then after_last c s'
                    else if Ascii.eqb c c' then s' else s
  end.

(** [s.replace(c, '')] *)
Fixpoint remove_char (c : ascii) (s : string) : string :=
  match s with
  | EmptyString => EmptyString
  | String c' s' => if Ascii.eqb c c' then remove_char c s' else String c' (remove_char c s')
  end.

(** [s.lstrip(chars)], [s.rstrip(chars)] and [s.strip(chars)] for the set
    of characters [f]. *)
Definition lstrip_chars (f : ascii -> bool) (s : string) : string := (Re.span f s).2.

Fixpoint rstrip_chars (f : ascii -> bool) (s : string) : string :=
  match s with
  | EmptyString => EmptyString
  | String c s' =>
      let r := rstrip_chars f s' in
      if is_empty r && f c then EmptyString else String c r
  end.

Definition strip_chars (f : ascii -> bool) (s : string) : string :=
  rstrip_chars f (lstrip_chars f s).

(** [s.split(c)] for a one-character separator.  [cur] is the piece being
    read. *)
Fixpoint split_on_go (c : ascii) (cur : string) (s : string) : list string :=
  match s with
  | EmptyString => [cur]
  | String c' s' =>
      if Ascii.eqb c c' then cur :: split_on_go c EmptyString s'
      else split_on_go c (cur +:+ String c' EmptyString) s'
  end.

Definition split_on (c : ascii) (s : string) : list string := split_on_go c EmptyString s.

(** [s.find(c, start)], [None] for [-1]. *)
Fixpoint find_from (c : ascii) (start : nat) (s : string) : option nat :=
  match s with
  | EmptyString => None
  | String c' s' =>
      match start with
      | 0 => if Ascii.eqb c c' then Some 0 else S <$> find_from c 0 s'
      | S start' => S <$> find_from c start' s'
      end
  end.

(** [s.rfind(c)] *)
Fixpoint rfind (c : ascii) (s : string) : option nat :=
  match s with
  | EmptyString => None
  | String c' s' =>
      match rfind c s' with
      | Some i => Some (S i)
      | None => if Ascii.eqb c c' then Some 0 else None
      end
  end.

Module Urllib.

Inductive ip_version : Type := IPv4 | IPv6.

(** The five fields of a [SplitResult] and the six of a [ParseResult]. *)
Record split_result : Type := SplitResult {
  s_scheme : string; s_netloc : string; s_path : string; s_query : string; s_fragment : string
}.
Record parse_result : Type := ParseResult {
  scheme : string; netloc : string; path : string; params : string; query : string;
  fragment : string
}.

(** [uses_params], and the characters of [scheme_chars]. *)
Definition uses_params : list string :=
  [""; "ftp"; "hdl"; "prospero"; "http"; "imap"; "https"; "shttp"; "rtsp"; "rtspu"; "sip";
   "sips"; "mms"; "sftp"; "tel"].

Definition is_ascii_alpha (c : ascii) : bool :=
  let n := code c in ((65 <=? n) && (n <=? 90)) || ((97 <=? n) && (n <=? 122)).

Definition scheme_char (c : ascii) : bool :=
  is_ascii_alpha c || is_digit c || Ascii.eqb c "+" || Ascii.eqb c "-" || Ascii.eqb c ".".

(** The characters of [_WHATWG_C0_CONTROL_OR_SPACE]. *)
Definition c0_control_or_space (c : ascii) : bool := code c <=? 32.

(** [_splitnetloc(url, start)] *)
Definition splitnetloc (url : string) (start : nat) : string * string :=
  let delim :=
    foldl (fun delim c =>
             match find_from c start url with
             | Some wdelim => min delim wdelim
             | None => delim
             end)
          (String.length url) ["/"; "?"; "#"]%char in
  (substring start (delim - start) url, drop_chars delim url).

Section urlparse.
(** [ipaddress.ip_address(hostname)]: the kind of address it returns, [None]
    when it raises [ValueError]. *)
Variable ip_address : string -> option ip_version.

(** [re.match(r'\Av[a-fA-F0-9]+\..+\Z', hostname)] *)
Definition is_hex_digit (c : ascii) : bool :=
  let n := code c in
  is_digit c || ((65 <=? n) && (n <=? 70)) || ((97 <=? n) && (n <=? 102)).

Definition ipvfuture (hostname : string) : bool :=
  match hostname with
  | String "v"%char s =>
      match Re.plus is_hex_digit s with
      | Some (_, String "."%char rest) =>
          negb (is_empty rest) && all_chars (fun c => negb (code c =? 10)) rest
      | _ => false
      end
  | _ => false
  end.

(** [_check_bracketed_host(hostname)]: [ValueError] or nothing. *)
Definition check_bracketed_host (hostname : string) : result unit :=
  if startswith "v" hostname
  then (if ipvfuture hostname then Ok () else ValueError)
  else match ip_address hostname with
       | Some IPv6 => Ok ()
       | Some IPv4 | None => ValueError
       end.

(** [_check_bracketed_netloc(netloc)] *)
Definition check_bracketed_netloc (netloc : string) : result unit :=
  let hostname_and_port := after_last "@" netloc in
  match partition "[" hostname_and_port with
  | Some (before_bracket, bracketed) =>
      if negb (is_empty before_bracket) then ValueError
      else
        let '(hostname, port) := default (bracketed, EmptyString) (partition "]" bracketed) in
        if negb (is_empty port) && negb (startswith ":" port) then ValueError
        else check_bracketed_host hostname
  | None =>
      let '(hostname, _) :=
        default (hostname_and_port, EmptyString) (partition ":" hostname_and_port) in
      check_bracketed_host hostname
  end.

(** [urlsplit(url)].  [_checknetloc] raises only when the NFKC form of the
    host holds one of [/?#@:] that the host does not; no character of the
    code points 128..255 has such a form, so the check passes here. *)
Definition urlsplit (url : string) : result split_result :=
  let url := lstrip_chars c0_control_or_space url in
  let url := foldl (fun url b => remove_char b url) url ["009"; "013"; "010"]%char in
  let '(scheme, url) :=
    match find_from ":" 0 url, url with
    | Some i, String c0 _ =>
        if (0 <? i) && is_ascii_alpha c0 && all_chars scheme_char (take_chars i url)
        then (lower (take_chars i url), drop_chars (i + 1) url)
        else (EmptyString, url)
    | _, _ => (EmptyString, url)
    end in
  '(netloc, url) ←
    (if String.eqb (take_chars 2 url) "//"
     then
       let '(netloc, url) := splitnetloc url 2 in
       if (str_in "[" netloc && negb (str_in "]" netloc))
          || (str_in "]" netloc && negb (str_in "[" netloc))
       then ValueError
       else
         _ ← (if str_in "[" netloc && str_in "]" netloc
              then check_bracketed_netloc netloc else Ok ());
         Ok (netloc, url)
     else Ok (EmptyString, url));
  let '(url, fragment) := default (url, EmptyString) (partition "#" url) in
  let '(url, query) := default (url, EmptyString) (partition "?" url) in
  Ok (SplitResult scheme netloc url query fragment).

(** [_splitparams(url)], called on a [url] that holds a [;]. *)
Definition splitparams (url : string) : string * string :=
  let cut i := (take_chars i url, drop_chars (i + 1) url) in
  if str_in "/" url
  then match find_from ";" (default 0 (rfind "/" url)) url with
       | Some i => cut i
       | None => (url, EmptyString)
       end
  else cut (default 0 (find_from ";" 0 url)).

(** [urlparse(url)] *)
Definition urlparse (url : string) : result parse_result :=
  '(SplitResult scheme netloc url query fragment) ← urlsplit url;
  let '(url, params) :=
    if bool_decide (scheme ∈ uses_params) && str_in ";" url
    then splitparams url else (url, EmptyString) in
  Ok (ParseResult scheme netloc url params query fragment).

End urlparse.
End Urllib.

(** [parse_github_url(url)]; [None] is the pair [(None, None)], which is
    also the answer when [urlparse] raises. *)
Definition parse_github_url (ip_address : string -> option Urllib.ip_version) (url : string)
  : option (string * string) :=
  match Urllib.urlparse ip_address url with
  | Ok parsed =>
      match split_on "/" (strip_chars (Ascii.eqb "/") (Urllib.path parsed)) with
      | part0 :: part1 :: _ => Some (part0, part1)
      | _ => None
      end
  | ValueError => None
  end.

(** ** Camera control: [keyboard], [mouse] and [motion],
    urdf-3d-viewer.py:361-405 and urdf-viewer.py:479-526

    The camera numbers are Python floats.  Every value that the handlers
    compute from the initial camera is a multiple of 0.5, and binary64 adds,
    subtracts and compares such multiples exactly as long as they stay below
    2^52; they are rationals here. *)

(** The calls of GLUT that the handlers make. *)
Inductive glut_call : Type := DestroyWindow | PostRedisplay.

(** The fields of the viewer that the handlers read and write. *)
Record viewer : Type := Viewer {
  camera_distance : Q;
  camera_angle_x : Q;
  camera_angle_y : Q;
  last_x : Z;
  last_y : Z;
  mouse_down : bool;
  running : bool
}.

(** The fields after [__init__]. *)
Definition new_viewer : viewer := Viewer 5 45 30 0 0 false false.

(** [max(a, b)] and [min(a, b)] of Python: the second argument when it is
    greater (smaller) than the first, else the first. *)
Definition py_max (a b : Q) : Q := if Qle_bool b a then a else b.
Definition py_min (a b : Q) : Q := if Qle_bool a b then a else b.

(** [keyboard(key, x, y)]: [key] is the byte that GLUT passes; a byte above
    127 is not UTF-8 and [decode] raises [UnicodeDecodeError], a
    [ValueError]. *)
Definition keyboard (v : variant) (key : ascii) (st : viewer) : result (viewer * list glut_call) :=
  if 128 <=? code key then ValueError
  else
    let key := lower_char key in
    let d := camera_distance st in
    let ax := camera_angle_x st in
    let ay := camera_angle_y st in
    let moved d ax ay :=
      Ok (Viewer d ax ay (last_x st) (last_y st) (mouse_down st) (running st), [PostRedisplay]) in
    if Ascii.eqb key "q" || Ascii.eqb key "027"
    then Ok (Viewer d ax ay (last_x st) (last_y st) (mouse_down st) false,
             match v with
             | Standalone => [DestroyWindow; PostRedisplay]
             | Embedded => [DestroyWindow]
             end)
    else if Ascii.eqb key "+" then moved (py_max 1 (d - (1 # 2)))%Q ax ay
    else if Ascii.eqb key "-" then moved (d + (1 # 2))%Q ax ay
    else if Ascii.eqb key "r" then moved 5%Q 45%Q 30%Q
    else if Ascii.eqb key "w"
    then moved d ax (match v with Standalone => ay - 5 | Embedded => ay + 5 end)%Q
    else if Ascii.eqb key "s"
    then moved d ax (match v with Standalone => ay + 5 | Embedded => ay - 5 end)%Q
    else if Ascii.eqb key "a" then moved d (ax - 5)%Q ay
    else if Ascii.eqb key "d" then moved d (ax + 5)%Q ay
    else moved d ax ay.

(** [GLUT_LEFT_BUTTON] and [GLUT_DOWN]. *)
Definition GLUT_LEFT_BUTTON : Z := 0.
Definition GLUT_DOWN : Z := 0.

(** [mouse(button, state, x, y)] *)
Definition mouse (button state x y : Z) (st : viewer) : viewer :=
  if (button =? GLUT_LEFT_BUTTON)%Z
  then
    if (state =? GLUT_DOWN)%Z
    then Viewer (camera_distance st) (camera_angle_x st) (camera_angle_y st) x y true (running st)
    else Viewer (camera_distance st) (camera_angle_x st) (camera_angle_y st)
                (last_x st) (last_y st) false (running st)
  else st.

(** [motion(x, y)] *)
Definition motion (v : variant) (x y : Z) (st : viewer) : viewer * list glut_call :=
  if mouse_down st
  then
    let dx := (x - last_x st)%Z in
    let dy := (y - last_y st)%Z in
    let ax := (camera_angle_x st + inject_Z dx * (1 # 2))%Q in
    let ay := (camera_angle_y st + inject_Z dy * (1 # 2))%Q in
    let ay := match v with
              | Standalone => ay
              | Embedded => py_max (-89) (py_min 89 ay)
              end in
    (Viewer (camera_distance st) ax ay x y true (running st), [PostRedisplay])
  else (st, []).

(** The events that GLUT delivers to the three handlers, and the viewer
    after a sequence of them with the calls made on the way. *)
Inductive event : Type :=
| Key (key : ascii)
| Mouse (button state x y : Z)
| Motion (x y : Z).

Definition handle (v : variant) (ev : event) (st : viewer) : result (viewer * list glut_call) :=
  match ev with
  | Key key => keyboard v key st
  | Mouse button state x y => Ok (mouse button state x y st, [])
  | Motion x y => Ok (motion v x y st)
  end.

Fixpoint handle_all (v : variant) (evs : list event) (st : viewer)
  : result (viewer * list glut_call) :=
  match evs with
  | [] => Ok (st, [])
  | ev :: evs' =>
      '(st', calls) ← handle v ev st;
      '(st'', calls') ← handle_all v evs' st';
      Ok (st'', calls ++ calls')
  end.

(** The motions of one drag: the viewer after the positions that GLUT
    reports while the button is held. *)
Definition drag (v : variant) (points : list (Z * Z)) (st : viewer) : viewer :=
  foldl (fun st '(x, y) => (motion v x y st).1) st points.

(** ** The launcher, run.py: [ConsoleUI.print_table] and [find_free_port] *)

Module Console.

(** The texts of the launcher hold letters outside the code points 0..255:
    a text is the list of its code points. *)
Definition text : Type := list N.

Definition SPACE : N := 32.
(** The box-drawing characters of the table: U+2502, U+2500 and U+253C. *)
Definition BAR : N := 9474.
Definition DASH : N := 9472.
Definition CROSS : N := 9532.

(** [s.ljust(width)] *)
Definition ljust (width : nat) (s : text) : text := s ++ replicate (width - length s) SPACE.

(** How a call ends: it returns, or raises [IndexError]. *)
Inductive outcome : Type := Returned | IndexError.

(** [enumerate(l)] *)
Definition enumerate {A} (l : list A) : list (nat * A) := zip (seq 0 (length l)) l.

(** The first loop of [print_table]: [col_widths] after one row, and after
    all of them. *)
Definition widen_cell (col_widths : list nat) (ic : nat * text) : list nat :=
  match col_widths !! ic.1 with
  | Some w => <[ic.1 := max w (length ic.2)]> col_widths
  | None => col_widths
  end.

Definition widen (col_widths : list nat) (row : list text) : list nat :=
  foldl widen_cell col_widths (enumerate row).

Definition column_widths (headers : list text) (rows : list (list text)) : list nat :=
  foldl widen (length <$> headers) rows.

(** The loop over the headers: [header_line] and [separator_line].
    [col_widths] is as long as [headers], so every index is inside it. *)
Definition header_cell (col_widths : list nat) (n : nat) (lines : text * text)
  (ih : nat * text) : text * text :=
  let w := default 0 (col_widths !! ih.1) in
  if ih.1 <? n - 1
  then (lines.1 ++ ljust w ih.2 ++ [SPACE; BAR; SPACE],
        lines.2 ++ replicate w DASH ++ [DASH; CROSS; DASH])
  else (lines.1 ++ ljust w ih.2, lines.2 ++ replicate w DASH).

Definition header_lines (col_widths : list nat) (headers : list text) : text * text :=
  foldl (header_cell col_widths (length headers)) ([SPACE; SPACE], [SPACE; SPACE])
        (enumerate headers).

(** The line of one row, [None] when [col_widths[i]] raises. *)
Definition row_cell (col_widths : list nat) (n : nat) (row_line : option text)
  (ic : nat * text) : option text :=
  row_line ← row_line;
  w ← col_widths !! ic.1;
  Some (row_line ++ ljust w ic.2 ++ (if ic.1 <? n - 1 then [SPACE; BAR; SPACE] else [])).

Definition row_line (col_widths : list nat) (row : list text) : option text :=
  foldl (row_cell col_widths (length row)) (Some [SPACE; SPACE]) (enumerate row).

(** The loop over the rows: the lines printed, and how the loop ends. *)
Fixpoint print_rows (col_widths : list nat) (rows : list (list text)) : list text * outcome :=
  match rows with
  | [] => ([], Returned)
  | row :: rows' =>
      match row_line col_widths row with
      | Some line => let '(lines, end_) := print_rows col_widths rows' in (line :: lines, end_)
      | None => ([], IndexError)
      end
  end.

(** [print_table(headers, rows)] for cells that are texts: the lines it
    prints and how it ends. *)
Definition print_table (headers : list text) (rows : list (list text)) : list text * outcome :=
  match rows with
  | [] => ([], Returned)
  | _ =>
      let col_widths := column_widths headers rows in
      let '(header_line, separator_line) := header_lines col_widths headers in
      let '(lines, end_) := print_rows col_widths rows in
      (header_line :: separator_line :: lines, end_)
  end.

End Console.

(** [find_free_port(start_port)].  [probe port] is what the body of the
    [try] does for [port]: the result of [connect_ex], or [None] when a
    socket call raises. *)
Fixpoint try_ports (probe : Z -> option Z) (ports : list Z) : option Z :=
  match ports with
  | [] => None
  | port :: ports' =>
      match probe port with
      | Some result => if (result =? 0)%Z then try_ports probe ports' else Some port
      | None => try_ports probe ports'
      end
  end.

Definition find_free_port (probe : Z -> option Z) (start_port : Z) : Z :=
  default start_port (try_ports probe (seqZ start_port 20)).

(** ** [create_author_stats], urdf-viewer.py:1318-1355 *)

(** An entry of the list of commits, as [get_github_commits] and
    [get_local_commits] build it; the date is left out. *)
Record commit : Type := Commit {
  commit_sha : string;
  commit_full_sha : string;
  commit_message : string;
  commit_author : string
}.

(** [counts[key] = counts.get(key, 0) + 1] on a dict, whose items are kept
    in the order in which their keys were first set. *)
Fixpoint count_up (key : string) (counts : list (string * nat)) : list (string * nat) :=
  match counts with
  | [] => [(key, 0 + 1)]
  | (k, n) :: counts' =>
      if String.eqb k key then (k, n + 1) :: counts' else (k, n) :: count_up key counts'
  end.

(** [sorted(items, key=lambda x: x[1], reverse=True)]: by falling count;
    items of equal count keep their order. *)
Fixpoint insert_by_count (x : string * nat) (l : list (string * nat)) : list (string * nat) :=
  match l with
  | [] => [x]
  | y :: l' => if x.2 <? y.2 then y :: insert_by_count x l' else x :: l
  end.

Definition sorted_by_count (l : list (string * nat)) : list (string * nat) :=
  foldr insert_by_count [] l.

(** [create_author_stats(commits)]: [None] for no commits, else the list
    [sorted_authors], which is returned as it is or, with plotly, drawn as the
    bars of the figure that is returned. *)
Definition create_author_stats (commits : list commit) : option (list (string * nat)) :=
  match commits with
  | [] => None
  | _ =>
      let author_counts :=
        foldl (fun author_counts commit => count_up (commit_author commit) author_counts)
              [] commits in
      Some (sorted_by_count author_counts)
  end.

(** * Vocabulary of the statements *)

Import Difflib.

(** ** Extraction *)

(** Some shape pattern matches at the start of [s]. *)
Definition shape_pattern (icase : bool) (s : string) : option unit :=
  match box_pattern icase s, cylinder_pattern icase s, sphere_pattern icase s with
  | None, None, None => None
  | _, _, _ => Some ()
  end.

(** The offsets of [s] at which a shape tag is found. *)
Definition shape_tags (icase : bool) (s : string) : list nat :=
  Re.positions (shape_pattern icase) s.

(** A shape tag written the way the patterns read it, up to the quote that
    closes its last attribute, and the descriptor its literal numbers
    denote: the attributes follow the tag name in the order of the pattern,
    and a number is an unsigned decimal literal.  [ws], [ws1] and [ws2] are
    the blank space before an attribute. *)
Inductive shape_tag {F : Type} `{PyFloat F} : string -> geometry F -> Prop :=
| box_tag (ws body x y z : string) :
    ws <> EmptyString -> all_chars is_space ws = true ->
    all_chars size_class body = true -> split body = [x; y; z] ->
    float_syntax x = true -> float_syntax y = true -> float_syntax z = true ->
    shape_tag ("<box" +:+ ws +:+ SIZE_EQ +:+ body +:+ QUOTE)
              (Box [float_of_literal x; float_of_literal y; float_of_literal z])
| cylinder_tag (ws1 ws2 r l : string) :
    ws1 <> EmptyString -> all_chars is_space ws1 = true ->
    ws2 <> EmptyString -> all_chars is_space ws2 = true ->
    all_chars number_class r = true -> float_syntax r = true ->
    all_chars number_class l = true -> float_syntax l = true ->
    shape_tag ("<cylinder" +:+ ws1 +:+ RADIUS_EQ +:+ r +:+ QUOTE +:+ ws2 +:+ LENGTH_EQ +:+ l +:+ QUOTE)
              (Cylinder (float_of_literal r) (float_of_literal l))
| sphere_tag (ws r : string) :
    ws <> EmptyString -> all_chars is_space ws = true ->
    all_chars number_class r = true -> float_syntax r = true ->
    shape_tag ("<sphere" +:+ ws +:+ RADIUS_EQ +:+ r +:+ QUOTE)
              (Sphere (float_of_literal r)).

(** [s] is empty or starts with a character outside the class [f]. *)
Definition stops (f : ascii -> bool) (s : string) : Prop :=
  match s with
  | EmptyString => True
  | String c _ => f c = false
  end.

(** The joint declarations that [joint_loop] drops: those whose body has no
    parent tag or no child tag. *)
Definition defective (m : string * string) : bool :=
  match Re.search parent_pattern m.2, Re.search child_pattern m.2 with
  | Some _, Some _ => false
  | _, _ => true
  end.

(** ** Change analysis *)

(** The diff lines counted as added, as removed and as unchanged. *)
Definition is_added (line : string) : bool :=
  startswith "+ " line && negb (startswith "++" line).
Definition is_removed (line : string) : bool :=
  startswith "- " line && negb (startswith "--" line).
Definition is_unchanged (line : string) : bool := startswith "  " line.

(** The added and removed lines of a diff, in its order, as the pairs that
    [line_changes] holds. *)
Definition change_of (line : string) : option (string * string) :=
  if is_added line then Some ("+", drop_chars 2 line)
  else if is_removed line then Some ("-", drop_chars 2 line)
  else None.
Definition changed_lines (diff : list string) : list (string * string) :=
  omap change_of diff.

(** [sum(counter.values())] *)
Definition counter_total (counter : gmap string nat) : nat :=
  map_fold (fun _ n acc => n + acc) 0 counter.

(** The diff lines that stand for a line of the first text, and for a line
    of the second. *)
Definition of_old (line : string) : bool := is_removed line || is_unchanged line.
Definition of_new (line : string) : bool := is_added line || is_unchanged line.

(** The number of elements of [l] that satisfy [f]. *)
Definition count {X} (f : X -> bool) (l : list X) : nat := length (List.filter f l).

(** The text whose lines are [ls], joined by line feeds. *)
Definition text_of_lines (ls : list string) : string :=
  String.concat (String "010" EmptyString) ls.

(** ** Matching blocks *)

(** A block lies in the window [alo:ahi] x [blo:bhi]. *)
Definition in_window (alo ahi blo bhi : nat) (x : block) : Prop :=
  let '(i, j, k) := x in alo <= i /\ i + k <= ahi /\ blo <= j /\ j + k <= bhi.

(** A rectangle [alo:ahi] x [blo:bhi] of index pairs: an entry of the queue
    of [get_matching_blocks], or the pairs a block matches. *)
Definition rect : Type := nat * nat * nat * nat.

Definition rect_of (x : block) : rect :=
  let '(i, j, k) := x in (i, i + k, j, j + k).

(** [r1] ends, in both sequences, where [r2] starts or earlier. *)
Definition before (r1 r2 : rect) : Prop :=
  let '(_, ahi1, _, bhi1) := r1 in
  let '(alo2, _, blo2, _) := r2 in
  ahi1 <= alo2 /\ bhi1 <= blo2.

Definition apart (r1 r2 : rect) : Prop := before r1 r2 \/ before r2 r1.

Definition within (r0 r : rect) : Prop :=
  let '(alo0, ahi0, blo0, bhi0) := r0 in
  let '(alo, ahi, blo, bhi) := r in
  alo0 <= alo /\ alo <= ahi /\ ahi <= ahi0 /\ blo0 <= blo /\ blo <= bhi /\ bhi <= bhi0.

(** Every two elements of a list at different positions are related. *)
Fixpoint pairwise {X} (R : X -> X -> Prop) (l : list X) : Prop :=
  match l with
  | [] => True
  | x :: l' => Forall (R x) l' /\ pairwise R l'
  end.

(** Blocks that follow one another from [(i, j)] on without overlap, and
    end inside the two sequences of lengths [la] and [lb]. *)
Fixpoint chain (i j : nat) (blocks : list block) (la lb : nat) : Prop :=
  match blocks with
  | [] => i <= la /\ j <= lb
  | (ai, bj, k) :: blocks' => i <= ai /\ j <= bj /\ chain (ai + k) (bj + k) blocks' la lb
  end.

(** The rounds the loop of [get_matching_blocks] can still make on a queue. *)
Definition rounds (queue : list rect) : nat :=
  foldr (fun '(alo, ahi, _, _) n => 2 * (ahi - alo) + 1 + n) 0 queue.

(** [merge_adjacent] from the running block [cur] on, building its result
    from the front. *)
Fixpoint merge_from (cur : block) (rest : list block) : list block :=
  let '(i1, j1, k1) := cur in
  match rest with
  | [] => if 0 <? k1 then [cur] else []
  | (i2, j2, k2) :: rest' =>
      if (i1 + k1 =? i2) && (j1 + k1 =? j2)
      then merge_from (i1, j1, k1 + k2) rest'
      else (if 0 <? k1 then [cur] else []) ++ merge_from (i2, j2, k2) rest'
  end.

(** [get_opcodes] from the position [(i, j)] on, building its result from
    the front. *)
Fixpoint opcodes_from (i j : nat) (blocks : list block) : list opcode :=
  match blocks with
  | [] => []
  | (ai, bj, size) :: blocks' =>
      (if (i <? ai) && (j <? bj) then [Opcode Replace i ai j bj]
       else if i <? ai then [Opcode Delete i ai j bj]
       else if j <? bj then [Opcode Insert i ai j bj]
       else []) ++
      (if 0 <? size then [Opcode Equal ai (ai + size) bj (bj + size)] else []) ++
      opcodes_from (ai + size) (bj + size) blocks'
  end.

(** The indices of [x] in [l], counted from [off], in increasing order. *)
Fixpoint pos_from {A} `{EqDecision A} (x : A) (off : nat) (l : list A) : list nat :=
  match l with
  | [] => []
  | y :: l' => (if decide (x = y) then [off] else []) ++ pos_from x (S off) l'
  end.

(** ** Inputs of the examples *)

(** Two joints, the first without a parent tag. *)
Definition two_joints : string :=
  py "<joint name='j1' type='fixed'><child link='b'/></joint><joint name='j2' type='fixed'><parent link='a'/><child link='c'/></joint>".

(** A link whose visual origin only rotates. *)
Definition rotated_visual : string :=
  py "<robot><link name='arm'><visual><origin xyz='0 0 0' rpy='0 1.57 0'/><geometry><sphere radius='0.2'/></geometry></visual></link></robot>".

(** [C] is reached from [A] through [B] and, later, from [A] directly. *)
Definition diamond : list edge :=
  [Edge "j1" "A" "B"; Edge "j2" "B" "C"; Edge "j3" "A" "C"].

(** Two texts of four one-letter lines. *)
Definition tide : string := text_of_lines ["t"; "i"; "d"; "e"].
Definition diet : string := text_of_lines ["d"; "i"; "e"; "t"].

(** A text of one line against the same line followed by 120 link tags, and
    the report of their analysis. *)
Definition one_line : string := "<robot>".
Definition many_links : string :=
  text_of_lines ("<robot>" :: replicate 120 "<link/>").
Definition many_links_report : changes :=
  Changes 120 0 0 1 {["link" := 100]} (replicate 120 ("+", "<link/>")).

(** ** Vocabulary of the further properties *)

(** A link whose origin gives two numbers of rotation. *)
Definition short_rotation : string :=
  py "<robot><link name='arm'><origin xyz='1 2 3' rpy='0 1.57'/><sphere radius='0.2'/></link></robot>".

(** A chain of [k] joints leads from [n] down to [m]. *)
Fixpoint joint_path (joints : list edge) (n m : string) (k : nat) : Prop :=
  match k with
  | 0 => n = m
  | S k' => exists joint, joint ∈ joints /\ edge_parent joint = n /\ joint_path joints (edge_child joint) m k'
  end.

(** The characters of a repository or account name here: ASCII letters and
    digits, [-], [_] and [.]; and the characters that [urlparse] passes
    through unchanged into the path. *)
Definition name_char (c : ascii) : bool :=
  Urllib.is_ascii_alpha c || is_digit c || Ascii.eqb c "-" || Ascii.eqb c "_" || Ascii.eqb c ".".

Definition plain_char (c : ascii) : bool :=
  negb (Ascii.eqb c "#" || Ascii.eqb c "?" || Ascii.eqb c ";" || Ascii.eqb c ":"
        || Ascii.eqb c "009" || Ascii.eqb c "010" || Ascii.eqb c "013").

(** What may follow the two names: nothing, or further segments of the path. *)
Definition path_tail (rest : string) : Prop :=
  rest = EmptyString \/ exists tail, rest = String "/" tail /\ all_chars plain_char tail = true.

(** Nothing answers on the port, or the probe fails. *)
Definition busy (probe : Z -> option Z) (port : Z) : Prop :=
  probe port = None \/ probe port = Some 0%Z.

(** The number of the commits of an author, and the order of falling
    numbers. *)
Definition commits_of (a : string) (commits : list commit) : nat :=
  length (filter (fun c => commit_author c = a) commits).

Definition falling (x y : string * nat) : Prop := y.2 <= x.2.

(** * Proofs *)

(** ** Strings and patterns *)

Lemma append_cons c s t : String c s +:+ t = String c (s +:+ t).
Proof. reflexivity. Qed.

Lemma append_empty t : EmptyString +:+ t = t.
Proof. reflexivity. Qed.

Lemma chr_refl icase c : Re.chr icase c c = true.
Proof. unfold Re.chr. destruct icase; apply Ascii.eqb_refl. Qed.

Lemma lit_app icase p s : Re.lit icase p (p +:+ s) = Some s.
Proof.
  induction p as [|c p IH]; [done|].
  rewrite append_cons. simpl. by rewrite chr_refl.
Qed.

Lemma span_app f g rest :
  all_chars f g = true -> stops f rest -> Re.span f (g +:+ rest) = (g, rest).
Proof.
  induction g as [|c g IH]; intros Hg Hrest.
  - rewrite append_empty. destruct rest as [|c r]; [done|].
    simpl in *. by rewrite Hrest.
  - rewrite append_cons. simpl in *.
    apply andb_prop in Hg as [-> Hg]. by rewrite IH.
Qed.

Lemma plus_app f g rest :
  g <> EmptyString -> all_chars f g = true -> stops f rest ->
  Re.plus f (g +:+ rest) = Some (g, rest).
Proof.
  intros Hne Hg Hrest. unfold Re.plus. rewrite span_app by done.
  by destruct g.
Qed.

Lemma drop_chars_app pre rest : drop_chars (String.length pre) (pre +:+ rest) = rest.
Proof. induction pre as [|c pre IH]; [by destruct rest|]. by rewrite append_cons. Qed.

Section Search.
Context {R R' : Type} (m : string -> option R) (m' : string -> option R').
Hypothesis m'_le_m : forall s, m s = None -> m' s = None.

Lemma search_no_position s : Re.positions m s = [] -> Re.search m' s = None.
Proof.
  induction s as [|c s IH]; simpl; intros Hp.
  - destruct (m EmptyString) eqn:Hm; [done|]. by rewrite m'_le_m.
  - destruct (m (String c s)) eqn:Hm; [done|].
    rewrite m'_le_m by done. apply IH.
    simpl in Hp. by destruct (Re.positions m s).
Qed.

Lemma search_single_position s n :
  Re.positions m s = [n] -> Re.search m' s = m' (drop_chars n s).
Proof.
  revert n. induction s as [|c s IH]; intros n; simpl.
  - destruct (m EmptyString) eqn:Hm; simpl; intros [= <-]; simpl.
    by destruct (m' EmptyString).
  - destruct (m (String c s)) eqn:Hm; simpl.
    + intros [= <- Hp]. simpl. destruct (m' (String c s)) eqn:Hm'; [done|].
      apply search_no_position. by destruct (Re.positions m s).
    + rewrite m'_le_m by done. intros Hp.
      destruct (Re.positions m s) as [|n' [|? ?]] eqn:Hps; simplify_eq/=.
      by apply IH.
Qed.
End Search.

Lemma float_syntax_nonempty tok : float_syntax tok = true -> tok <> EmptyString.
Proof. by destruct tok. Qed.

Lemma float_ok {F} `{PyFloat F} tok : float_syntax tok = true -> float tok = Ok (float_of_literal tok).
Proof. unfold float. by intros ->. Qed.

Lemma split_nonempty body l x : split body = x :: l -> body <> EmptyString.
Proof. by destruct body. Qed.

Lemma append_assoc (s t u : string) : (s +:+ t) +:+ u = s +:+ t +:+ u.
Proof. induction s as [|c s IH]; [done|]. rewrite !append_cons. by f_equal. Qed.

(** ** Geometry extraction *)

Section Geometry.
Context {F : Type} `{PyFloat F}.

#[local] Arguments Re.lit : simpl never.
#[local] Arguments Re.plus : simpl never.

Lemma box_pattern_tag icase ws body post :
  ws <> EmptyString -> all_chars is_space ws = true ->
  body <> EmptyString -> all_chars size_class body = true ->
  box_pattern icase ("<box" +:+ ws +:+ SIZE_EQ +:+ body +:+ QUOTE +:+ post) = Some body.
Proof.
  intros ? ? ? ?. unfold box_pattern.
  rewrite lit_app. simpl. rewrite plus_app by done. simpl.
  rewrite lit_app. simpl. rewrite plus_app by done. simpl.
  by rewrite lit_app.
Qed.

Lemma sphere_pattern_tag icase ws r post :
  ws <> EmptyString -> all_chars is_space ws = true ->
  r <> EmptyString -> all_chars number_class r = true ->
  sphere_pattern icase ("<sphere" +:+ ws +:+ RADIUS_EQ +:+ r +:+ QUOTE +:+ post) = Some r.
Proof.
  intros ? ? ? ?. unfold sphere_pattern.
  rewrite lit_app. simpl. rewrite plus_app by done. simpl.
  rewrite lit_app. simpl. rewrite plus_app by done. simpl.
  by rewrite lit_app.
Qed.

Lemma cylinder_pattern_tag icase ws1 ws2 r l post :
  ws1 <> EmptyString -> all_chars is_space ws1 = true ->
  ws2 <> EmptyString -> all_chars is_space ws2 = true ->
  r <> EmptyString -> all_chars number_class r = true ->
  l <> EmptyString -> all_chars number_class l = true ->
  cylinder_pattern icase
    ("<cylinder" +:+ ws1 +:+ RADIUS_EQ +:+ r +:+ QUOTE +:+ ws2 +:+ LENGTH_EQ +:+ l +:+ QUOTE +:+ post)
  = Some (r, l).
Proof.
  intros. unfold cylinder_pattern.
  rewrite lit_app. simpl. rewrite plus_app by done. simpl.
  rewrite lit_app. simpl. rewrite plus_app by done. simpl.
  rewrite lit_app. simpl. rewrite plus_app by done. simpl.
  rewrite lit_app. simpl. rewrite plus_app by done. simpl.
  by rewrite lit_app.
Qed.

Lemma box_le_shape icase s : shape_pattern icase s = None -> box_pattern icase s = None.
Proof. unfold shape_pattern. by destruct (box_pattern icase s). Qed.
Lemma cylinder_le_shape icase s : shape_pattern icase s = None -> cylinder_pattern icase s = None.
Proof.
  unfold shape_pattern.
  by destruct (box_pattern icase s), (cylinder_pattern icase s), (sphere_pattern icase s).
Qed.
Lemma sphere_le_shape icase s : shape_pattern icase s = None -> sphere_pattern icase s = None.
Proof.
  unfold shape_pattern.
  by destruct (box_pattern icase s), (cylinder_pattern icase s), (sphere_pattern icase s).
Qed.

(** C1, as amended.  In a fragment whose only shape tag is written the way
    the patterns read it (see [shape_tag]), geometry extraction returns the
    descriptor of that shape with the values of the literals in the tag. *)
Theorem geometry_round_trip (v : variant) (pre tag post : string) (g : geometry F) :
  shape_tag tag g ->
  shape_tags (ignorecase v) (pre +:+ tag +:+ post) = [String.length pre] ->
  parse_geometry v (pre +:+ tag +:+ post) = Ok g.
Proof.
  intros Htag Hpos. unfold shape_tags in Hpos. unfold parse_geometry.
  rewrite (search_single_position _ _ (box_le_shape _) _ _ Hpos).
  rewrite (search_single_position _ _ (cylinder_le_shape _) _ _ Hpos).
  rewrite (search_single_position _ _ (sphere_le_shape _) _ _ Hpos).
  rewrite drop_chars_app.
  destruct Htag as [ws body x y z ? ? ? Hsplit Hx Hy Hz
                   |ws1 ws2 r l ? ? ? ? ? Hr ? Hl
                   |ws r ? ? ? Hr].
  - rewrite !append_assoc. rewrite box_pattern_tag by eauto using split_nonempty.
    rewrite Hsplit. simpl. by rewrite !float_ok by done.
  - assert (box_pattern (ignorecase v) (("<cylinder" +:+ ws1 +:+ RADIUS_EQ +:+ r +:+ QUOTE +:+ ws2 +:+ LENGTH_EQ +:+ l +:+ QUOTE) +:+ post) = None) as ->.
    { by destruct v. }
    rewrite !append_assoc. rewrite cylinder_pattern_tag by eauto using float_syntax_nonempty.
    simpl. by rewrite !float_ok by done.
  - assert (box_pattern (ignorecase v) (("<sphere" +:+ ws +:+ RADIUS_EQ +:+ r +:+ QUOTE) +:+ post) = None) as ->.
    { by destruct v. }
    assert (cylinder_pattern (ignorecase v) (("<sphere" +:+ ws +:+ RADIUS_EQ +:+ r +:+ QUOTE) +:+ post) = None) as ->.
    { by destruct v. }
    rewrite !append_assoc. rewrite sphere_pattern_tag by eauto using float_syntax_nonempty.
    simpl. by rewrite !float_ok by done.
Qed.
End Geometry.

Lemma geometry_round_trip_witness :
  parse_geometry (F := Q) Embedded (py "<geometry><box size='0.4 0.4 0.1'/></geometry>")
  = Ok (Box [decimal_value "0.4"; decimal_value "0.4"; decimal_value "0.1"]).
Proof.
  apply (geometry_round_trip (F := Q) Embedded "<geometry>" (py "<box size='0.4 0.4 0.1'") "/></geometry>").
  - exact (box_tag " " "0.4 0.4 0.1" "0.4" "0.4" "0.1"
             ltac:(discriminate) eq_refl eq_refl eq_refl eq_refl eq_refl eq_refl).
  - vm_compute. reflexivity.
Defined.

(** ** Pose extraction and the structural parser *)

Lemma map_result_lookup {A B} (f : A -> result B) l ys i x :
  map_result f l = Ok ys -> l !! i = Some x -> exists y, ys !! i = Some y /\ f x = Ok y.
Proof.
  revert ys i. induction l as [|a l IH]; intros ys i Hm Hl; [done|].
  simpl in Hm. destruct (f a) as [y|] eqn:Hfa; [|done]. simpl in Hm.
  destruct (map_result f l) as [ys'|] eqn:Hml; [|done]. simpl in Hm.
  injection Hm as <-. destruct i as [|i]; simpl in *.
  - injection Hl as <-. eauto.
  - eauto.
Qed.

Lemma bind_Ok {A B} (a : A) (f : A -> result B) : (Ok a ≫= f) = f a.
Proof. reflexivity. Qed.

Section Poses.
Context {F : Type} `{PyFloat F}.

(** C3, as amended.  When the [xyz] attribute of the origin tag holds fewer
    than three numbers the translation is zero, and the rotation is still
    read from the [rpy] attribute of the tag: its first three numbers (in the
    generated script, zero when it holds fewer than three), zero when the
    attribute is absent. *)
Theorem short_xyz_keeps_rpy (v : variant) (content g1 : string) (g2 : option string) (xs : list F) :
  Re.search (origin_pattern (ignorecase v)) content = Some (g1, g2) ->
  map_result float (split g1) = Ok xs ->
  length xs < 3 ->
  match g2 with
  | None => parse_origin v content = Ok zero_pose
  | Some g2 =>
      forall rs : list F, map_result float (split g2) = Ok rs ->
      parse_origin v content =
      Ok (Pose zero3 (match v with
                      | Standalone => take 3 rs
                      | Embedded => if length rs <? 3 then zero3 else take 3 rs
                      end))
  end.
Proof.
  intros Hs Hxs Hlen. unfold parse_origin. rewrite Hs, Hxs.
  rewrite bind_Ok. apply Nat.ltb_lt in Hlen. rewrite Hlen.
  destruct g2 as [g2|]; [|reflexivity].
  intros rs ->. simpl. destruct v; [done|]. by destruct (length rs <? 3).
Qed.

(** C4, as amended.  When the size attribute of the box tag holds fewer
    than three numbers the box tag is passed over: the result is the default
    box when no cylinder and no sphere tag is found, and else the cylinder or
    the sphere. *)
Theorem short_box_falls_through (v : variant) (content body : string) (sizes : list F) :
  Re.search (box_pattern (ignorecase v)) content = Some body ->
  map_result float (split body) = Ok sizes ->
  length sizes < 3 ->
  let cylinder := Re.search (cylinder_pattern (ignorecase v)) content in
  let sphere := Re.search (sphere_pattern (ignorecase v)) content in
  (cylinder = None -> sphere = None -> parse_geometry v content = Ok default_box) /\
  (forall r l, cylinder = Some (r, l) ->
     parse_geometry v content = (radius ← float r; length ← float l; Ok (Cylinder radius length))) /\
  (forall r, cylinder = None -> sphere = Some r ->
     parse_geometry v content = (radius ← float r; Ok (Sphere radius))).
Proof.
  intros Hs Hsizes Hlen. unfold parse_geometry. rewrite Hs, Hsizes.
  rewrite bind_Ok.
  replace (3 <=? length sizes) with false by (symmetry; apply Nat.leb_gt; lia).
  repeat split.
  - by intros -> ->.
  - by intros r l ->.
  - by intros r -> ->.
Qed.

(** C10.  In the generated script, a link whose visual block has an origin
    with a zero translation gets the all-zero pose, whatever the rotation of
    that origin. *)
Theorem visual_origin_without_translation_discarded
  (doc : string) (m : model F) (i : nat) (name content visual_content : string) (o : pose F) :
  parse_urdf Embedded doc = Ok m ->
  Re.finditer link_pattern doc !! i = Some (name, content) ->
  Re.search visual_pattern content = Some visual_content ->
  parse_origin Embedded visual_content = Ok o ->
  list_float_eqb (xyz o) zero3 = true ->
  exists l, links m !! i = Some l /\ link_name l = name /\ link_origin l = zero_pose.
Proof.
  intros Hp Hi Hv Ho Hz. unfold parse_urdf in Hp.
  destruct doc as [|c doc]; [done|]. simpl in Hp.
  destruct (map_result embedded_link _) as [ls|] eqn:Hls; [|done]. simpl in Hp.
  destruct (joint_loop _ _) as [js|]; [|done]. simpl in Hp. injection Hp as <-.
  destruct (map_result_lookup _ _ _ _ _ Hls Hi) as (l & Hl & Hlink).
  exists l. split; [done|].
  unfold embedded_link in Hlink. rewrite Hv, Ho in Hlink. simpl in Hlink.
  rewrite Hz in Hlink. simpl in Hlink.
  destruct (parse_geometry Embedded visual_content); [|done].
  simpl in Hlink. by injection Hlink as <-.
Qed.

(** In [parse_urdf] every defective joint declaration, and no other, is
    missing from the joints. *)
Lemma joint_loop_length v ms (js : list (joint F)) :
  joint_loop v ms = Ok js ->
  length js + length (List.filter defective ms) = length ms.
Proof.
  revert js. induction ms as [|[name content] ms IH]; intros js Hjs; simpl in Hjs.
  - by injection Hjs as <-.
  - simpl. unfold defective at 1. simpl.
    destruct (Re.search parent_pattern content), (Re.search child_pattern content);
      try (simpl; rewrite <- (IH js Hjs); lia).
    destruct (parse_origin v content); [|done]. simpl in Hjs.
    destruct (joint_loop v ms) as [js'|]; [|done]. simpl in Hjs. injection Hjs as <-.
    simpl. by rewrite <- (IH js').
Qed.

Lemma parse_urdf_drops_defective_joints v doc (m : model F) :
  parse_urdf v doc = Ok m ->
  length (joints m) + length (List.filter defective (Re.finditer joint_pattern doc))
  = length (Re.finditer joint_pattern doc).
Proof.
  unfold parse_urdf. destruct (is_empty doc) eqn:He.
  - destruct doc; [|done]. by intros [= <-].
  - destruct (map_result _ _); [|done]. simpl.
    destruct (joint_loop _ _) as [js|] eqn:Hjs; [|done]. simpl. intros [= <-].
    by apply (joint_loop_length v).
Qed.

(** C2: the code at the failing inputs.  A number that the pattern lets
    through and [float] rejects makes geometry extraction, pose extraction
    and [parse_urdf] raise; the size summary of [analyze_urdf] catches the
    same failure. *)
Theorem malformed_number_raises (v : variant) :
  parse_geometry (F := F) v (py "<box size='.'/>") = ValueError /\
  parse_origin (F := F) v (py "<origin xyz='0 - 0'/>") = ValueError /\
  parse_urdf (F := F) v (py "<robot><link name='base'><visual><geometry><box size='1 . 1'/></geometry></visual></link></robot>") = ValueError /\
  analyze_urdf_size (F := F) (py "<box size='.'/>") = None.
Proof. by destruct v. Qed.

End Poses.

(** C3 fails: the rotation of an origin with a short [xyz] is kept. *)
Lemma short_xyz_rotation_kept :
  parse_origin (F := Q) Standalone (py "<origin xyz='1 2' rpy='0.1 0.2 0.3'/>")
  = Ok (Pose [0; 0; 0] [1 # 10; 1 # 5; 3 # 10])%Q /\
  parse_origin (F := Q) Standalone (py "<origin xyz='1 2' rpy='0.1 0.2 0.3'/>") <> Ok zero_pose /\
  parse_origin (F := Q) Embedded (py "<origin xyz='1 2' rpy='0.1 0.2 0.3'/>") <> Ok zero_pose.
Proof. repeat split; vm_compute; discriminate. Qed.

Lemma short_xyz_keeps_rpy_witness :
  parse_origin (F := Q) Standalone (py "<origin xyz='1 2' rpy='0.1 0.2 0.3'/>")
  = Ok (Pose zero3 (take 3 [1 # 10; 1 # 5; 3 # 10]%Q)).
Proof.
  apply (short_xyz_keeps_rpy (F := Q) Standalone
           (py "<origin xyz='1 2' rpy='0.1 0.2 0.3'/>") "1 2" (Some "0.1 0.2 0.3") [1; 2]%Q).
  - vm_compute. reflexivity.
  - vm_compute. reflexivity.
  - simpl. lia.
  - vm_compute. reflexivity.
Defined.

(** C4 fails: after a box of two numbers the sphere of the fragment is
    returned. *)
Lemma short_box_sphere_returned :
  Re.search (box_pattern false) (py "<box size='1 2'/><sphere radius='0.5'/>") = Some "1 2" /\
  parse_geometry (F := Q) Standalone (py "<box size='1 2'/><sphere radius='0.5'/>") = Ok (Sphere (1 # 2)) /\
  parse_geometry (F := Q) Standalone (py "<box size='1 2'/><sphere radius='0.5'/>") <> Ok default_box.
Proof. repeat split; vm_compute; discriminate. Qed.

Lemma short_box_falls_through_witness :
  parse_geometry (F := Q) Standalone (py "<box size='1 2'/><sphere radius='0.5'/>")
  = (radius ← float "0.5"; Ok (Sphere radius)).
Proof.
  destruct (short_box_falls_through (F := Q) Standalone
              (py "<box size='1 2'/><sphere radius='0.5'/>") "1 2" [1; 2]%Q) as (_ & _ & Hsphere).
  - vm_compute. reflexivity.
  - vm_compute. reflexivity.
  - simpl. lia.
  - apply Hsphere; vm_compute; reflexivity.
Defined.

(** C1 fails: a cylinder tag that gives the length before the radius, and a
    box tag with a size in exponent notation, are not found. *)
Lemma cylinder_with_length_first_not_found :
  parse_geometry (F := Q) Standalone (py "<cylinder length='0.6' radius='0.2'/>") = Ok default_box /\
  parse_geometry (F := Q) Embedded (py "<cylinder length='0.6' radius='0.2'/>") = Ok default_box /\
  parse_geometry (F := Q) Standalone (py "<cylinder length='0.6' radius='0.2'/>")
  <> Ok (Cylinder (float_of_literal "0.2") (float_of_literal "0.6")) /\
  parse_geometry (F := Q) Standalone (py "<box size='5e-1 2 3'/>") = Ok default_box.
Proof. repeat split; vm_compute; discriminate. Qed.

(** C8: the code at the failing input.  [parse_urdf_structure] keeps the
    joint [j1], which has no parent tag, with the parent and the child of the
    next joint, and loses [j2]; [parse_urdf] drops [j1] and keeps [j2].  A
    joint whose child tag comes before its parent tag is lost as well. *)
Theorem structure_keeps_defective_joint :
  Re.finditer joint_pattern two_joints
  = [("j1", py " type='fixed'><child link='b'/>");
     ("j2", py " type='fixed'><parent link='a'/><child link='c'/>")] /\
  List.filter defective (Re.finditer joint_pattern two_joints)
  = [("j1", py " type='fixed'><child link='b'/>")] /\
  s_joints (parse_urdf_structure two_joints) = [Edge "j1" "a" "c"] /\
  joints <$> parse_urdf (F := Q) Standalone two_joints = Ok [Joint None "a" "c" zero_pose] /\
  s_joints (parse_urdf_structure (py "<joint name='j'><child link='b'/><parent link='a'/></joint>")) = [].
Proof. repeat split; vm_compute; reflexivity. Qed.

Lemma visual_origin_without_translation_discarded_witness :
  exists l, (links (Model (F := Q) [Link "arm" (Sphere (1 # 5)) zero_pose "default"] []) !! 0 = Some l)
            /\ link_name l = "arm" /\ link_origin l = zero_pose.
Proof.
  apply (visual_origin_without_translation_discarded (F := Q) rotated_visual _ 0 "arm"
           (py "><visual><origin xyz='0 0 0' rpy='0 1.57 0'/><geometry><sphere radius='0.2'/></geometry></visual>")
           (py "<origin xyz='0 0 0' rpy='0 1.57 0'/><geometry><sphere radius='0.2'/></geometry>")
           (Pose [0%Q; 0%Q; 0%Q] [0%Q; 157 # 100; 0%Q])); vm_compute; reflexivity.
Defined.

(** ** Hierarchy *)

(** Every node of the dict carries the depth of its first visit. *)
Definition depth_inv (st : hstate) : Prop :=
  forall n, depth <$> (hierarchy st !! n) = first_visit n (visits st).

Lemma first_visit_app_seen n log v d :
  first_visit n log = Some d -> first_visit n (log ++ [v]) = Some d.
Proof.
  unfold first_visit. rewrite filter_app.
  destruct (filter _ log); [done|]. done.
Qed.

Lemma first_visit_app_fresh n log d :
  first_visit n log = None -> first_visit n (log ++ [(n, d)]) = Some d.
Proof.
  unfold first_visit. rewrite filter_app.
  destruct (filter _ log); [|done]. intros _.
  rewrite filter_cons. simpl. by case_decide.
Qed.

Lemma first_visit_app_other n log n' d :
  n' <> n -> first_visit n (log ++ [(n', d)]) = first_visit n log.
Proof.
  intros Hne. unfold first_visit. rewrite filter_app, filter_cons. simpl.
  case_decide; [done|]. by rewrite filter_nil, app_nil_r.
Qed.

Lemma depth_inv_visit st node d :
  depth_inv st ->
  depth_inv (HState (match hierarchy st !! node with
                     | Some _ => hierarchy st
                     | None => <[node := HNode d []]> (hierarchy st)
                     end) (visits st ++ [(node, d)])).
Proof.
  intros Hinv n. simpl. specialize (Hinv n).
  destruct (decide (node = n)) as [->|Hne].
  - destruct (hierarchy st !! n) as [info|] eqn:Hn.
    + rewrite Hn. simpl in *. symmetry. by apply first_visit_app_seen.
    + rewrite lookup_insert_eq. simpl in *. symmetry. by apply first_visit_app_fresh.
  - rewrite first_visit_app_other by done.
    destruct (hierarchy st !! node); [done|]. by rewrite lookup_insert_ne.
Qed.

Lemma depth_inv_append_child st node child :
  depth_inv st ->
  depth_inv (HState (alter (append_child child) node (hierarchy st)) (visits st)).
Proof.
  intros Hinv n. simpl. rewrite <- Hinv, lookup_alter.
  case_decide; [|done]. subst. by destruct (hierarchy st !! n).
Qed.

Lemma build_hierarchy_depth_inv fuel joints node d st :
  depth_inv st -> depth_inv (build_hierarchy fuel joints node d st).
Proof.
  revert node d st. induction fuel as [|fuel IH]; intros node d st Hinv; [done|].
  simpl. destruct (10 <? d); [done|].
  generalize joints at 2. intros js.
  apply (depth_inv_visit _ node d) in Hinv. revert Hinv.
  generalize (HState (match hierarchy st !! node with
                     | Some _ => hierarchy st
                     | None => <[node := HNode d []]> (hierarchy st)
                     end) (visits st ++ [(node, d)])).
  induction js as [|j js IHjs]; intros st' Hinv; [done|].
  simpl. apply IHjs. destruct (String.eqb (edge_parent j) node); [|done].
  by apply IH, depth_inv_append_child.
Qed.

(** C7, as amended.  The depth recorded for a link is the depth of its
    first visit. *)
Theorem first_visit_depth_recorded (links : list string) (joints : list edge) (node : string) (info : hnode) :
  hierarchy (build_all links joints) !! node = Some info ->
  first_visit node (visits (build_all links joints)) = Some (depth info).
Proof.
  intros Hn.
  assert (depth_inv (build_all links joints)) as Hinv.
  { unfold build_all. generalize (root_nodes links joints). intros roots.
    assert (depth_inv (HState ∅ [])) as H0 by done.
    revert H0. generalize (HState ∅ []).
    induction roots as [|r roots IH]; intros st Hst; [done|].
    cbn [foldl]. by apply IH, build_hierarchy_depth_inv. }
  by rewrite <- Hinv, Hn.
Qed.

Lemma first_visit_depth_recorded_witness :
  first_visit "C" (visits (build_all ["A"; "B"; "C"] diamond)) = Some 2.
Proof.
  apply (first_visit_depth_recorded ["A"; "B"; "C"] diamond "C" (HNode 2 [])).
  vm_compute. reflexivity.
Defined.

(** C7 fails: [C] is visited at depth 2 and then at depth 1, and keeps
    depth 2. *)
Lemma last_visit_depth_not_recorded :
  visits (build_all ["A"; "B"; "C"] diamond) = [("A", 0); ("B", 1); ("C", 2); ("C", 1)] /\
  last_visit "C" (visits (build_all ["A"; "B"; "C"] diamond)) = Some 1 /\
  depth <$> hierarchy (build_all ["A"; "B"; "C"] diamond) !! "C" = Some 2 /\
  depth <$> hierarchy (build_all ["A"; "B"; "C"] diamond) !! "C"
  <> last_visit "C" (visits (build_all ["A"; "B"; "C"] diamond)).
Proof. repeat split; vm_compute; congruence. Qed.

(** The guard [depth > 10] ends the recursion before the fuel does. *)
Lemma build_hierarchy_fuel fuel fuel' joints node d st :
  11 < fuel + d -> 11 < fuel' + d ->
  build_hierarchy fuel joints node d st = build_hierarchy fuel' joints node d st.
Proof.
  revert fuel' node d st. induction fuel as [|fuel IH]; intros fuel' node d st H1 H2.
  - destruct fuel'; [done|]. simpl.
    by replace (10 <? d) with true by (symmetry; apply Nat.ltb_lt; lia).
  - destruct fuel' as [|fuel'].
    + simpl. by replace (10 <? d) with true by (symmetry; apply Nat.ltb_lt; lia).
    + simpl. destruct (10 <? d); [done|].
      generalize joints at 2 4. intros js.
      generalize (HState (match hierarchy st !! node with
                     | Some _ => hierarchy st
                     | None => <[node := HNode d []]> (hierarchy st)
                     end) (visits st ++ [(node, d)])).
      induction js as [|j js IHjs]; intros st'; [done|].
      simpl. rewrite (IH fuel') by lia. apply IHjs.
Qed.

(** ** Change analysis: counts and classification *)

Lemma added_not_removed line : is_added line = true -> is_removed line = false.
Proof.
  unfold is_added, is_removed, startswith. destruct line as [|c line]; [done|].
  cbn [Re.lit Re.chr]. destruct (Ascii.eqb_spec "+" c) as [<-|]; [done|discriminate].
Qed.

Lemma changed_lines_cons line diff :
  changed_lines (line :: diff) = option_list (change_of line) ++ changed_lines diff.
Proof. unfold changed_lines. simpl. destruct (change_of line); reflexivity. Qed.

Lemma filter_length_cons {A} (f : A -> bool) x l :
  length (List.filter f (x :: l)) = (if f x then 1 else 0) + length (List.filter f l).
Proof. simpl. by destruct (f x). Qed.

Lemma count_line_spec ch line :
  added_lines (count_line ch line) = added_lines ch + (if is_added line then 1 else 0) /\
  removed_lines (count_line ch line) = removed_lines ch + (if is_removed line then 1 else 0) /\
  line_changes (count_line ch line) = line_changes ch ++ option_list (change_of line) /\
  changes_by_type (count_line ch line) = changes_by_type ch.
Proof.
  unfold count_line, change_of. fold (is_added line). fold (is_removed line).
  destruct (is_added line) eqn:Ha.
  - rewrite (added_not_removed _ Ha).
    cbn [added_lines removed_lines line_changes changes_by_type option_list].
    repeat split; lia.
  - destruct (is_removed line) eqn:Hr.
    + cbn [added_lines removed_lines line_changes changes_by_type option_list].
      repeat split; lia.
    + destruct (startswith "  " line), (startswith "? " line);
        cbn [added_lines removed_lines line_changes changes_by_type option_list];
        rewrite app_nil_r; repeat split; lia.
Qed.

Lemma count_lines_spec diff ch :
  added_lines (foldl count_line ch diff) = added_lines ch + length (List.filter is_added diff) /\
  removed_lines (foldl count_line ch diff) = removed_lines ch + length (List.filter is_removed diff) /\
  line_changes (foldl count_line ch diff) = line_changes ch ++ changed_lines diff /\
  changes_by_type (foldl count_line ch diff) = changes_by_type ch.
Proof.
  revert ch. induction diff as [|line diff IH]; intros ch.
  - simpl. rewrite app_nil_r. repeat split; lia.
  - cbn [foldl]. destruct (IH (count_line ch line)) as (-> & -> & -> & ->).
    destruct (count_line_spec ch line) as (-> & -> & -> & ->).
    rewrite changed_lines_cons, !filter_length_cons, <- app_assoc.
    repeat split; lia.
Qed.

Lemma counter_total_incr key counter :
  counter_total (incr key counter) = S (counter_total counter).
Proof.
  unfold incr, counter_total.
  destruct (counter !! key) as [n|] eqn:Hk; simpl.
  - rewrite (map_fold_delete_L _ _ key n counter); [|intros; lia|done].
    rewrite <- insert_delete_eq.
    rewrite map_fold_insert_L; [lia|intros; lia|apply lookup_delete_eq].
  - rewrite map_fold_insert_L; [lia|intros; lia|done].
Qed.

Lemma counter_total_classify l counter :
  counter_total (foldl classify counter l) <= counter_total counter + length l.
Proof.
  revert counter. induction l as [|x l IH]; intros counter; simpl; [lia|].
  etrans; [apply IH|]. unfold classify.
  destruct (element_kind x.2); [rewrite counter_total_incr|]; lia.
Qed.

Lemma added_removed_changed diff :
  length (List.filter is_added diff) + length (List.filter is_removed diff)
  = length (changed_lines diff).
Proof.
  induction diff as [|line diff IH]; [done|].
  rewrite changed_lines_cons, !filter_length_cons, length_app, <- IH.
  unfold change_of. destruct (is_added line) eqn:Ha.
  - rewrite (added_not_removed _ Ha). simpl. lia.
  - destruct (is_removed line); simpl; lia.
Qed.

(** C9.  The mapping is computed from the first 100 added or removed lines
    of the diff and so counts at most 100 lines; the totals count every
    added and every removed line. *)
Theorem classification_stops_at_100 (old_content new_content : string) (r : changes) :
  analyze_code_changes old_content new_content = Some r ->
  let diff := Difflib.ndiff (splitlines old_content) (splitlines new_content) in
  line_changes r = changed_lines diff /\
  changes_by_type r = foldl classify ∅ (take 100 (changed_lines diff)) /\
  counter_total (changes_by_type r) <= 100 /\
  added_lines r = length (List.filter is_added diff) /\
  removed_lines r = length (List.filter is_removed diff) /\
  added_lines r + removed_lines r = length (changed_lines diff).
Proof.
  unfold analyze_code_changes. destruct (_ || _); [done|]. intros [= <-].
  cbv zeta. generalize (Difflib.ndiff (splitlines old_content) (splitlines new_content)).
  intros diff. unfold analyze_diff.
  cbn [added_lines removed_lines line_changes changes_by_type].
  destruct (count_lines_spec diff (Changes 0 0 0 0 ∅ [])) as (-> & -> & -> & ->).
  cbn [added_lines removed_lines line_changes changes_by_type app].
  repeat split.
  - etrans; [apply counter_total_classify|].
    unfold counter_total. rewrite map_fold_empty, length_take. lia.
  - apply added_removed_changed.
Qed.

(** ** [find_longest_match] stays in its window *)

Section Bounds.
Context {A : Type} `{Countable A}.
Variable isjunk : A -> bool.
Variables a b : list A.

(** What [j2len] holds after a row: lengths of runs that fit in the rows
    and the columns read so far. *)
Definition row_bound (blo n : nat) (j2len : gmap nat nat) : Prop :=
  forall j v, j2len !! j = Some v -> blo <= j /\ v <= n /\ v <= S j - blo.

Definition best_in (alo ahi blo bhi : nat) (st : scan) : Prop :=
  in_window alo ahi blo bhi (besti st, bestj st, bestsize st).

Lemma scan_row_bounds j2len alo ahi blo bhi i js st :
  alo <= i -> S i <= ahi ->
  row_bound blo (i - alo) j2len ->
  row_bound blo (S i - alo) (newj2len st) -> best_in alo ahi blo bhi st ->
  row_bound blo (S i - alo) (newj2len (scan_row j2len blo bhi i js st)) /\
  best_in alo ahi blo bhi (scan_row j2len blo bhi i js st).
Proof.
  intros Hi Hahi Hprev. revert st. induction js as [|j js IH]; intros st Hnew Hbest; [done|].
  simpl. destruct (j <? blo) eqn:Hjlo; [by apply IH|].
  destruct (bhi <=? j) eqn:Hjhi; [done|].
  apply Nat.ltb_ge in Hjlo. apply Nat.leb_gt in Hjhi.
  set (k := match j with 0 => 0 | S j' => default 0 (j2len !! j') end + 1).
  assert (k <= S i - alo /\ k <= S j - blo /\ 1 <= k) as (Hk1 & Hk2 & Hk3).
  { unfold k. destruct j as [|j']; [lia|].
    destruct (j2len !! j') as [v|] eqn:Hv; simpl; [|lia].
    destruct (Hprev _ _ Hv) as (? & ? & ?). lia. }
  assert (row_bound blo (S i - alo) (<[j:=k]> (newj2len st))) as Hnew'.
  { intros j0 v. rewrite lookup_insert. case_decide.
    - intros [= <-]. subst. lia.
    - apply Hnew. }
  apply IH; destruct (bestsize st <? k); simpl; try done.
  unfold best_in, in_window. simpl. lia.
Qed.

Lemma scan_rows_bounds b2j alo ahi blo bhi :
  alo <= ahi -> blo <= bhi -> best_in alo ahi blo bhi (scan_rows a b2j alo ahi blo bhi).
Proof.
  intros Ha Hb. unfold scan_rows.
  assert (forall m i0 st, alo <= i0 -> i0 + m <= ahi ->
            row_bound blo (i0 - alo) (newj2len st) -> best_in alo ahi blo bhi st ->
            best_in alo ahi blo bhi
              (foldl (fun st i =>
                        scan_row (newj2len st) blo bhi i (default [] (x ← a !! i; b2j !! x))
                                 (Scan ∅ (besti st) (bestj st) (bestsize st)))
                     st (seq i0 m))) as Hfold.
  { induction m as [|m IH]; intros i0 st Hi0 Hm Hrow Hbest; [done|].
    simpl. apply IH; [lia|lia| |].
    - apply (scan_row_bounds _ alo ahi); try done; try lia.
    - apply (scan_row_bounds _ alo ahi); try done; try lia. }
  apply Hfold; [done|lia|done|].
  unfold best_in, in_window. simpl. lia.
Qed.

Lemma extend_left_bounds junk alo ahi blo bhi bi bj bs :
  in_window alo ahi blo bhi (bi, bj, bs) ->
  in_window alo ahi blo bhi (extend_left isjunk a b junk alo blo bi bj bs).
Proof.
  revert bj bs. induction bi as [|bi IH]; intros bj bs Hw; [done|].
  simpl. destruct bj as [|bj]; [done|].
  destruct (_ && _) eqn:Hc; [|done].
  apply IH. apply andb_prop in Hc as [Hc _]. apply andb_prop in Hc as [H1 H2].
  apply Nat.ltb_lt in H1, H2. unfold in_window in *. lia.
Qed.

Lemma extend_right_bounds junk alo ahi blo bhi n bi bj bs :
  in_window alo ahi blo bhi (bi, bj, bs) ->
  in_window alo ahi blo bhi (extend_right isjunk a b junk ahi bhi n bi bj bs).
Proof.
  revert bs. induction n as [|n IH]; intros bs Hw; [done|].
  simpl. destruct (_ && _) eqn:Hc; [|done].
  apply IH. apply andb_prop in Hc as [Hc _]. apply andb_prop in Hc as [H1 H2].
  apply Nat.ltb_lt in H1, H2. unfold in_window in *. lia.
Qed.

Lemma find_longest_match_bounds alo ahi blo bhi :
  alo <= ahi -> blo <= bhi ->
  in_window alo ahi blo bhi (find_longest_match isjunk a b alo ahi blo bhi).
Proof.
  intros Ha Hb. unfold find_longest_match.
  pose proof (scan_rows_bounds (chain_b isjunk b) alo ahi blo bhi Ha Hb) as H0.
  unfold best_in in H0.
  apply (extend_left_bounds false) in H0.
  destruct (extend_left _ _ _ false _ _ _ _ _) as [[bi bj] bs].
  apply (extend_right_bounds false alo ahi blo bhi (ahi - (bi + bs))) in H0.
  destruct (extend_right _ _ _ false _ _ _ _ _ _) as [[bi1 bj1] bs1].
  apply (extend_left_bounds true) in H0.
  destruct (extend_left _ _ _ true _ _ _ _ _) as [[bi2 bj2] bs2].
  by apply extend_right_bounds.
Qed.

End Bounds.

(** ** [Differ.compare] yields every line of both texts once *)

Lemma count_app {X} (f : X -> bool) l1 l2 : count f (l1 ++ l2) = count f l1 + count f l2.
Proof. unfold count. by rewrite List.filter_app, length_app. Qed.

Lemma count_cons {X} (f : X -> bool) x l :
  count f (x :: l) = (if f x then 1 else 0) + count f l.
Proof. apply filter_length_cons. Qed.

Lemma count_fmap_const {X Y} (f : Y -> bool) (g : X -> Y) (c : bool) l :
  (forall x, f (g x) = c) -> count f (g <$> l) = if c then length l else 0.
Proof.
  intros Hc. induction l as [|x l IH]; [by destruct c|].
  rewrite fmap_cons, count_cons, Hc, IH. by destruct c.
Qed.

Lemma dump_length tag (x : list string) lo hi :
  lo <= hi -> hi <= length x -> length (dump tag x lo hi) = hi - lo.
Proof. intros. unfold dump. rewrite length_fmap, length_take, length_drop. lia. Qed.

Lemma dump_minus_counts x lo hi :
  lo <= hi -> hi <= length x ->
  count of_old (dump "-" x lo hi) = hi - lo /\ count of_new (dump "-" x lo hi) = 0.
Proof.
  intros. unfold dump. rewrite (count_fmap_const of_old _ true), (count_fmap_const of_new _ false) by done.
  rewrite length_take, length_drop. lia.
Qed.

Lemma dump_plus_counts x lo hi :
  lo <= hi -> hi <= length x ->
  count of_old (dump "+" x lo hi) = 0 /\ count of_new (dump "+" x lo hi) = hi - lo.
Proof.
  intros. unfold dump. rewrite (count_fmap_const of_old _ false), (count_fmap_const of_new _ true) by done.
  rewrite length_take, length_drop. lia.
Qed.

Lemma dump_equal_counts x lo hi :
  lo <= hi -> hi <= length x ->
  count of_old (dump " " x lo hi) = hi - lo /\ count of_new (dump " " x lo hi) = hi - lo.
Proof.
  intros. unfold dump. rewrite (count_fmap_const of_old _ true), (count_fmap_const of_new _ true) by done.
  rewrite length_take, length_drop. lia.
Qed.

Lemma plain_replace_counts a alo ahi b blo bhi :
  alo <= ahi -> ahi <= length a -> blo <= bhi -> bhi <= length b ->
  count of_old (plain_replace a alo ahi b blo bhi) = ahi - alo /\
  count of_new (plain_replace a alo ahi b blo bhi) = bhi - blo.
Proof.
  intros. unfold plain_replace.
  destruct (dump_minus_counts a alo ahi) as [? ?]; [done..|].
  destruct (dump_plus_counts b blo bhi) as [? ?]; [done..|].
  destruct (_ <? _); rewrite !count_app; lia.
Qed.

Lemma qformat_counts aline bline atags btags :
  count of_old (qformat aline bline atags btags) = 1 /\
  count of_new (qformat aline bline atags btags) = 1.
Proof.
  unfold qformat.
  by destruct (is_empty (rstrip (keep_original_ws aline atags))),
             (is_empty (rstrip (keep_original_ws bline btags))).
Qed.

(** The indices that the search loops of [_fancy_replace] leave lie in the
    two ranges. *)
Definition pick_in (alo ahi blo bhi : nat) (st : pick) : Prop :=
  (forall i j, best_ij st = Some (i, j) -> alo <= i < ahi /\ blo <= j < bhi) /\
  (forall i j, eq_ij st = Some (i, j) -> alo <= i < ahi /\ blo <= j < bhi).

Lemma foldl_seq_inv {S} (P : S -> Prop) (f : S -> nat -> S) lo n st :
  P st -> (forall st i, lo <= i < lo + n -> P st -> P (f st i)) -> P (foldl f st (seq lo n)).
Proof.
  revert lo st. induction n as [|n IH]; intros lo st Hst Hf; [done|].
  simpl. apply IH; [apply Hf; [lia|done]|]. intros. apply Hf; [lia|done].
Qed.

Lemma fancy_pick_in a alo ahi b blo bhi :
  pick_in alo ahi blo bhi (fancy_pick a alo ahi b blo bhi).
Proof.
  unfold fancy_pick. apply foldl_seq_inv; [split; simpl; intros; discriminate|].
  intros st j Hj Hst. apply foldl_seq_inv; [done|].
  clear st Hst. intros st i Hi Hst.
  destruct (a !! i) as [ai|]; [|exact Hst]. destruct (b !! j) as [bj|]; [|exact Hst].
  destruct (String.eqb ai bj).
  - destruct (eq_ij st) eqn:Heq; [exact Hst|]. destruct Hst as [Hb He].
    split; [exact Hb|]. simpl. intros ? ? [= <- <-]. lia.
  - destruct (_ && _); [|exact Hst]. destruct Hst as [Hb He].
    split; [|exact He]. simpl. intros ? ? [= <- <-]. lia.
Qed.

Lemma fancy_replace_counts a b fuel alo ahi blo bhi :
  ahi - alo < fuel -> alo < ahi -> ahi <= length a -> blo < bhi -> bhi <= length b ->
  count of_old (fancy_replace fuel a alo ahi b blo bhi) = ahi - alo /\
  count of_new (fancy_replace fuel a alo ahi b blo bhi) = bhi - blo.
Proof.
  revert alo ahi blo bhi. induction fuel as [|fuel IH]; intros alo ahi blo bhi Hfuel Ha Hla Hb Hlb; [lia|].
  cbn [fancy_replace].
  assert (forall lo hi lo' hi', lo <= hi -> hi <= length a -> lo' <= hi' -> hi' <= length b ->
            hi - lo < fuel \/ lo' = hi' ->
            count of_old (if lo <? hi
                          then (if lo' <? hi' then fancy_replace fuel a lo hi b lo' hi'
                                else dump "-" a lo hi)
                          else if lo' <? hi' then dump "+" b lo' hi' else []) = hi - lo /\
            count of_new (if lo <? hi
                          then (if lo' <? hi' then fancy_replace fuel a lo hi b lo' hi'
                                else dump "-" a lo hi)
                          else if lo' <? hi' then dump "+" b lo' hi' else []) = hi' - lo') as Hhelper.
  { intros lo hi lo' hi' ? ? ? ? Hf.
    destruct (lo <? hi) eqn:Hlt1; [apply Nat.ltb_lt in Hlt1|apply Nat.ltb_ge in Hlt1];
      (destruct (lo' <? hi') eqn:Hlt2; [apply Nat.ltb_lt in Hlt2|apply Nat.ltb_ge in Hlt2]).
    - apply IH; lia.
    - destruct (dump_minus_counts a lo hi); [lia..|]. lia.
    - destruct (dump_plus_counts b lo' hi'); [lia..|]. lia.
    - unfold count. simpl. lia. }
  destruct (fancy_pick_in a alo ahi b blo bhi) as [Hbest Heq].
  destruct (fancy_pick a alo ahi b blo bhi) as [r bij eij]. simpl in *.
  assert (forall best_i best_j (identical : bool),
            alo <= best_i < ahi -> blo <= best_j < bhi ->
            forall sync, count of_old sync = 1 -> count of_new sync = 1 ->
            forall l1 l2,
            count of_old l1 = best_i - alo -> count of_new l1 = best_j - blo ->
            count of_old l2 = ahi - (best_i + 1) -> count of_new l2 = bhi - (best_j + 1) ->
            count of_old (l1 ++ sync ++ l2) = ahi - alo /\
            count of_new (l1 ++ sync ++ l2) = bhi - blo) as Hsum.
  { intros. rewrite !count_app. lia. }
  assert (forall best_i best_j (identical : bool),
            alo <= best_i < ahi -> blo <= best_j < bhi ->
            count of_old ((if alo <? best_i
                          then (if blo <? best_j then fancy_replace fuel a alo best_i b blo best_j
                                else dump "-" a alo best_i)
                          else if blo <? best_j then dump "+" b blo best_j else []) ++
                          (if identical then ["  " +:+ default EmptyString (a !! best_i)]
                           else let '(atags, btags) := intraline_tags (default EmptyString (a !! best_i)) (default EmptyString (b !! best_j)) in
                                qformat (default EmptyString (a !! best_i)) (default EmptyString (b !! best_j)) atags btags) ++
                          (if best_i + 1 <? ahi
                          then (if best_j + 1 <? bhi then fancy_replace fuel a (best_i + 1) ahi b (best_j + 1) bhi
                                else dump "-" a (best_i + 1) ahi)
                          else if best_j + 1 <? bhi then dump "+" b (best_j + 1) bhi else [])) = ahi - alo /\
            count of_new ((if alo <? best_i
                          then (if blo <? best_j then fancy_replace fuel a alo best_i b blo best_j
                                else dump "-" a alo best_i)
                          else if blo <? best_j then dump "+" b blo best_j else []) ++
                          (if identical then ["  " +:+ default EmptyString (a !! best_i)]
                           else let '(atags, btags) := intraline_tags (default EmptyString (a !! best_i)) (default EmptyString (b !! best_j)) in
                                qformat (default EmptyString (a !! best_i)) (default EmptyString (b !! best_j)) atags btags) ++
                          (if best_i + 1 <? ahi
                          then (if best_j + 1 <? bhi then fancy_replace fuel a (best_i + 1) ahi b (best_j + 1) bhi
                                else dump "-" a (best_i + 1) ahi)
                          else if best_j + 1 <? bhi then dump "+" b (best_j + 1) bhi else [])) = bhi - blo) as Hsynch.
  { intros best_i best_j identical Hi Hj.
    apply (Hsum best_i best_j identical Hi Hj).
    - destruct identical; [done|]. destruct (intraline_tags _ _). apply qformat_counts.
    - destruct identical; [done|]. destruct (intraline_tags _ _). apply qformat_counts.
    - apply Hhelper; lia.
    - apply Hhelper; lia.
    - apply Hhelper; lia.
    - apply Hhelper; lia. }
  destruct (Qltb r (75 # 100)).
  - destruct eij as [[eqi eqj]|].
    + destruct (Heq _ _ eq_refl). by apply (Hsynch eqi eqj true).
    + apply plain_replace_counts; lia.
  - destruct bij as [[best_i best_j]|].
    + destruct (Hbest _ _ eq_refl). by apply (Hsynch best_i best_j false).
    + apply plain_replace_counts; lia.
Qed.

(** ** The matching blocks do not overlap *)

Lemma pairwise_app {X} (R : X -> X -> Prop) l1 l2 :
  pairwise R (l1 ++ l2) <->
  pairwise R l1 /\ pairwise R l2 /\ Forall (fun x => Forall (R x) l2) l1.
Proof.
  induction l1 as [|x l1 IH]; simpl.
  - split; [by intros; repeat split|by intros (_ & ? & _)].
  - rewrite Forall_app, IH, Forall_cons. tauto.
Qed.

Lemma pairwise_Permutation {X} (R : X -> X -> Prop) l1 l2 :
  (forall x y, R x y -> R y x) -> l1 ≡ₚ l2 -> pairwise R l1 -> pairwise R l2.
Proof.
  intros Hsym Hp. induction Hp as [|x l1 l2 Hp IH|x y l|l1 l2 l3 ? IH1 ? IH2]; simpl.
  - done.
  - intros [Hx Hl]. split; [by rewrite <- Hp|by apply IH].
  - intros [Hy [Hx Hl]]. apply Forall_cons in Hy as [Hyx Hy].
    repeat split; [apply Forall_cons; split; [by apply Hsym|done]|done..].
  - intros. by apply IH2, IH1.
Qed.

Lemma apart_sym r1 r2 : apart r1 r2 -> apart r2 r1.
Proof. unfold apart. tauto. Qed.

Lemma apart_within r0 r y : within r0 r -> apart r0 y -> apart r y.
Proof.
  destruct r0 as [[[alo0 ahi0] blo0] bhi0], r as [[[alo ahi] blo] bhi],
    y as [[[alo' ahi'] blo'] bhi'].
  unfold within, apart, before. lia.
Qed.

Section Blocks.
Context {A : Type} `{Countable A}.
Variable isjunk : A -> bool.
Variables a b : list A.

(** A block of the loop: not empty, inside both sequences. *)
Definition good_block (x : block) : Prop :=
  0 < x.2 /\ in_window 0 (length a) 0 (length b) x.

(** The queue entries and the blocks found so far lie apart from one
    another. *)
Definition loop_inv (queue : list rect) (matching_blocks : list block) : Prop :=
  pairwise apart (queue ++ (rect_of <$> matching_blocks)) /\
  Forall (within (0, length a, 0, length b)) queue /\
  Forall good_block matching_blocks.

Lemma blocks_loop_inv fuel queue matching_blocks :
  loop_inv queue matching_blocks ->
  pairwise apart (rect_of <$> blocks_loop isjunk a b fuel queue matching_blocks) /\
  Forall good_block (blocks_loop isjunk a b fuel queue matching_blocks).
Proof.
  revert queue matching_blocks.
  induction fuel as [|fuel IH]; intros queue bs (Hpw & Hq & Hbs).
  { simpl. apply pairwise_app in Hpw as (_ & ? & _). done. }
  destruct queue as [|[[[alo ahi] blo] bhi] queue].
  { simpl. by split. }
  cbn [blocks_loop].
  apply Forall_cons in Hq as [Hr Hq]. simpl in Hpw. destruct Hpw as [Hhead Hrest].
  assert (alo <= ahi /\ ahi <= length a /\ blo <= bhi /\ bhi <= length b) as (? & ? & ? & ?).
  { unfold within in Hr. lia. }
  pose proof (find_longest_match_bounds isjunk a b alo ahi blo bhi) as Hw.
  destruct (find_longest_match isjunk a b alo ahi blo bhi) as [[i j] k].
  specialize (Hw ltac:(done) ltac:(done)). unfold in_window in Hw.
  destruct (0 <? k) eqn:Hk; [apply Nat.ltb_lt in Hk|by apply IH].
  apply IH. unfold loop_inv. rewrite fmap_app. simpl.
  set (rs := rect_of <$> bs) in *.
  set (r1 := (alo, i, blo, j)). set (r2 := (i + k, ahi, j + k, bhi)).
  set (rx := (i, i + k, j, j + k)).
  assert (within (alo, ahi, blo, bhi) r1 /\ within (alo, ahi, blo, bhi) r2 /\
          within (alo, ahi, blo, bhi) rx) as (Hw1 & Hw2 & Hwx).
  { unfold within, r1, r2, rx. lia. }
  assert (apart r2 r1 /\ apart r2 rx /\ apart r1 rx) as (H21 & H2x & H1x).
  { unfold apart, before, r1, r2, rx. lia. }
  assert (forall r, within (alo, ahi, blo, bhi) r -> Forall (apart r) (queue ++ rs)) as Hcross.
  { intros r Hwr. eapply Forall_impl; [exact Hhead|]. intros y. by apply apart_within. }
  assert (forall r, within (alo, ahi, blo, bhi) r -> within (0, length a, 0, length b) r) as Hsub.
  { intros [[[? ?] ?] ?]. unfold within. lia. }
  assert (good_block (i, j, k)) as Hgood.
  { unfold good_block, in_window. simpl. lia. }
  assert (forall q : list rect,
            pairwise apart (q ++ [rx]) -> Forall (within (alo, ahi, blo, bhi)) q ->
            pairwise apart ((q ++ queue) ++ rs ++ [rx]) /\
            Forall (within (0, length a, 0, length b)) (q ++ queue) /\
            Forall good_block (bs ++ [(i, j, k)])) as Hstep.
  { intros q Hq1 Hq2. repeat split.
    - apply (pairwise_Permutation _ ((q ++ [rx]) ++ (queue ++ rs)));
        [apply apart_sym|solve_Permutation|].
      apply pairwise_app. repeat split; [done..|].
      apply Forall_app. split.
      + eapply Forall_impl; [exact Hq2|]. apply Hcross.
      + apply Forall_singleton. by apply Hcross.
    - apply Forall_app. split; [|done]. eapply Forall_impl; [exact Hq2|]. apply Hsub.
    - apply Forall_app. split; [done|]. by apply Forall_singleton. }
  destruct ((alo <? i) && (blo <? j)), ((i + k <? ahi) && (j + k <? bhi)); simpl.
  - apply (Hstep [r2; r1]); simpl; repeat first [done | split | apply Forall_cons | apply Forall_nil_2].
  - apply (Hstep [r1]); simpl; repeat first [done | split | apply Forall_cons | apply Forall_nil_2].
  - apply (Hstep [r2]); simpl; repeat first [done | split | apply Forall_cons | apply Forall_nil_2].
  - apply (Hstep []); simpl; repeat first [done | split | apply Forall_cons | apply Forall_nil_2].
Qed.

End Blocks.

(** ** The sorted blocks follow one another *)

Lemma block_le_spec i1 j1 k1 i2 j2 k2 :
  block_le (i1, j1, k1) (i2, j2, k2) <->
  i1 < i2 \/ (i1 = i2 /\ (j1 < j2 \/ (j1 = j2 /\ k1 <= k2))).
Proof.
  unfold block_le, block_leb.
  destruct (Nat.ltb_spec i1 i2), (Nat.eqb_spec i1 i2), (Nat.ltb_spec j1 j2),
    (Nat.eqb_spec j1 j2), (Nat.leb_spec k1 k2); simpl; intuition lia.
Qed.

#[local] Instance block_le_total : Total block_le.
Proof. intros [[i1 j1] k1] [[i2 j2] k2]. rewrite !block_le_spec. lia. Qed.

Lemma chain_weaken i j i' j' blocks la lb :
  i' <= i -> j' <= j -> chain i j blocks la lb -> chain i' j' blocks la lb.
Proof. destruct blocks as [|[[ai bj] k] blocks]; simpl; intuition lia. Qed.

Lemma chain_start i j blocks la lb : chain i j blocks la lb -> i <= la /\ j <= lb.
Proof.
  revert i j. induction blocks as [|[[ai bj] k] blocks IH]; intros i j; simpl; [done|].
  intros (? & ? & Hc). apply IH in Hc. lia.
Qed.

Lemma chain_snoc i j blocks la lb :
  chain i j blocks la lb -> chain i j (blocks ++ [(la, lb, 0)]) la lb.
Proof.
  revert i j. induction blocks as [|[[ai bj] k] blocks IH]; intros i j; simpl; [lia|].
  intros (? & ? & Hc). auto.
Qed.

Lemma sorted_chain la lb x blocks i j :
  Sorted block_le (x :: blocks) ->
  pairwise apart (rect_of <$> x :: blocks) ->
  Forall (fun y => 0 < y.2 /\ in_window 0 la 0 lb y) (x :: blocks) ->
  i <= x.1.1 -> j <= x.1.2 ->
  chain i j (x :: blocks) la lb.
Proof.
  revert x i j. induction blocks as [|y blocks IH]; intros [[xi xj] xk] i j Hs Hp Hg Hi Hj.
  - apply Forall_cons in Hg as [Hg _]. unfold in_window in Hg. simpl in *. lia.
  - apply Sorted_inv in Hs as [Hs Hxy]. apply HdRel_inv in Hxy.
    rewrite fmap_cons in Hp. destruct Hp as [Hpx Hp].
    apply Forall_cons in Hg as [Hgx Hg].
    change (i <= xi /\ j <= xj /\ chain (xi + xk) (xj + xk) (y :: blocks) la lb).
    split; [done|]. split; [done|].
    destruct y as [[yi yj] yk]. rewrite fmap_cons in Hpx. apply Forall_cons in Hpx as [Hpxy _].
    pose proof Hg as Hg'. apply Forall_cons in Hg' as [Hgy _].
    assert (xi + xk <= yi /\ xj + xk <= yj) as [? ?].
    { apply block_le_spec in Hxy. unfold apart, before in Hpxy. simpl in *. lia. }
    apply IH; simpl; try done.
Qed.

Lemma merge_from_chain cur rest i j la lb :
  chain i j (cur :: rest) la lb -> chain i j (merge_from cur rest) la lb.
Proof.
  revert cur i j. induction rest as [|[[i2 j2] k2] rest IH]; intros [[i1 j1] k1] i j Hc.
  - simpl in *. destruct (0 <? k1); simpl; lia.
  - cbn [merge_from]. destruct (_ && _) eqn:Hadj.
    + apply andb_prop in Hadj as [?%Nat.eqb_eq ?%Nat.eqb_eq]. apply IH.
      simpl in *. replace (i1 + (k1 + k2)) with (i2 + k2) by lia.
      replace (j1 + (k1 + k2)) with (j2 + k2) by lia. repeat split; try lia. tauto.
    + destruct Hc as (? & ? & Hc). destruct (0 <? k1) eqn:Hk.
      * simpl. repeat split; try done. by apply IH.
      * apply Nat.ltb_ge in Hk. simpl. apply IH.
        apply chain_weaken with (i1 + k1) (j1 + k1); [lia|lia|done].
Qed.

Lemma merge_adjacent_from blocks :
  merge_adjacent blocks = merge_from (0, 0, 0) blocks.
Proof.
  unfold merge_adjacent.
  assert (forall rest cur acc,
            (let '((i1, j1, k1), non_adjacent) :=
               foldl (fun '((i1, j1, k1), non_adjacent) '(i2, j2, k2) =>
                        if (i1 + k1 =? i2) && (j1 + k1 =? j2)
                        then ((i1, j1, k1 + k2), non_adjacent)
                        else ((i2, j2, k2),
                              if 0 <? k1 then non_adjacent ++ [(i1, j1, k1)] else non_adjacent))
                     (cur, acc) rest in
             if 0 <? k1 then non_adjacent ++ [(i1, j1, k1)] else non_adjacent)
            = acc ++ merge_from cur rest) as Hgen.
  { induction rest as [|[[i2 j2] k2] rest IH]; intros [[i1 j1] k1] acc.
    - simpl. destruct (0 <? k1); [done|by rewrite app_nil_r].
    - cbn [foldl merge_from]. destruct (_ && _); [apply IH|].
      rewrite IH. destruct (0 <? k1); [by rewrite <- app_assoc|done]. }
  apply (Hgen blocks (0, 0, 0) []).
Qed.

Lemma get_opcodes_from {A} `{Countable A} (isjunk : A -> bool) (a b : list A) :
  get_opcodes isjunk a b = opcodes_from 0 0 (get_matching_blocks isjunk a b).
Proof.
  unfold get_opcodes. generalize (get_matching_blocks isjunk a b). intros blocks.
  assert (forall i j answer,
            (foldl (fun '(i, j, answer) '(ai, bj, size) =>
                      let answer :=
                        if (i <? ai) && (j <? bj) then answer ++ [Opcode Replace i ai j bj]
                        else if i <? ai then answer ++ [Opcode Delete i ai j bj]
                        else if j <? bj then answer ++ [Opcode Insert i ai j bj]
                        else answer in
                      (ai + size, bj + size,
                       if 0 <? size then answer ++ [Opcode Equal ai (ai + size) bj (bj + size)]
                       else answer))
                   (i, j, answer) blocks).2 = answer ++ opcodes_from i j blocks) as Hgen.
  { induction blocks as [|[[ai bj] size] blocks IH]; intros i j answer.
    - simpl. by rewrite app_nil_r.
    - cbn [foldl opcodes_from]. rewrite IH.
      destruct (_ && _), (i <? ai), (j <? bj), (0 <? size);
        by rewrite <- ?app_assoc, ?app_nil_r. }
  apply (Hgen 0 0 []).
Qed.

Lemma get_matching_blocks_chain {A} `{Countable A} (isjunk : A -> bool) (a b : list A) :
  exists blocks,
    get_matching_blocks isjunk a b = blocks ++ [(length a, length b, 0)] /\
    chain 0 0 blocks (length a) (length b).
Proof.
  unfold get_matching_blocks.
  set (bs := blocks_loop isjunk a b _ _ _).
  exists (merge_adjacent (merge_sort block_le bs)). split; [done|].
  rewrite merge_adjacent_from.
  destruct (blocks_loop_inv isjunk a b (2 * length a + 1) [(0, length a, 0, length b)] [])
    as [Hpw Hgood].
  { repeat split; simpl; try done. apply Forall_singleton. unfold within. lia. }
  fold bs in Hpw, Hgood.
  assert (pairwise apart (rect_of <$> merge_sort block_le bs)) as Hpw'.
  { eapply pairwise_Permutation; [apply apart_sym| |exact Hpw].
    apply fmap_Permutation. symmetry. apply merge_sort_Permutation. }
  assert (Forall (good_block a b) (merge_sort block_le bs)) as Hgood'.
  { by rewrite merge_sort_Permutation. }
  pose proof (Sorted_merge_sort block_le bs) as Hs.
  destruct (merge_sort block_le bs) as [|x sorted].
  { simpl. lia. }
  apply merge_from_chain.
  change (0 <= 0 /\ 0 <= 0 /\ chain (0 + 0) (0 + 0) (x :: sorted) (length a) (length b)).
  split; [lia|]. split; [lia|].
  apply chain_weaken with (x.1.1) (x.1.2); [lia..|].
  by apply sorted_chain.
Qed.

(** ** The lines of [ndiff] and the lines of the texts *)

Lemma bind_nil {X Y} (f : X -> list Y) : [] ≫= f = [].
Proof. reflexivity. Qed.

Section Compare.
Variables a b : list string.

(** The lines [Differ.compare] yields for one opcode. *)
Definition render (op : opcode) : list string :=
  match op_tag op with
  | Replace => fancy_replace (S (op_i2 op - op_i1 op)) a (op_i1 op) (op_i2 op) b (op_j1 op) (op_j2 op)
  | Delete => dump "-" a (op_i1 op) (op_i2 op)
  | Insert => dump "+" b (op_j1 op) (op_j2 op)
  | Equal => dump " " a (op_i1 op) (op_i2 op)
  end.

Lemma gap_counts i ai j bj :
  i <= ai -> ai <= length a -> j <= bj -> bj <= length b ->
  let gap := if (i <? ai) && (j <? bj) then [Opcode Replace i ai j bj]
             else if i <? ai then [Opcode Delete i ai j bj]
             else if j <? bj then [Opcode Insert i ai j bj]
             else [] in
  count of_old (gap ≫= render) = ai - i /\ count of_new (gap ≫= render) = bj - j.
Proof.
  intros ? ? ? ?.
  destruct (Nat.ltb_spec i ai), (Nat.ltb_spec j bj); cbn [andb]; cbv zeta;
    rewrite ?bind_cons, ?bind_nil, ?app_nil_r; unfold render; cbn [op_tag op_i1 op_i2 op_j1 op_j2].
  - apply fancy_replace_counts; lia.
  - destruct (dump_minus_counts a i ai); [lia..|]. lia.
  - destruct (dump_plus_counts b j bj); [lia..|]. lia.
  - unfold count. simpl. lia.
Qed.

Lemma opcodes_counts blocks i j :
  chain i j blocks (length a) (length b) ->
  count of_old (opcodes_from i j (blocks ++ [(length a, length b, 0)]) ≫= render) = length a - i /\
  count of_new (opcodes_from i j (blocks ++ [(length a, length b, 0)]) ≫= render) = length b - j.
Proof.
  revert i j. induction blocks as [|[[ai bj] k] blocks IH]; intros i j Hc.
  - simpl in Hc. cbn [app opcodes_from]. replace (0 <? 0) with false by done.
    rewrite !app_nil_r. apply gap_counts; lia.
  - destruct Hc as (? & ? & Hc). pose proof (chain_start _ _ _ _ _ Hc) as [? ?].
    rewrite <- app_comm_cons. cbn [opcodes_from]. rewrite !bind_app, !count_app.
    destruct (gap_counts i ai j bj) as [-> ->]; [lia..|].
    destruct (IH _ _ Hc) as [-> ->].
    destruct (Nat.ltb_spec 0 k).
    + rewrite bind_cons, bind_nil, app_nil_r.
      change (render (Opcode Equal ai (ai + k) bj (bj + k))) with (dump " " a ai (ai + k)).
      destruct (dump_equal_counts a ai (ai + k)) as [-> ->]; [lia..|]. lia.
    + rewrite bind_nil. unfold count. simpl. lia.
Qed.

Lemma ndiff_counts :
  count of_old (ndiff a b) = length a /\ count of_new (ndiff a b) = length b.
Proof.
  unfold ndiff. rewrite get_opcodes_from.
  destruct (get_matching_blocks_chain (fun _ => false) a b) as (blocks & -> & Hc).
  destruct (opcodes_counts blocks 0 0 Hc) as [H1 H2].
  rewrite !Nat.sub_0_r in *. done.
Qed.

End Compare.

(** ** The index table [b2j] *)

Section Positions.
Context {A : Type} `{Countable A}.

Lemma pos_from_app (x : A) off l1 l2 :
  pos_from x off (l1 ++ l2) = pos_from x off l1 ++ pos_from x (off + length l1) l2.
Proof.
  revert off. induction l1 as [|y l1 IH]; intros off; simpl.
  - by rewrite Nat.add_0_r.
  - rewrite IH, <- app_assoc. by replace (S off + length l1) with (off + S (length l1)) by lia.
Qed.

Lemma pos_from_bounds (x : A) off l :
  Forall (fun j => off <= j < off + length l) (pos_from x off l).
Proof.
  revert off. induction l as [|y l IH]; intros off; simpl; [done|].
  apply Forall_app. split.
  - case_decide; [|done]. apply Forall_singleton. lia.
  - eapply Forall_impl; [apply IH|]. simpl. lia.
Qed.

Lemma pos_from_lookup (x : A) off l :
  Forall (fun j => l !! (j - off) = Some x) (pos_from x off l).
Proof.
  revert off. induction l as [|y l IH]; intros off; simpl; [done|].
  apply Forall_app. split.
  - case_decide; [|done]. apply Forall_singleton. rewrite Nat.sub_diag. by subst.
  - pose proof (pos_from_bounds x (S off) l) as Hb.
    pose proof (IH (S off)) as Hl. rewrite Forall_forall in Hb, Hl.
    apply Forall_forall. intros j Hj. specialize (Hb j Hj). specialize (Hl j Hj).
    replace (j - off) with (S (j - S off)) by lia. done.
Qed.

Lemma pos_from_split (x : A) l i :
  l !! i = Some x ->
  exists js1 js2,
    pos_from x 0 l = js1 ++ i :: js2 /\
    Forall (fun j => j < i /\ l !! j = Some x) js1 /\
    Forall (fun j => i < j < length l /\ l !! j = Some x) js2.
Proof.
  intros Hi. pose proof (lookup_lt_Some _ _ _ Hi) as Hlt.
  pose proof (take_drop_middle l i x Hi) as E.
  assert (length (take i l) = i) as Hlen by (rewrite length_take; lia).
  revert E Hlen. generalize (take i l) (drop (S i) l). intros l1 l2 <- <-. clear Hi Hlt.
  pose proof (pos_from_lookup x 0 (l1 ++ x :: l2)) as Hall.
  rewrite pos_from_app in Hall |- *. simpl in Hall |- *.
  rewrite decide_True in Hall |- * by done. simpl in Hall |- *.
  exists (pos_from x 0 l1), (pos_from x (S (length l1)) l2).
  split; [done|].
  apply Forall_app in Hall as [Hall1 Hall2]. apply Forall_cons in Hall2 as [_ Hall2].
  pose proof (pos_from_bounds x 0 l1) as Hb1.
  pose proof (pos_from_bounds x (S (length l1)) l2) as Hb2.
  rewrite Forall_forall in Hall1, Hall2, Hb1, Hb2. split.
  - apply Forall_forall. intros j Hj. specialize (Hb1 j Hj). specialize (Hall1 j Hj).
    rewrite Nat.sub_0_r in Hall1. split; [lia|done].
  - apply Forall_forall. intros j Hj. specialize (Hb2 j Hj). specialize (Hall2 j Hj).
    rewrite Nat.sub_0_r in Hall2. rewrite length_app. simpl. split; [lia|done].
Qed.

Lemma b2j_all_snoc (l : list A) y :
  b2j_all (l ++ [y]) = <[y := default [] (b2j_all l !! y) ++ [length l]]> (b2j_all l).
Proof.
  unfold b2j_all. rewrite imap_app, foldl_app. simpl. by rewrite Nat.add_0_r.
Qed.

Lemma pos_from_snoc (x : A) l y :
  pos_from x 0 (l ++ [y]) = pos_from x 0 l ++ (if decide (x = y) then [length l] else []).
Proof. rewrite pos_from_app. simpl. by rewrite app_nil_r. Qed.

Lemma b2j_all_lookup (l : list A) x :
  b2j_all l !! x = match pos_from x 0 l with [] => None | js => Some js end.
Proof.
  induction l as [|y l IH] using rev_ind; [done|].
  rewrite b2j_all_snoc, pos_from_snoc. destruct (decide (x = y)) as [<-|Hne].
  - rewrite lookup_insert_eq, IH. by destruct (pos_from x 0 l).
  - rewrite lookup_insert_ne, app_nil_r by done. done.
Qed.

Lemma chain_b_lookup (l : list A) x js :
  chain_b (fun _ => false) l !! x = Some js -> js = pos_from x 0 l.
Proof.
  unfold chain_b. intros Hl.
  assert (b2j_all l !! x = Some js) as Hall.
  { destruct (200 <=? length l).
    - apply map_lookup_filter_Some in Hl as [Hl _].
      by apply map_lookup_filter_Some in Hl as [Hl _].
    - by apply map_lookup_filter_Some in Hl as [Hl _]. }
  rewrite b2j_all_lookup in Hall. by destruct (pos_from x 0 l); simplify_eq.
Qed.

Lemma bjunk_empty (l : list A) y : y ∉ bjunk (fun _ => false) l.
Proof. unfold bjunk. rewrite elem_of_filter. by intros [? _]. Qed.

End Positions.

(** ** A sequence against itself: the longest match is the whole sequence *)

Section Diagonal.
Context {A : Type} `{Countable A}.
Variable a : list A.

Local Abbreviation n := (length a).
Local Abbreviation b2j := (chain_b (fun _ => false) a).

(** [a[i]] is still a key of [b2j]. *)
Definition keptat (i : nat) : bool :=
  match a !! i with
  | Some x => bool_decide (is_Some (b2j !! x))
  | None => false
  end.

(** The length of the run of kept elements that ends at [i]. *)
Fixpoint run_at (i : nat) : nat :=
  if keptat i then S (match i with 0 => 0 | S i' => run_at i' end) else 0.

Definition run_before (i : nat) : nat :=
  match i with 0 => 0 | S i' => run_at i' end.

(** The value the scan stores for column [j]. *)
Definition kval (prev : gmap nat nat) (j : nat) : nat :=
  match j with 0 => 0 | S j' => default 0 (prev !! j') end + 1.

Lemma run_at_eq i : run_at i = if keptat i then S (run_before i) else 0.
Proof. by destruct i. Qed.

Lemma scan_row_app prev blo bhi i js1 js2 st :
  Forall (fun j => j < bhi) js1 ->
  scan_row prev blo bhi i (js1 ++ js2) st
  = scan_row prev blo bhi i js2 (scan_row prev blo bhi i js1 st).
Proof.
  revert st. induction js1 as [|j js1 IH]; intros st Hlt; [done|].
  apply Forall_cons in Hlt as [Hj Hlt]. simpl.
  destruct (j <? blo); [by apply IH|].
  replace (bhi <=? j) with false by (symmetry; apply Nat.leb_gt; lia).
  by apply IH.
Qed.

Lemma scan_row_quiet prev i js st :
  Forall (fun j => j < n /\ kval prev j <= bestsize st) js ->
  besti (scan_row prev 0 n i js st) = besti st /\
  bestj (scan_row prev 0 n i js st) = bestj st /\
  bestsize (scan_row prev 0 n i js st) = bestsize st /\
  (forall j v, newj2len (scan_row prev 0 n i js st) !! j = Some v ->
     newj2len st !! j = Some v \/ (j ∈ js /\ v = kval prev j)) /\
  (forall j, j ∉ js -> newj2len (scan_row prev 0 n i js st) !! j = newj2len st !! j).
Proof.
  revert st. induction js as [|j js IH]; intros st Hq.
  { simpl. repeat split; auto. }
  apply Forall_cons in Hq as [[Hj Hk] Hq]. cbn [scan_row].
  replace (j <? 0) with false by done.
  replace (n <=? j) with false by (symmetry; apply Nat.leb_gt; lia).
  fold (kval prev j).
  replace (bestsize st <? kval prev j) with false by (symmetry; apply Nat.ltb_ge; lia).
  destruct (IH (Scan (<[j:=kval prev j]> (newj2len st)) (besti st) (bestj st) (bestsize st)))
    as (-> & -> & -> & Hent & Hother); [done|].
  simpl. repeat split.
  - intros j0 v Hv. destruct (Hent _ _ Hv) as [Hv'|[? ?]].
    + simpl in Hv'. rewrite lookup_insert in Hv'. case_decide.
      * simplify_eq. right. split; [apply list_elem_of_here|done].
      * by left.
    + right. split; [by apply list_elem_of_further|done].
  - intros j0 Hj0. apply not_elem_of_cons in Hj0 as [? ?].
    rewrite Hother by done. simpl. by rewrite lookup_insert_ne.
Qed.

(** After [i] rows: the stored lengths are bounded by the runs, the
    diagonal entry is the run, and the best block lies on the diagonal and is
    at least as long as every run seen. *)
Definition rows_inv (i : nat) (st : scan) : Prop :=
  (forall j v, newj2len st !! j = Some v -> v <= run_before i /\ v <= run_at j) /\
  (forall i', i = S i' -> keptat i' = true -> newj2len st !! i' = Some (run_at i')) /\
  besti st = bestj st /\
  (forall i', i' < i -> run_at i' <= bestsize st).

Lemma kept_lookup j x : a !! j = Some x -> is_Some (b2j !! x) -> keptat j = true.
Proof. intros Hj Hx. unfold keptat. rewrite Hj. by apply bool_decide_eq_true. Qed.

Lemma row_step i st :
  i < n -> rows_inv i st ->
  rows_inv (S i) (scan_row (newj2len st) 0 n i (default [] (x ← a !! i; b2j !! x))
                           (Scan ∅ (besti st) (bestj st) (bestsize st))).
Proof.
  intros Hi (I1 & I2 & I3 & I4).
  destruct (lookup_lt_is_Some_2 a i Hi) as [x Hx]. rewrite Hx. simpl.
  destruct (b2j !! x) as [js|] eqn:Hjs; simpl.
  - (* a[i] is a key of b2j *)
    pose proof (chain_b_lookup _ _ _ Hjs) as ->.
    destruct (pos_from_split x a i Hx) as (js1 & js2 & -> & Hjs1 & Hjs2).
    assert (keptat i = true) as Hki by (eapply kept_lookup; eauto).
    assert (run_at i = S (run_before i)) as HDi by (by rewrite run_at_eq, Hki).
    assert (forall j, a !! j = Some x ->
              kval (newj2len st) j <= run_at i /\ kval (newj2len st) j <= run_at j) as Hkval.
    { intros j Hj. assert (keptat j = true) as Hkj by (eapply kept_lookup; eauto).
      rewrite (run_at_eq j), Hkj, HDi. unfold kval.
      destruct j as [|j']; [simpl; lia|].
      destruct (newj2len st !! j') as [v|] eqn:Hv; simpl; [|lia].
      destruct (I1 _ _ Hv). lia. }
    assert (kval (newj2len st) i = run_at i) as Hki_val.
    { rewrite HDi. unfold kval. destruct i as [|i']; [done|]. simpl.
      destruct (keptat i') eqn:Hk'.
      - rewrite (I2 i' eq_refl Hk'). simpl. lia.
      - assert (run_at i' = 0) as H0 by (by rewrite run_at_eq, Hk').
        destruct (newj2len st !! i') as [v|] eqn:Hv; simpl; [|lia].
        destruct (I1 _ _ Hv). lia. }
    rewrite scan_row_app by (eapply Forall_impl; [exact Hjs1|]; simpl; lia).
    set (st0 := Scan ∅ (besti st) (bestj st) (bestsize st)).
    destruct (scan_row_quiet (newj2len st) i js1 st0) as (Hb1 & Hb2 & Hb3 & Hent1 & Hoth1).
    { eapply Forall_impl; [exact Hjs1|]. simpl. intros j [Hji Hj]. split; [lia|].
      destruct (Hkval j Hj). specialize (I4 j Hji). lia. }
    set (st1 := scan_row (newj2len st) 0 n i js1 st0) in *.
    cbn [scan_row]. replace (i <? 0) with false by done.
    replace (n <=? i) with false by (symmetry; apply Nat.leb_gt; lia).
    fold (kval (newj2len st) i). rewrite Hki_val.
    set (st2 := if bestsize st1 <? run_at i
                then Scan (<[i:=run_at i]> (newj2len st1)) (S i - run_at i) (S i - run_at i) (run_at i)
                else Scan (<[i:=run_at i]> (newj2len st1)) (besti st1) (bestj st1) (bestsize st1)).
    assert (newj2len st2 = <[i:=run_at i]> (newj2len st1) /\ besti st2 = bestj st2 /\
            bestsize st <= bestsize st2 /\ run_at i <= bestsize st2) as (Hn2 & Hd2 & Hm2 & Hr2).
    { unfold st2. destruct (Nat.ltb_spec (bestsize st1) (run_at i)); simpl.
      - rewrite Hb3 in *. simpl in *. repeat split; lia.
      - rewrite Hb1, Hb2, Hb3 in *. simpl in *. repeat split; try done; lia. }
    destruct (scan_row_quiet (newj2len st) i js2 st2) as (Hc1 & Hc2 & Hc3 & Hent2 & Hoth2).
    { eapply Forall_impl; [exact Hjs2|]. simpl. intros j [Hji Hj]. split; [lia|].
      destruct (Hkval j Hj). lia. }
    set (st3 := scan_row (newj2len st) 0 n i js2 st2) in *.
    assert (forall j v, newj2len st3 !! j = Some v ->
              a !! j = Some x /\ v = kval (newj2len st) j) as Hent3.
    { intros j v Hv3. destruct (Hent2 _ _ Hv3) as [Hv|[Hin ->]].
      - rewrite Hn2, lookup_insert in Hv. case_decide as Hij.
        + injection Hv as <-. subst j. by rewrite Hki_val.
        + destruct (Hent1 _ _ Hv) as [Hv'|[Hin ->]]; [done|].
          rewrite Forall_forall in Hjs1. by destruct (Hjs1 _ Hin).
      - rewrite Forall_forall in Hjs2. by destruct (Hjs2 _ Hin). }
    split; [|split; [|split]].
    + intros j v Hv3. destruct (Hent3 _ _ Hv3) as [Hj ->].
      simpl. destruct (Hkval j Hj). lia.
    + intros i' [= <-] _. rewrite Hoth2, Hn2, lookup_insert_eq; [done|].
      intros Hin. rewrite Forall_forall in Hjs2. destruct (Hjs2 _ Hin). lia.
    + by rewrite Hc1, Hc2.
    + intros i' Hi'. rewrite Hc3. destruct (decide (i' = i)) as [->|]; [done|].
      assert (i' < i) as Hlt by lia. specialize (I4 i' Hlt). lia.
  - (* a[i] was purged from b2j *)
    assert (keptat i = false) as Hki.
    { unfold keptat. rewrite Hx, Hjs. apply bool_decide_eq_false. by intros [? ?]. }
    split; [|split; [|split]]; simpl.
    + intros j v Hv. by rewrite lookup_empty in Hv.
    + intros i' [= <-]. by rewrite Hki.
    + done.
    + intros i' Hi'. destruct (decide (i' = i)) as [->|].
      * rewrite run_at_eq, Hki. lia.
      * apply I4. lia.
Qed.

Lemma scan_rows_diagonal :
  besti (scan_rows a b2j 0 n 0 n) = bestj (scan_rows a b2j 0 n 0 n).
Proof.
  unfold scan_rows. rewrite Nat.sub_0_r.
  assert (forall m i0 st, i0 + m <= n -> rows_inv i0 st ->
            rows_inv (i0 + m)
              (foldl (fun st i =>
                        scan_row (newj2len st) 0 n i (default [] (x ← a !! i; b2j !! x))
                                 (Scan ∅ (besti st) (bestj st) (bestsize st)))
                     st (seq i0 m))) as Hfold.
  { induction m as [|m IH]; intros i0 st Hm Hinv.
    - by rewrite Nat.add_0_r.
    - simpl. replace (i0 + S m) with (S i0 + m) by lia.
      apply IH; [lia|]. apply row_step; [lia|done]. }
  destruct (Hfold n 0 (Scan ∅ 0 0 0)) as (_ & _ & Hd & _); [lia| |done].
  split; [|split; [|split]]; simpl.
  - intros j v Hv. by rewrite lookup_empty in Hv.
  - intros i' Hi'. lia.
  - done.
  - intros i' Hi'. lia.
Qed.

End Diagonal.

Section Identical.
Context {A : Type} `{Countable A}.
Variable a : list A.

Local Abbreviation nojunk := (fun _ : A => false).

Lemma same_at_diagonal i : i < length a -> same_at nojunk a a false i i = true.
Proof.
  intros Hi. unfold same_at. destruct (lookup_lt_is_Some_2 a i Hi) as [x ->].
  rewrite bool_decide_eq_true_2 by done. simpl.
  apply bool_decide_eq_true. apply bool_decide_eq_false. apply bjunk_empty.
Qed.

Lemma extend_left_diagonal d s :
  d <= length a -> extend_left nojunk a a false 0 0 d d s = (0, 0, s + d).
Proof.
  revert s. induction d as [|d IH]; intros s Hd; simpl.
  - by rewrite Nat.add_0_r.
  - rewrite same_at_diagonal by lia. simpl. rewrite IH by lia. f_equal. lia.
Qed.

Lemma extend_right_diagonal fuel s :
  s + fuel = length a ->
  extend_right nojunk a a false (length a) (length a) fuel 0 0 s = (0, 0, length a).
Proof.
  revert s. induction fuel as [|fuel IH]; intros s Hs; simpl.
  - f_equal. lia.
  - replace (s <? length a) with true by (symmetry; apply Nat.ltb_lt; lia).
    rewrite same_at_diagonal by lia. simpl. apply IH. lia.
Qed.

Lemma find_longest_match_identical :
  find_longest_match nojunk a a 0 (length a) 0 (length a) = (0, 0, length a).
Proof.
  unfold find_longest_match.
  pose proof (scan_rows_bounds a (chain_b nojunk a) 0 (length a) 0 (length a)
                ltac:(lia) ltac:(lia)) as Hb.
  pose proof (scan_rows_diagonal a) as Hd. simpl in Hd.
  destruct (scan_rows a (chain_b nojunk a) 0 (length a) 0 (length a)) as [m d d' s].
  unfold best_in, in_window in Hb. simpl in *. subst d'.
  rewrite extend_left_diagonal by lia.
  rewrite extend_right_diagonal by lia.
  simpl. by rewrite Nat.sub_diag.
Qed.

Lemma blocks_loop_done {B} `{Countable B} (isjunk : B -> bool) (x y : list B) fuel blocks :
  blocks_loop isjunk x y fuel [] blocks = blocks.
Proof. by destruct fuel. Qed.

Lemma get_matching_blocks_identical :
  get_matching_blocks nojunk a a
  = (if 0 <? length a then [(0, 0, length a)] else []) ++ [(length a, length a, 0)].
Proof.
  unfold get_matching_blocks. f_equal.
  replace (2 * length a + 1) with (S (2 * length a)) by lia.
  cbn [blocks_loop]. rewrite find_longest_match_identical.
  destruct (Nat.ltb_spec 0 (length a)) as [Hn|Hn].
  - rewrite Nat.ltb_irrefl. rewrite Nat.add_0_l, Nat.ltb_irrefl. cbn [andb app].
    rewrite blocks_loop_done.
    change (merge_sort block_le [(0, 0, length a)]) with [(0, 0, length a)].
    unfold merge_adjacent. cbn [foldl]. rewrite Nat.add_0_l.
    cbn [Nat.eqb andb]. rewrite Nat.add_0_l.
    by replace (0 <? length a) with true by (symmetry; by apply Nat.ltb_lt).
  - by rewrite blocks_loop_done.
Qed.

Lemma get_opcodes_identical :
  get_opcodes nojunk a a
  = if 0 <? length a then [Opcode Equal 0 (length a) 0 (length a)] else [].
Proof.
  rewrite get_opcodes_from, get_matching_blocks_identical.
  destruct (Nat.ltb_spec 0 (length a)) as [Hn|Hn]; simpl.
  - replace (0 <? length a) with true by (symmetry; by apply Nat.ltb_lt).
    by rewrite !Nat.ltb_irrefl.
  - by replace (length a) with 0 by lia.
Qed.

End Identical.

Lemma ndiff_identical (a : list string) : ndiff a a = (fun line => "  " +:+ line) <$> a.
Proof.
  unfold ndiff. rewrite get_opcodes_identical.
  destruct (Nat.ltb_spec 0 (length a)) as [Hn|Hn].
  - rewrite bind_singleton. cbn [op_tag op_i1 op_i2]. unfold dump.
    rewrite Nat.sub_0_r, drop_0, take_ge by done. done.
  - destruct a; [done|simpl in Hn; lia].
Qed.

(** ** Swapped texts and identical texts *)

Lemma added_not_unchanged line : is_added line = true -> is_unchanged line = false.
Proof.
  unfold is_added, is_unchanged, startswith. destruct line as [|c line]; [done|].
  cbn [Re.lit Re.chr]. destruct (Ascii.eqb_spec "+" c) as [<-|]; [done|discriminate].
Qed.

Lemma removed_not_unchanged line : is_removed line = true -> is_unchanged line = false.
Proof.
  unfold is_removed, is_unchanged, startswith. destruct line as [|c line]; [done|].
  cbn [Re.lit Re.chr]. destruct (Ascii.eqb_spec "-" c) as [<-|]; [done|discriminate].
Qed.

Lemma unchanged_lines_spec diff ch :
  unchanged_lines (foldl count_line ch diff) = unchanged_lines ch + count is_unchanged diff.
Proof.
  revert ch. induction diff as [|line diff IH]; intros ch.
  - unfold count. simpl. lia.
  - cbn [foldl]. rewrite IH, count_cons. unfold count_line.
    fold (is_added line). fold (is_removed line). fold (is_unchanged line).
    destruct (is_added line) eqn:Ha; [rewrite (added_not_unchanged _ Ha); simpl; lia|].
    destruct (is_removed line) eqn:Hr; [rewrite (removed_not_unchanged _ Hr); simpl; lia|].
    destruct (is_unchanged line); simpl; [lia|].
    destruct (startswith "? " line); simpl; lia.
Qed.

Lemma count_of_old diff : count of_old diff = count is_removed diff + count is_unchanged diff.
Proof.
  induction diff as [|line diff IH]; [done|]. rewrite !count_cons, IH. unfold of_old.
  destruct (is_removed line) eqn:Hr; [rewrite (removed_not_unchanged _ Hr)|]; simpl; [lia|].
  destruct (is_unchanged line); lia.
Qed.

Lemma count_of_new diff : count of_new diff = count is_added diff + count is_unchanged diff.
Proof.
  induction diff as [|line diff IH]; [done|]. rewrite !count_cons, IH. unfold of_new.
  destruct (is_added line) eqn:Hr; [rewrite (added_not_unchanged _ Hr)|]; simpl; [lia|].
  destruct (is_unchanged line); lia.
Qed.

Lemma analyze_diff_counts diff :
  added_lines (analyze_diff diff) = count is_added diff /\
  removed_lines (analyze_diff diff) = count is_removed diff /\
  unchanged_lines (analyze_diff diff) = count is_unchanged diff /\
  line_changes (analyze_diff diff) = changed_lines diff /\
  changes_by_type (analyze_diff diff) = foldl classify ∅ (take 100 (changed_lines diff)).
Proof.
  unfold analyze_diff. cbn [added_lines removed_lines unchanged_lines line_changes changes_by_type].
  rewrite unchanged_lines_spec.
  destruct (count_lines_spec diff (Changes 0 0 0 0 ∅ [])) as (-> & -> & -> & ->).
  done.
Qed.

(** C5, as amended.  The added and the unchanged lines are the lines of
    the new text, the removed and the unchanged lines those of the old text;
    so the added count less the removed count of (old, new) is the removed
    count less the added count of (new, old). *)
Theorem net_line_change_mirrors (old_content new_content : string) (r r' : changes) :
  analyze_code_changes old_content new_content = Some r ->
  analyze_code_changes new_content old_content = Some r' ->
  added_lines r + unchanged_lines r = length (splitlines new_content) /\
  removed_lines r + unchanged_lines r = length (splitlines old_content) /\
  added_lines r + added_lines r' = removed_lines r + removed_lines r'.
Proof.
  unfold analyze_code_changes.
  destruct (is_empty old_content), (is_empty new_content); try done. simpl.
  intros [= <-] [= <-].
  destruct (analyze_diff_counts (ndiff (splitlines old_content) (splitlines new_content)))
    as (-> & -> & -> & _).
  destruct (analyze_diff_counts (ndiff (splitlines new_content) (splitlines old_content)))
    as (-> & -> & _).
  destruct (ndiff_counts (splitlines old_content) (splitlines new_content)) as [H1 H2].
  destruct (ndiff_counts (splitlines new_content) (splitlines old_content)) as [H3 H4].
  rewrite count_of_old in H1, H3. rewrite count_of_new in H2, H4. lia.
Qed.

Lemma net_line_change_mirrors_witness :
  3 + 1 = length (splitlines diet) /\ 3 + 1 = length (splitlines tide) /\ 3 + 2 = 3 + 2.
Proof.
  apply (net_line_change_mirrors tide diet
           (Changes 3 3 0 1 ∅ [("+", "d"); ("+", "i"); ("+", "e"); ("-", "i"); ("-", "d"); ("-", "e")])
           (Changes 2 2 0 2 ∅ [("+", "t"); ("+", "i"); ("-", "i"); ("-", "t")]));
    vm_compute; reflexivity.
Defined.

(** C5 fails: three lines are added from [tide] to [diet], two are removed
    from [diet] to [tide]. *)
Lemma added_is_not_removed_of_swap :
  Difflib.ndiff (splitlines tide) (splitlines diet) = ["+ d"; "+ i"; "+ e"; "  t"; "- i"; "- d"; "- e"] /\
  Difflib.ndiff (splitlines diet) (splitlines tide) = ["+ t"; "+ i"; "  d"; "- i"; "  e"; "- t"] /\
  get_added_lines (analyze_code_changes tide diet) = 3 /\
  get_removed_lines (analyze_code_changes diet tide) = 2 /\
  get_added_lines (analyze_code_changes tide diet) <> get_removed_lines (analyze_code_changes diet tide).
Proof. repeat split; vm_compute; congruence. Qed.

Lemma changed_lines_unchanged (ls : list string) :
  changed_lines ((fun line => "  " +:+ line) <$> ls) = [].
Proof. induction ls as [|l ls IH]; [done|]. by rewrite fmap_cons, changed_lines_cons, IH. Qed.

(** C6.  A text against itself has no added line, no removed line and an
    empty mapping; every line is counted as unchanged. *)
Theorem identical_texts_no_changes (t : string) :
  get_added_lines (analyze_code_changes t t) = 0 /\
  get_removed_lines (analyze_code_changes t t) = 0 /\
  get_changes_by_type (analyze_code_changes t t) = ∅ /\
  (t = EmptyString \/
   exists r, analyze_code_changes t t = Some r /\
             added_lines r = 0 /\ removed_lines r = 0 /\ changes_by_type r = ∅ /\
             line_changes r = [] /\ unchanged_lines r = length (splitlines t)).
Proof.
  destruct t as [|c t]; [by repeat split; try left|].
  unfold analyze_code_changes. cbn [is_empty orb]. rewrite ndiff_identical.
  unfold get_added_lines, get_removed_lines, get_changes_by_type.
  cbn [fmap option_fmap option_map default].
  destruct (analyze_diff_counts ((fun line => "  " +:+ line) <$> splitlines (String c t)))
    as (Ha & Hr & Hu & Hl & Hc).
  rewrite changed_lines_unchanged in Hl, Hc.
  rewrite (count_fmap_const _ _ false) in Ha by done.
  rewrite (count_fmap_const _ _ false) in Hr by done.
  rewrite (count_fmap_const _ _ true) in Hu by done.
  split; [done|]. split; [done|]. split; [done|].
  right. eexists. split; [done|]. by repeat split.
Qed.

(** ** The fuel of the loops suffices *)

Lemma rounds_app q1 q2 : rounds (q1 ++ q2) = rounds q1 + rounds q2.
Proof.
  induction q1 as [|[[[alo ahi] blo] bhi] q1 IH]; [done|].
  change (2 * (ahi - alo) + 1 + rounds (q1 ++ q2) = 2 * (ahi - alo) + 1 + rounds q1 + rounds q2).
  rewrite IH. lia.
Qed.

(** The loop of [get_matching_blocks] empties its queue before the fuel
    runs out, and [_fancy_replace] returns before its fuel does. *)
Lemma blocks_loop_fuel {A} `{Countable A} (isjunk : A -> bool) (a b : list A)
  fuel fuel' queue blocks :
  Forall (fun '(alo, ahi, blo, bhi) => alo <= ahi /\ blo <= bhi) queue ->
  rounds queue <= fuel -> rounds queue <= fuel' ->
  blocks_loop isjunk a b fuel queue blocks = blocks_loop isjunk a b fuel' queue blocks.
Proof.
  revert fuel' queue blocks. induction fuel as [|fuel IH]; intros fuel' queue blocks Hwf H1 H2.
  - destruct queue as [|[[[alo ahi] blo] bhi] queue]; [by rewrite !blocks_loop_done|].
    unfold rounds in H1. simpl in H1. lia.
  - destruct queue as [|[[[alo ahi] blo] bhi] queue]; [by rewrite !blocks_loop_done|].
    destruct fuel' as [|fuel']; [unfold rounds in H2; simpl in H2; lia|].
    apply Forall_cons in Hwf as [[? ?] Hwf].
    cbn [blocks_loop].
    pose proof (find_longest_match_bounds isjunk a b alo ahi blo bhi ltac:(done) ltac:(done)) as Hw.
    destruct (find_longest_match isjunk a b alo ahi blo bhi) as [[i j] k].
    unfold in_window in Hw.
    change (rounds ((alo, ahi, blo, bhi) :: queue)) with (2 * (ahi - alo) + 1 + rounds queue) in H1, H2.
    destruct (Nat.ltb_spec 0 k).
    + set (q1 := if (alo <? i) && (blo <? j) then [(alo, i, blo, j)] else []).
      set (q2 := if (i + k <? ahi) && (j + k <? bhi) then [(i + k, ahi, j + k, bhi)] else []).
      assert (rounds q1 <= 2 * (i - alo) + 1) as Hq1.
      { unfold q1. destruct ((alo <? i) && (blo <? j)); unfold rounds; simpl; lia. }
      assert (rounds q2 <= 2 * (ahi - (i + k)) + 1) as Hq2.
      { unfold q2. destruct ((i + k <? ahi) && (j + k <? bhi)); unfold rounds; simpl; lia. }
      apply IH.
      * rewrite !Forall_app. repeat split; [| |done].
        -- unfold q2. destruct ((i + k <? ahi) && (j + k <? bhi)); [|constructor].
           apply Forall_singleton. lia.
        -- unfold q1. destruct ((alo <? i) && (blo <? j)); [|constructor].
           apply Forall_singleton. lia.
      * rewrite !rounds_app. lia.
      * rewrite !rounds_app. lia.
    + apply IH; [done|lia|lia].
Qed.

Lemma fancy_replace_fuel a b fuel fuel' alo ahi blo bhi :
  ahi - alo < fuel -> ahi - alo < fuel' ->
  fancy_replace fuel a alo ahi b blo bhi = fancy_replace fuel' a alo ahi b blo bhi.
Proof.
  revert fuel' alo ahi blo bhi.
  induction fuel as [|fuel IH]; intros fuel' alo ahi blo bhi H1 H2; [lia|].
  destruct fuel' as [|fuel']; [lia|]. cbn [fancy_replace].
  destruct (fancy_pick_in a alo ahi b blo bhi) as [Hbest Heq].
  destruct (fancy_pick a alo ahi b blo bhi) as [r bij eij]. simpl in *.
  assert (forall best_i best_j, alo <= best_i < ahi ->
            (if alo <? best_i
             then (if blo <? best_j then fancy_replace fuel a alo best_i b blo best_j
                   else dump "-" a alo best_i)
             else if blo <? best_j then dump "+" b blo best_j else [])
            = (if alo <? best_i
               then (if blo <? best_j then fancy_replace fuel' a alo best_i b blo best_j
                     else dump "-" a alo best_i)
               else if blo <? best_j then dump "+" b blo best_j else []) /\
            (if best_i + 1 <? ahi
             then (if best_j + 1 <? bhi then fancy_replace fuel a (best_i + 1) ahi b (best_j + 1) bhi
                   else dump "-" a (best_i + 1) ahi)
             else if best_j + 1 <? bhi then dump "+" b (best_j + 1) bhi else [])
            = (if best_i + 1 <? ahi
               then (if best_j + 1 <? bhi then fancy_replace fuel' a (best_i + 1) ahi b (best_j + 1) bhi
                     else dump "-" a (best_i + 1) ahi)
               else if best_j + 1 <? bhi then dump "+" b (best_j + 1) bhi else [])) as Hh.
  { intros best_i best_j Hi. split.
    - destruct (alo <? best_i); [|done]. destruct (blo <? best_j); [|done]. apply IH; lia.
    - destruct (best_i + 1 <? ahi); [|done]. destruct (best_j + 1 <? bhi); [|done].
      apply IH; lia. }
  destruct (Qltb r (75 # 100)).
  - destruct eij as [[eqi eqj]|]; [|done].
    destruct (Heq _ _ eq_refl) as [Hi _]. destruct (Hh eqi eqj Hi) as [-> ->]. done.
  - destruct bij as [[best_i best_j]|]; [|done].
    destruct (Hbest _ _ eq_refl) as [Hi _]. destruct (Hh best_i best_j Hi) as [-> ->]. done.
Qed.

Lemma classification_stops_at_100_witness :
  let diff := Difflib.ndiff (splitlines one_line) (splitlines many_links) in
  line_changes many_links_report = changed_lines diff /\
  changes_by_type many_links_report = foldl classify ∅ (take 100 (changed_lines diff)) /\
  counter_total (changes_by_type many_links_report) <= 100 /\
  added_lines many_links_report = length (List.filter is_added diff) /\
  removed_lines many_links_report = length (List.filter is_removed diff) /\
  added_lines many_links_report + removed_lines many_links_report = length (changed_lines diff).
Proof.
  apply (classification_stops_at_100 one_line many_links many_links_report).
  vm_compute. reflexivity.
Defined.

(** * Further properties of the code *)

(** ** The shape of what the parser stores *)

Section Shapes.
Context {F : Type} `{PyFloat F}.

Lemma parse_origin_lengths v content (p : pose F) :
  parse_origin v content = Ok p ->
  length (xyz p) = 3 /\ length (rpy p) <= 3 /\ (v = Embedded -> length (rpy p) = 3).
Proof.
  unfold parse_origin.
  destruct (Re.search _ content) as [[g1 g2]|]; [|by intros [= <-]].
  destruct (map_result float (split g1)) as [xs|]; [|done]. rewrite bind_Ok.
  assert (length (take 3 (if length xs <? 3 then zero3 else xs)) = 3) as Hx.
  { destruct (Nat.ltb_spec (length xs) 3); [done|]. rewrite length_take. lia. }
  destruct g2 as [g2|].
  - destruct (map_result float (split g2)) as [rs|]; [|done]. rewrite !bind_Ok.
    intros [= <-]. cbn [xyz rpy]. split; [done|]. rewrite length_take. split; [lia|].
    intros ->. destruct (Nat.ltb_spec (length rs) 3); [done|]. lia.
  - rewrite bind_Ok. intros [= <-]. done.
Qed.

Lemma parse_geometry_box v content (sizes : list F) :
  parse_geometry v content = Ok (Box sizes) -> length sizes = 3.
Proof.
  unfold parse_geometry.
  assert (forall r : result (geometry F),
    r = match Re.search (cylinder_pattern (ignorecase v)) content with
        | Some (g1, g2) => radius ← float g1; length ← float g2; Ok (Cylinder radius length)
        | None => match Re.search (sphere_pattern (ignorecase v)) content with
                  | Some g1 => radius ← float g1; Ok (Sphere radius)
                  | None => Ok default_box
                  end
        end -> r = Ok (Box sizes) -> length sizes = 3) as Hround.
  { intros r ->. destruct (Re.search (cylinder_pattern _) content) as [[g1 g2]|].
    - destruct (float g1); [|done]. rewrite bind_Ok. by destruct (float g2).
    - destruct (Re.search (sphere_pattern _) content) as [g1|].
      + by destruct (float g1).
      + by intros [= <-]. }
  destruct (Re.search (box_pattern _) content) as [g1|]; [|by apply Hround].
  destruct (map_result float (split g1)) as [ss|]; [|done]. rewrite bind_Ok.
  destruct (Nat.leb_spec 3 (length ss)); [|by apply Hround].
  intros [= <-]. rewrite length_take. lia.
Qed.

Lemma unpack3_length {A} (l : list A) : length l = 3 -> exists x y z, unpack3 l = Ok (x, y, z).
Proof. destruct l as [|x [|y [|z [|]]]]; try done. eauto. Qed.

Lemma map_result_elem {A B} (f : A -> result B) l ys y :
  map_result f l = Ok ys -> y ∈ ys -> exists x, x ∈ l /\ f x = Ok y.
Proof.
  revert ys. induction l as [|a l IH]; intros ys Hm Hy; simpl in Hm.
  - injection Hm as <-. by apply elem_of_nil in Hy.
  - destruct (f a) as [b|] eqn:Hfa; [|done]. rewrite bind_Ok in Hm.
    destruct (map_result f l) as [ys'|]; [|done]. rewrite bind_Ok in Hm.
    injection Hm as <-. apply elem_of_cons in Hy as [->|Hy].
    + exists a. split; [left|done].
    + destruct (IH ys' eq_refl Hy) as (x & Hx & Hfx). exists x. split; [by right|done].
Qed.

Lemma embedded_link_shape m (l : link F) :
  embedded_link m = Ok l ->
  length (xyz (link_origin l)) = 3 /\ length (rpy (link_origin l)) = 3 /\
  (forall sizes, link_geometry l = Box sizes -> length sizes = 3).
Proof.
  destruct m as [name content]. unfold embedded_link.
  destruct (Re.search visual_pattern content) as [vc|].
  - destruct (parse_origin Embedded vc) as [o|] eqn:Ho; [|done]. rewrite bind_Ok.
    destruct (parse_geometry Embedded vc) as [g|] eqn:Hg; [|done]. rewrite !bind_Ok.
    intros [= <-]. cbn [link_origin link_geometry].
    destruct (parse_origin_lengths _ _ _ Ho) as (Hx & _ & Hr). specialize (Hr eq_refl).
    split; [|split].
    + by destruct (negb _).
    + by destruct (negb _).
    + intros sizes. destruct (not_default_box g).
      * intros ->. by apply parse_geometry_box in Hg.
      * by intros [= <-].
  - rewrite bind_Ok. intros [= <-]. cbn. split; [done|]. split; [done|]. by intros sizes [= <-].
Qed.

Lemma joint_loop_shape v ms (js : list (joint F)) j :
  joint_loop v ms = Ok js -> j ∈ js ->
  length (xyz (joint_origin j)) = 3 /\ length (rpy (joint_origin j)) <= 3 /\
  (v = Embedded -> length (rpy (joint_origin j)) = 3).
Proof.
  revert js. induction ms as [|[name content] ms IH]; intros js Hjs Hj; simpl in Hjs.
  - injection Hjs as <-. by apply elem_of_nil in Hj.
  - destruct (Re.search parent_pattern content) as [parent|]; [|by eapply IH].
    destruct (Re.search child_pattern content) as [child|]; [|by eapply IH].
    destruct (parse_origin v content) as [o|] eqn:Ho; [|done]. rewrite bind_Ok in Hjs.
    destruct (joint_loop v ms) as [js'|]; [|done]. rewrite bind_Ok in Hjs.
    injection Hjs as <-. apply elem_of_cons in Hj as [->|Hj].
    + cbn [joint_origin]. by apply parse_origin_lengths in Ho.
    + by eapply IH.
Qed.

(** In both copies of the viewer a pose that [parse_origin] returns has
    exactly three translation numbers and at most three rotation numbers; in
    the generated script it has exactly three rotation numbers as well. *)
Theorem parse_origin_three_numbers (v : variant) (content : string) (p : pose F) :
  parse_origin v content = Ok p ->
  length (xyz p) = 3 /\ length (rpy p) <= 3 /\ (v = Embedded -> length (rpy p) = 3).
Proof. apply parse_origin_lengths. Qed.

(** In the generated script every link that [parse_urdf] stores can be
    drawn: the two unpackings of its pose in [draw_link] succeed, and a box
    has the three sizes that [draw_box] reads.  The pose of every joint is
    complete as well. *)
Theorem embedded_links_can_be_drawn (doc : string) (m : model F) :
  parse_urdf Embedded doc = Ok m ->
  (forall l, l ∈ links m ->
     (exists t r, draw_link_pose l = Ok (t, r)) /\
     (forall sizes, link_geometry l = Box sizes -> length sizes = 3)) /\
  (forall j, j ∈ joints m ->
     length (xyz (joint_origin j)) = 3 /\ length (rpy (joint_origin j)) = 3).
Proof.
  unfold parse_urdf. destruct (is_empty doc).
  { intros [= <-]. split; intros x Hx; by apply elem_of_nil in Hx. }
  destruct (map_result embedded_link _) as [ls|] eqn:Hls; [|done]. rewrite bind_Ok.
  destruct (joint_loop Embedded _) as [js|] eqn:Hjs; [|done]. rewrite bind_Ok.
  intros [= <-]. cbn [links joints]. split.
  - intros l Hl. destruct (map_result_elem _ _ _ _ Hls Hl) as (x & _ & Hx).
    destruct (embedded_link_shape _ _ Hx) as (Hxyz & Hrpy & Hbox).
    split; [|done].
    unfold draw_link_pose.
    destruct (unpack3_length _ Hxyz) as (x1 & y1 & z1 & ->).
    destruct (unpack3_length _ Hrpy) as (x2 & y2 & z2 & ->). rewrite !bind_Ok. eauto.
  - intros j Hj. destruct (joint_loop_shape _ _ _ _ Hjs Hj) as (? & _ & Hr). auto.
Qed.

Lemma get_link_type_colour v link_name : is_Some (colors (F := F) !! get_link_type v link_name).
Proof.
  unfold get_link_type.
  destruct v; repeat match goal with |- context [if ?c then _ else _] => destruct c end;
    vm_compute; eauto.
Qed.

(** The type that [parse_urdf] gives a link is always a key of
    [self.colors]: [draw_link] never has to fall back on the colour of
    ['default'] for want of a key. *)
Theorem parsed_link_types_have_colours (v : variant) (doc : string) (m : model F) :
  parse_urdf v doc = Ok m ->
  forall l, l ∈ links m -> is_Some (colors (F := F) !! link_type l).
Proof.
  unfold parse_urdf. destruct (is_empty doc).
  { intros [= <-] l Hl. by apply elem_of_nil in Hl. }
  destruct (map_result _ _) as [ls|] eqn:Hls; [|done]. rewrite bind_Ok.
  destruct (joint_loop v _) as [js|]; [|done]. rewrite bind_Ok.
  intros [= <-] l Hl. cbn [links] in Hl.
  destruct (map_result_elem _ _ _ _ Hls Hl) as ([name content] & _ & Hx).
  assert (link_type l = get_link_type v (link_name l)) as ->; [|apply get_link_type_colour].
  destruct v.
  - unfold standalone_link in Hx.
    destruct (parse_geometry Standalone content); [|done]. rewrite bind_Ok in Hx.
    destruct (parse_origin Standalone content); [|done]. rewrite bind_Ok in Hx.
    by injection Hx as <-.
  - unfold embedded_link in Hx.
    destruct (match Re.search visual_pattern content with Some _ => _ | None => _ end)
      as [[g o]|]; [|done]. rewrite bind_Ok in Hx. by injection Hx as <-.
Qed.

(** In [urdf-3d-viewer.py] a link that [parse_urdf] stores can be drawn
    unless the [rpy] attribute of its origin held fewer than three numbers:
    then, and only then, the unpacking of the rotation in [draw_link] raises
    [ValueError]. *)
Theorem standalone_link_drawn_unless_rotation_short (doc : string) (m : model F) :
  parse_urdf Standalone doc = Ok m ->
  forall l, l ∈ links m ->
    (draw_link_pose l = ValueError <-> length (rpy (link_origin l)) < 3) /\
    (length (rpy (link_origin l)) = 3 -> exists t r, draw_link_pose l = Ok (t, r)) /\
    length (rpy (link_origin l)) <= 3.
Proof.
  unfold parse_urdf. destruct (is_empty doc).
  { intros [= <-] l Hl. by apply elem_of_nil in Hl. }
  destruct (map_result _ _) as [ls|] eqn:Hls; [|done]. rewrite bind_Ok.
  destruct (joint_loop Standalone _) as [js|]; [|done]. rewrite bind_Ok.
  intros [= <-] l Hl. cbn [links] in Hl.
  destruct (map_result_elem _ _ _ _ Hls Hl) as ([name content] & _ & Hx).
  unfold standalone_link in Hx.
  destruct (parse_geometry Standalone content); [|done]. rewrite bind_Ok in Hx.
  destruct (parse_origin Standalone content) as [p|] eqn:Hp; [|done]. rewrite bind_Ok in Hx.
  injection Hx as <-. cbn [link_origin].
  destruct (parse_origin_lengths _ _ _ Hp) as (Hxyz & Hrpy & _).
  unfold draw_link_pose. cbn [link_origin].
  destruct (unpack3_length _ Hxyz) as (x & y & z & ->). rewrite bind_Ok.
  destruct (rpy p) as [|r1 [|r2 [|r3 [|r4 rs]]]]; cbn in Hrpy |- *;
    (split; [split; [done || lia | done || lia] | split; [done || eauto | lia]]).
Qed.

End Shapes.

Lemma parse_origin_three_numbers_witness :
  length (xyz (Pose [1; 2; 3] [0; 1 # 2])%Q) = 3 /\ length (rpy (Pose [1; 2; 3] [0; 1 # 2])%Q) <= 3 /\
  (Standalone = Embedded -> length (rpy (Pose [1; 2; 3] [0; 1 # 2])%Q) = 3).
Proof.
  apply (parse_origin_three_numbers (F := Q) Standalone (py "<origin xyz='1 2 3' rpy='0 0.5'/>")).
  vm_compute. reflexivity.
Defined.

Lemma embedded_links_can_be_drawn_witness :
  (forall l, l ∈ links (Model (F := Q) [Link "arm" (Sphere (1 # 5)) zero_pose "default"] []) ->
     (exists t r, draw_link_pose l = Ok (t, r)) /\
     (forall sizes, link_geometry l = Box sizes -> length sizes = 3)) /\
  (forall j, j ∈ joints (Model (F := Q) [Link "arm" (Sphere (1 # 5)) zero_pose "default"] []) ->
     length (xyz (joint_origin j)) = 3 /\ length (rpy (joint_origin j)) = 3).
Proof.
  apply (embedded_links_can_be_drawn (F := Q) rotated_visual). vm_compute. reflexivity.
Defined.

Lemma parsed_link_types_have_colours_witness :
  Forall (fun l => is_Some (colors (F := Q) !! link_type l))
         (links (Model (F := Q) [Link "arm" (Sphere (1 # 5)) zero_pose "default"] [])).
Proof.
  apply Forall_forall.
  apply (parsed_link_types_have_colours (F := Q) Embedded rotated_visual). vm_compute. reflexivity.
Defined.

Lemma standalone_link_drawn_unless_rotation_short_witness :
  Forall (fun l : link Q =>
            (draw_link_pose l = ValueError <-> length (rpy (link_origin l)) < 3) /\
            (length (rpy (link_origin l)) = 3 -> exists t r, draw_link_pose l = Ok (t, r)) /\
            length (rpy (link_origin l)) <= 3)
         [Link "arm" (Sphere (1 # 5)) (Pose [1; 2; 3] [0; 157 # 100])%Q "link"].
Proof.
  apply Forall_forall.
  apply (standalone_link_drawn_unless_rotation_short (F := Q) short_rotation
           (Model [Link "arm" (Sphere (1 # 5)) (Pose [1; 2; 3] [0; 157 # 100])%Q "link"] [])).
  vm_compute. reflexivity.
Defined.

(** ** The hierarchy of the diagram *)

Lemma joint_path_snoc joints n m k joint :
  joint_path joints n m k -> joint ∈ joints -> edge_parent joint = m ->
  joint_path joints n (edge_child joint) (S k).
Proof.
  revert n. induction k as [|k IH]; intros n Hp Hj Hm.
  - simpl in Hp. subst. exists joint. by repeat split.
  - destruct Hp as (j0 & Hj0 & Hp0 & Hp). exists j0. split; [done|]. split; [done|].
    by apply IH.
Qed.

(** Every visit is the end of a chain of joints from a root, as long as its
    depth, and no deeper than 10. *)
Definition visits_inv (roots : list string) (joints : list edge) (st : hstate) : Prop :=
  forall n d, (n, d) ∈ visits st -> d <= 10 /\ exists root, root ∈ roots /\ joint_path joints root n d.

Lemma foldl_elem_inv {S X} (P : S -> Prop) (f : S -> X -> S) l st :
  (forall st x, x ∈ l -> P st -> P (f st x)) -> P st -> P (foldl f st l).
Proof.
  revert st. induction l as [|x l IH]; intros st Hf Hst; [done|].
  cbn [foldl]. apply IH.
  - intros st' x' Hx'. apply Hf. by right.
  - apply Hf; [left|done].
Qed.

Lemma build_hierarchy_visits_inv roots joints fuel node d st :
  (exists root, root ∈ roots /\ joint_path joints root node d) ->
  visits_inv roots joints st ->
  visits_inv roots joints (build_hierarchy fuel joints node d st).
Proof.
  revert node d st. induction fuel as [|fuel IH]; intros node d st Hnode Hinv; [done|].
  simpl. destruct (Nat.ltb_spec 10 d) as [|Hd]; [done|].
  apply (foldl_elem_inv (visits_inv roots joints)).
  - intros st' j Hj Hst'. destruct (String.eqb_spec (edge_parent j) node) as [Hp|]; [|done].
    apply IH; [|done]. destruct Hnode as (root & Hroot & Hpath).
    exists root. split; [done|]. rewrite Nat.add_1_r. by apply (joint_path_snoc _ _ node).
  - intros n' d' Hin. cbn [visits] in Hin. apply elem_of_app in Hin as [Hin|Hin]; [by apply Hinv|].
    apply list_elem_of_singleton in Hin as [= -> ->]. split; [lia|done].
Qed.

Lemma build_all_visits_inv links joints :
  visits_inv (root_nodes links joints) joints (build_all links joints).
Proof.
  unfold build_all. apply (foldl_elem_inv (visits_inv (root_nodes links joints) joints)).
  - intros st r Hr Hst. apply build_hierarchy_visits_inv; [|done]. by exists r.
  - intros n d Hin. by apply elem_of_nil in Hin.
Qed.

Lemma build_all_depth_inv links joints : depth_inv (build_all links joints).
Proof.
  unfold build_all. generalize (root_nodes links joints). intros roots.
  assert (depth_inv (HState ∅ [])) as H0 by done.
  revert H0. generalize (HState ∅ []).
  induction roots as [|r roots IH]; intros st Hst; [done|].
  cbn [foldl]. by apply IH, build_hierarchy_depth_inv.
Qed.

Lemma first_visit_elem n log d : first_visit n log = Some d -> (n, d) ∈ log.
Proof.
  unfold first_visit. destruct (filter _ log) as [|[n' d'] l] eqn:Hf; [done|].
  intros [= <-]. assert ((n', d') ∈ filter (fun v => v.1 = n) log) as Hin by (rewrite Hf; left).
  apply list_elem_of_filter in Hin as [Hn Hin]. simpl in Hn. by subst.
Qed.

(** The dict only grows. *)
Lemma build_hierarchy_mono fuel joints node d st n :
  is_Some (hierarchy st !! n) -> is_Some (hierarchy (build_hierarchy fuel joints node d st) !! n).
Proof.
  revert node d st. induction fuel as [|fuel IH]; intros node d st Hn; [done|].
  simpl. destruct (10 <? d); [done|].
  apply (foldl_elem_inv (fun st => is_Some (hierarchy st !! n))).
  - intros st' j _ Hst'. destruct (String.eqb (edge_parent j) node); [|done].
    apply IH. cbn [hierarchy]. rewrite lookup_alter.
    case_decide; [|done]. subst. by apply fmap_is_Some.
  - cbn [hierarchy]. destruct (hierarchy st !! node) eqn:Hnode; [done|].
    destruct (decide (node = n)) as [->|]; [by rewrite lookup_insert_eq|by rewrite lookup_insert_ne].
Qed.

Lemma foldl_elem_reach {S X} (P : S -> Prop) (f : S -> X -> S) l x st :
  x ∈ l -> (forall st, P (f st x)) -> (forall st y, P st -> P (f st y)) -> P (foldl f st l).
Proof.
  intros Hx Hfx Hf. revert st. induction l as [|y l IH]; intros st; [by apply elem_of_nil in Hx|].
  cbn [foldl]. apply elem_of_cons in Hx as [<-|Hx]; [|by apply IH].
  apply foldl_elem_inv; [|done]. intros st' y' _. apply Hf.
Qed.

(** Every node within reach of a visited node is visited too, down to
    depth 10. *)
Lemma build_hierarchy_reach fuel joints node d st m k :
  d + k <= 10 -> 10 < fuel + d -> joint_path joints node m k ->
  is_Some (hierarchy (build_hierarchy fuel joints node d st) !! m).
Proof.
  revert node d st k. induction fuel as [|fuel IH]; intros node d st k Hk Hfuel Hpath; [lia|].
  simpl. destruct (Nat.ltb_spec 10 d) as [|Hd]; [lia|].
  set (step := fun (st : hstate) (joint : edge) =>
                 if String.eqb (edge_parent joint) node
                 then build_hierarchy fuel joints (edge_child joint) (d + 1)
                        (HState (alter (append_child (edge_child joint)) node (hierarchy st)) (visits st))
                 else st).
  assert (forall st x, is_Some (hierarchy st !! m) -> is_Some (hierarchy (step st x) !! m)) as Hstep.
  { intros st0 x Hm. unfold step. destruct (String.eqb (edge_parent x) node); [|done].
    apply build_hierarchy_mono. cbn [hierarchy]. rewrite lookup_alter.
    case_decide; [|done]. subst. by apply fmap_is_Some. }
  destruct k as [|k].
  - simpl in Hpath. subst m. apply (foldl_elem_inv (fun st => is_Some (hierarchy st !! node))).
    + intros st' j _. apply Hstep.
    + cbn [hierarchy].
      destruct (hierarchy st !! node) eqn:Hnode; [by rewrite Hnode|by rewrite lookup_insert_eq].
  - destruct Hpath as (j & Hj & Hp & Hpath).
    apply (foldl_elem_reach (fun st => is_Some (hierarchy st !! m)) step joints j); [done| |done].
    intros st'. unfold step. rewrite <- Hp, String.eqb_refl. rewrite Hp.
    apply (IH _ _ _ k); [lia|lia|done].
Qed.

Lemma build_all_reach links joints root m k :
  root ∈ root_nodes links joints -> k <= 10 -> joint_path joints root m k ->
  is_Some (hierarchy (build_all links joints) !! m).
Proof.
  intros Hroot Hk Hpath. unfold build_all.
  apply (foldl_elem_reach (fun st => is_Some (hierarchy st !! m)) _ _ root); [done| |].
  - intros st. apply (build_hierarchy_reach _ _ _ _ _ _ k); [lia|lia|done].
  - intros st r. apply build_hierarchy_mono.
Qed.

(** The hierarchy holds exactly the nodes that a chain of at most ten
    joints links to a root, and the depth it records for a node is the
    length of such a chain. *)
Theorem hierarchy_is_reach_of_roots (links : list string) (joints : list edge) (node : string) :
  (forall info, hierarchy (build_all links joints) !! node = Some info ->
     depth info <= 10 /\
     exists root, root ∈ root_nodes links joints /\ joint_path joints root node (depth info)) /\
  (forall root k, root ∈ root_nodes links joints -> k <= 10 -> joint_path joints root node k ->
     is_Some (hierarchy (build_all links joints) !! node)).
Proof.
  split.
  - intros info Hn. apply (build_all_visits_inv links joints).
    apply first_visit_elem. by rewrite <- (build_all_depth_inv links joints), Hn.
  - intros root k. apply build_all_reach.
Qed.

Lemma joint_path_child joints n m k :
  joint_path joints n m (S k) -> exists joint, joint ∈ joints /\ edge_child joint = m.
Proof.
  revert n. induction k as [|k IH]; intros n (j & Hj & _ & Hp).
  - simpl in Hp. by exists j.
  - by apply (IH (edge_child j)).
Qed.

(** The log only grows, at its end. *)
Lemma build_hierarchy_visits_prefix fuel joints node d st :
  exists log, visits (build_hierarchy fuel joints node d st) = visits st ++ log.
Proof.
  revert node d st. induction fuel as [|fuel IH]; intros node d st.
  { exists []. by rewrite app_nil_r. }
  simpl. destruct (10 <? d). { exists []. by rewrite app_nil_r. }
  apply (foldl_elem_inv (fun st' => exists log, visits st' = visits st ++ log)).
  - intros st' j _ [log Hlog]. destruct (String.eqb (edge_parent j) node); [|by exists log].
    destruct (IH (edge_child j) (d + 1)
                (HState (alter (append_child (edge_child j)) node (hierarchy st')) (visits st')))
      as [log' Hlog'].
    exists (log ++ log'). rewrite Hlog'. cbn [visits]. by rewrite Hlog, app_assoc.
  - by exists [(node, d)].
Qed.

Lemma build_hierarchy_visits_start fuel joints node d st :
  d <= 10 ->
  exists log, visits (build_hierarchy (S fuel) joints node d st) = visits st ++ (node, d) :: log.
Proof.
  intros Hd. simpl. destruct (Nat.ltb_spec 10 d) as [|_]; [lia|].
  apply (foldl_elem_inv (fun st' => exists log, visits st' = visits st ++ (node, d) :: log)).
  - intros st' j _ [log Hlog]. destruct (String.eqb (edge_parent j) node); [|by exists log].
    destruct (build_hierarchy_visits_prefix fuel joints (edge_child j) (d + 1)
                (HState (alter (append_child (edge_child j)) node (hierarchy st')) (visits st')))
      as [log' Hlog'].
    exists (log ++ log'). rewrite Hlog'. cbn [visits]. by rewrite Hlog, <- app_assoc.
  - by exists [].
Qed.

Lemma first_visit_head n d log : first_visit n ((n, d) :: log) = Some d.
Proof. unfold first_visit. rewrite filter_cons. simpl. by case_decide. Qed.

Lemma root_nodes_nonempty links joints : links <> [] -> root_nodes links joints <> [].
Proof. unfold root_nodes. destruct (filter _ links); [|done]. by destruct links. Qed.

Lemma root_in_hierarchy links joints root :
  root ∈ root_nodes links joints ->
  root ∈ links /\
  exists info, hierarchy (build_all links joints) !! root = Some info /\ depth info = 0.
Proof.
  intros Hroot.
  destruct (build_all_reach links joints root root 0 Hroot) as [info Hinfo]; [lia|done|].
  assert (first_visit root (visits (build_all links joints)) = Some (depth info)) as Hfirst.
  { by rewrite <- (build_all_depth_inv links joints), Hinfo. }
  assert (root ∈ links /\ depth info = 0) as [? ?]; [|by eauto].
  destruct (filter (fun link => link ∉ (list_to_set (edge_child <$> joints) : gset string)) links)
    as [|r rs] eqn:Hf.
  - assert (exists links', links = root :: links' /\ root_nodes links joints = [root])
      as (links' & -> & Hroots).
    { unfold root_nodes in *. rewrite Hf in *. destruct links as [|l0 links'].
      - by apply elem_of_nil in Hroot.
      - apply list_elem_of_singleton in Hroot as ->. by exists links'. }
    split; [left|]. unfold build_all in Hfirst. rewrite Hroots in Hfirst. cbn [foldl] in Hfirst.
    destruct (build_hierarchy_visits_start 11 joints root 0 (HState ∅ [])) as [log Hlog]; [lia|].
    rewrite Hlog in Hfirst. cbn [visits app] in Hfirst. rewrite first_visit_head in Hfirst.
    by injection Hfirst.
  - assert (root_nodes links joints = r :: rs) as Hroots.
    { unfold root_nodes. by rewrite Hf. }
    rewrite Hroots, <- Hf in Hroot. apply list_elem_of_filter in Hroot as [Hnc Hin].
    split; [done|].
    apply first_visit_elem in Hfirst. apply (build_all_visits_inv links joints) in Hfirst.
    destruct Hfirst as (_ & root' & _ & Hpath). destruct (depth info) as [|k]; [done|].
    apply joint_path_child in Hpath as (j & Hj & Hc). exfalso. apply Hnc.
    apply elem_of_list_to_set, list_elem_of_fmap. by exists j.
Qed.

(** The roots are links, and there is a root as soon as there is a link:
    the first link when every link is the child of a joint.  Every root is in
    the hierarchy, at depth 0. *)
Theorem roots_at_depth_zero (links : list string) (joints : list edge) :
  (links <> [] -> root_nodes links joints <> []) /\
  (forall root, root ∈ root_nodes links joints ->
     root ∈ links /\
     exists info, hierarchy (build_all links joints) !! root = Some info /\ depth info = 0).
Proof. split; [apply root_nodes_nonempty|apply root_in_hierarchy]. Qed.

Lemma foldl_max_le (l : list nat) (x : nat) : x <= foldl max x l.
Proof. revert x. induction l as [|y l IH]; intros x; [done|]. cbn [foldl]. etrans; [|apply IH]. lia. Qed.

Lemma foldl_max_elem (l : list nat) (x y : nat) : y ∈ l -> y <= foldl max x l.
Proof.
  revert x. induction l as [|z l IH]; intros x Hy; [by apply elem_of_nil in Hy|].
  cbn [foldl]. apply elem_of_cons in Hy as [->|Hy]; [|by apply IH].
  etrans; [|apply foldl_max_le]. lia.
Qed.

Lemma foldl_max_attained (l : list nat) (x : nat) : foldl max x l = x \/ foldl max x l ∈ l.
Proof.
  revert x. induction l as [|z l IH]; intros x; [by left|]. cbn [foldl].
  destruct (IH (x `max` z)) as [Heq|Hin]; [|right; by right].
  rewrite Heq. destruct (Nat.max_spec x z) as [[_ ->]|[_ ->]]; [right; left|by left].
Qed.

Lemma max_depth_ge (h : gmap string hnode) node info :
  h !! node = Some info -> depth info <= max_depth h.
Proof.
  intros Hn. unfold max_depth.
  assert (depth info ∈ depth <$> (map_to_list h).*2) as Hin.
  { apply list_elem_of_fmap. exists info. split; [done|]. apply list_elem_of_fmap.
    exists (node, info). split; [done|]. by apply elem_of_map_to_list. }
  destruct ((map_to_list h).*2) as [|info0 infos]; [by apply elem_of_nil in Hin|].
  rewrite fmap_cons in Hin. apply elem_of_cons in Hin as [->|Hin]; [apply foldl_max_le|].
  by apply foldl_max_elem.
Qed.

Lemma max_depth_attained (h : gmap string hnode) :
  h <> ∅ -> exists node info, h !! node = Some info /\ depth info = max_depth h.
Proof.
  intros Hne. unfold max_depth.
  assert (forall info, info ∈ (map_to_list h).*2 -> exists node, h !! node = Some info) as Hin.
  { intros info ([node info'] & -> & Hp)%list_elem_of_fmap. exists node.
    by apply elem_of_map_to_list. }
  destruct ((map_to_list h).*2) as [|info0 infos] eqn:Hl.
  { apply fmap_nil_inv in Hl. by apply map_to_list_empty_iff in Hl. }
  destruct (foldl_max_attained (depth <$> infos) (depth info0)) as [->|Hm].
  - destruct (Hin info0) as [node Hnode]; [by left|]. by exists node, info0.
  - apply list_elem_of_fmap in Hm as (info & Hd & Hi).
    destruct (Hin info) as [node Hnode]; [by right|]. by exists node, info.
Qed.

(** Every node of the diagram is put on one of at most eleven rows,
    numbered from 0 at the bottom: the roots on the top row, the nodes of
    greatest depth on row 0, which is not empty as soon as there is a link. *)
Theorem diagram_rows (links : list string) (joints : list edge) :
  let h := hierarchy (build_all links joints) in
  (forall node y, y_positions h !! node = Some y -> (0 <= y <= Z.of_nat (max_depth h))%Z /\ max_depth h <= 10) /\
  (forall root, root ∈ root_nodes links joints ->
     y_positions h !! root = Some (Z.of_nat (max_depth h))) /\
  (links <> [] -> exists node, y_positions h !! node = Some 0%Z).
Proof.
  cbv zeta. set (h := hierarchy (build_all links joints)).
  assert (forall node info, h !! node = Some info -> depth info <= 10) as Hten.
  { intros node info Hn.
    destruct (build_all_visits_inv links joints node (depth info)) as [Hd _]; [|done].
    apply first_visit_elem. unfold h in Hn.
    by rewrite <- (build_all_depth_inv links joints), Hn. }
  split; [|split].
  - intros node y. unfold y_positions. rewrite lookup_fmap.
    destruct (h !! node) as [info|] eqn:Hn; [|done]. intros [= <-].
    pose proof (max_depth_ge h node info Hn).
    destruct (max_depth_attained h) as (node' & info' & Hn' & Hd'); [by intros Hh; rewrite Hh in Hn|].
    apply Hten in Hn'. lia.
  - intros root Hroot. destruct (root_in_hierarchy links joints root Hroot) as (_ & info & Hn & Hd).
    unfold y_positions. rewrite lookup_fmap. fold h in Hn. rewrite Hn. cbn. f_equal. lia.
  - intros Hlinks. pose proof (root_nodes_nonempty links joints Hlinks) as Hroots.
    destruct (root_nodes links joints) as [|root roots] eqn:Hr; [done|].
    destruct (root_in_hierarchy links joints root) as (_ & info0 & Hn0 & _); [rewrite Hr; by left|].
    destruct (max_depth_attained h) as (node & info & Hn & Hd).
    { intros Hh. fold h in Hn0. by rewrite Hh in Hn0. }
    exists node. unfold y_positions. rewrite lookup_fmap, Hn. cbn. f_equal. lia.
Qed.

(** The guard [depth > 10] ends the recursion on every joint list, cyclic
    ones included: no call nests more than twelve deep, so any further
    allowance changes nothing. *)
Theorem hierarchy_recursion_ends (extra : nat) (joints : list edge) (node : string) (st : hstate) :
  build_hierarchy (12 + extra) joints node 0 st = build_hierarchy 12 joints node 0 st.
Proof. apply build_hierarchy_fuel; lia. Qed.

Lemma hierarchy_is_reach_of_roots_witness :
  (forall info, hierarchy (build_all ["A"; "B"; "C"] diamond) !! "C" = Some info ->
     depth info <= 10 /\
     exists root, root ∈ root_nodes ["A"; "B"; "C"] diamond /\
                  joint_path diamond root "C" (depth info)) /\
  (forall root k, root ∈ root_nodes ["A"; "B"; "C"] diamond -> k <= 10 ->
     joint_path diamond root "C" k ->
     is_Some (hierarchy (build_all ["A"; "B"; "C"] diamond) !! "C")).
Proof. exact (hierarchy_is_reach_of_roots ["A"; "B"; "C"] diamond "C"). Defined.

Lemma roots_at_depth_zero_witness :
  (["A"; "B"; "C"] <> [] -> root_nodes ["A"; "B"; "C"] diamond <> []) /\
  (forall root, root ∈ root_nodes ["A"; "B"; "C"] diamond ->
     root ∈ ["A"; "B"; "C"] /\
     exists info, hierarchy (build_all ["A"; "B"; "C"] diamond) !! root = Some info /\
                  depth info = 0).
Proof. exact (roots_at_depth_zero ["A"; "B"; "C"] diamond). Defined.

Lemma diagram_rows_witness :
  let h := hierarchy (build_all ["A"; "B"; "C"] diamond) in
  (forall node y, y_positions h !! node = Some y -> (0 <= y <= Z.of_nat (max_depth h))%Z /\ max_depth h <= 10) /\
  (forall root, root ∈ root_nodes ["A"; "B"; "C"] diamond ->
     y_positions h !! root = Some (Z.of_nat (max_depth h))) /\
  (["A"; "B"; "C"] <> [] -> exists node, y_positions h !! node = Some 0%Z).
Proof. exact (diagram_rows ["A"; "B"; "C"] diamond). Defined.

(** ** The unified diff of [compare_commits] and its rendering *)

(** The opcodes that stand for a change. *)
Definition is_change (op : opcode) : bool :=
  match op_tag op with
  | Equal => false
  | _ => true
  end.

Lemma filter_is_change_app l1 l2 :
  List.filter is_change (l1 ++ l2) = List.filter is_change l1 ++ List.filter is_change l2.
Proof. apply List.filter_app. Qed.

Lemma fix_first_changes n codes :
  List.filter is_change (fix_first n codes) = List.filter is_change codes.
Proof. by destruct codes as [|[[] i1 i2 j1 j2] rest]. Qed.

Lemma fix_last_changes n codes :
  List.filter is_change (fix_last n codes) = List.filter is_change codes.
Proof.
  unfold fix_last. destruct (last codes) as [[tag i1 i2 j1 j2]|] eqn:Hlast; [|done].
  destruct tag; try done.
  apply last_Some in Hlast as [init ->].
  rewrite length_app, Nat.add_sub. cbn [length].
  rewrite insert_app_r_alt by lia. rewrite Nat.sub_diag. cbn.
  by rewrite !filter_is_change_app.
Qed.

Lemma group_step_changes n groups group op :
  let '(groups', group') := group_step n (groups, group) op in
  List.filter is_change (concat groups' ++ group')
  = List.filter is_change (concat groups ++ group) ++ List.filter is_change [op].
Proof.
  destruct op as [tag i1 i2 j1 j2]. unfold group_step.
  destruct tag; try (by rewrite app_assoc, (filter_is_change_app (_ ++ _))).
  destruct (n + n <? i2 - i1); cbv beta iota.
  - rewrite concat_app. cbn [concat]. rewrite app_nil_r, !filter_is_change_app. cbn.
    by rewrite !app_nil_r.
  - by rewrite app_assoc, (filter_is_change_app (_ ++ _)).
Qed.

Lemma group_loop_changes n codes groups group :
  let '(groups', group') := foldl (group_step n) (groups, group) codes in
  List.filter is_change (concat groups' ++ group')
  = List.filter is_change (concat groups ++ group) ++ List.filter is_change codes.
Proof.
  revert groups group. induction codes as [|op codes IH]; intros groups group.
  - cbn [foldl]. by rewrite app_nil_r.
  - cbn [foldl]. pose proof (group_step_changes n groups group op) as Hstep.
    destruct (group_step n (groups, group) op) as [groups1 group1].
    specialize (IH groups1 group1).
    destruct (foldl (group_step n) (groups1, group1) codes) as [groups' group'].
    rewrite IH, Hstep, <- app_assoc.
    change (op :: codes) with ([op] ++ codes). by rewrite (filter_is_change_app [op]).
Qed.

(** Grouping keeps every change, in its order; only the runs of equal
    lines are cut. *)
Lemma grouped_changes {A} `{Countable A} n (a b : list A) :
  List.filter is_change (concat (get_grouped_opcodes n a b))
  = List.filter is_change (get_opcodes (fun _ => false) a b).
Proof.
  unfold get_grouped_opcodes.
  set (codes := match get_opcodes _ a b with [] => _ | _ => _ end).
  assert (List.filter is_change codes = List.filter is_change (get_opcodes (fun _ => false) a b))
    as <-.
  { unfold codes. by destruct (get_opcodes _ a b). }
  rewrite <- (fix_first_changes n codes), <- (fix_last_changes n (fix_first n codes)).
  pose proof (group_loop_changes n (fix_last n (fix_first n codes)) [] []) as Hloop.
  destruct (foldl (group_step n) ([], []) (fix_last n (fix_first n codes))) as [groups group].
  cbn [concat app List.filter] in Hloop. rewrite <- Hloop.
  destruct group as [|[[] i1 i2 j1 j2] [|op group]];
    rewrite ?concat_app, ?filter_is_change_app; cbn [concat]; rewrite ?app_nil_r; try done.
Qed.

Section UnifiedCounts.
Variables a b : list string.

(** The lines of one opcode: as many [-] lines as old lines and as many
    [+] lines as new lines of a change, none of either for equal lines. *)
Lemma unified_lines_counts op :
  op_i2 op <= length a -> op_j2 op <= length b ->
  count (startswith "-") (unified_lines a b op)
  = (match op_tag op with Replace | Delete => op_i2 op - op_i1 op | _ => 0 end) /\
  count (startswith "+") (unified_lines a b op)
  = (match op_tag op with Replace | Insert => op_j2 op - op_j1 op | _ => 0 end).
Proof.
  intros Hi Hj. unfold unified_lines.
  assert (length (take (op_i2 op - op_i1 op) (drop (op_i1 op) a)) = op_i2 op - op_i1 op) as Ha.
  { rewrite length_take, length_drop. lia. }
  assert (length (take (op_j2 op - op_j1 op) (drop (op_j1 op) b)) = op_j2 op - op_j1 op) as Hb.
  { rewrite length_take, length_drop. lia. }
  destruct (op_tag op); rewrite ?count_app;
    rewrite ?(count_fmap_const (startswith "-") (fun line => "-" +:+ line) true),
            ?(count_fmap_const (startswith "+") (fun line => "-" +:+ line) false),
            ?(count_fmap_const (startswith "-") (fun line => "+" +:+ line) false),
            ?(count_fmap_const (startswith "+") (fun line => "+" +:+ line) true),
            ?(count_fmap_const (startswith "-") (fun line => " " +:+ line) false),
            ?(count_fmap_const (startswith "+") (fun line => " " +:+ line) false) by done;
    lia.
Qed.

Lemma unified_lines_equal (p : string) op :
  op_tag op = Equal -> p = "+" \/ p = "-" -> count (startswith p) (unified_lines a b op) = 0.
Proof.
  intros Ht Hp. unfold unified_lines. rewrite Ht.
  destruct Hp as [-> | ->]; by rewrite (count_fmap_const _ _ false).
Qed.

Lemma unified_changes_counts (p : string) ops :
  p = "+" \/ p = "-" ->
  count (startswith p) (ops ≫= unified_lines a b)
  = count (startswith p) (List.filter is_change ops ≫= unified_lines a b).
Proof.
  intros Hp. induction ops as [|op ops IH]; [done|].
  rewrite bind_cons, count_app, IH. cbn [List.filter]. unfold is_change at 2.
  destruct (op_tag op) eqn:Ht; rewrite ?bind_cons, ?count_app; try done.
  by rewrite unified_lines_equal.
Qed.

Lemma unified_group_counts (p : string) group :
  p = "+" \/ p = "-" ->
  count (startswith p) (unified_group a b group)
  = count (startswith p) (group ≫= unified_lines a b).
Proof.
  intros Hp. unfold unified_group. destruct group as [|first group]; [done|].
  cbn [head]. destruct (last (first :: group)) eqn:Hlast.
  - rewrite count_cons. by destruct Hp as [-> | ->].
  - by apply last_None in Hlast.
Qed.

Lemma unified_groups_counts (p : string) groups :
  p = "+" \/ p = "-" ->
  count (startswith p) (groups ≫= unified_group a b)
  = count (startswith p) (concat groups ≫= unified_lines a b).
Proof.
  intros Hp. induction groups as [|group groups IH]; [done|].
  cbn [concat]. by rewrite bind_cons, bind_app, !count_app, IH, unified_group_counts.
Qed.

(** The sizes of the matching blocks together. *)
Definition matched (blocks : list block) : nat := foldr (fun x n => x.2 + n) 0 blocks.

Lemma gap_unified_counts i ai j bj :
  i <= ai -> ai <= length a -> j <= bj -> bj <= length b ->
  let gap := if (i <? ai) && (j <? bj) then [Opcode Replace i ai j bj]
             else if i <? ai then [Opcode Delete i ai j bj]
             else if j <? bj then [Opcode Insert i ai j bj]
             else [] in
  count (startswith "-") (gap ≫= unified_lines a b) = ai - i /\
  count (startswith "+") (gap ≫= unified_lines a b) = bj - j.
Proof.
  intros ? ? ? ?.
  destruct (Nat.ltb_spec i ai), (Nat.ltb_spec j bj); cbn [andb]; cbv zeta;
    rewrite ?bind_cons, ?bind_nil, ?app_nil_r.
  - destruct (unified_lines_counts (Opcode Replace i ai j bj)) as [-> ->]; done.
  - destruct (unified_lines_counts (Opcode Delete i ai j bj)) as [-> ->]; cbn; [lia..|]. lia.
  - destruct (unified_lines_counts (Opcode Insert i ai j bj)) as [-> ->]; cbn; [lia..|]. lia.
  - unfold count. simpl. lia.
Qed.

Lemma opcodes_unified_counts blocks i j :
  chain i j blocks (length a) (length b) ->
  count (startswith "-") (opcodes_from i j (blocks ++ [(length a, length b, 0)]) ≫= unified_lines a b)
  + matched blocks = length a - i /\
  count (startswith "+") (opcodes_from i j (blocks ++ [(length a, length b, 0)]) ≫= unified_lines a b)
  + matched blocks = length b - j.
Proof.
  revert i j. induction blocks as [|[[ai bj] k] blocks IH]; intros i j Hc.
  - simpl in Hc. cbn [app opcodes_from matched foldr]. replace (0 <? 0) with false by done.
    rewrite !app_nil_r, !Nat.add_0_r. apply gap_unified_counts; lia.
  - destruct Hc as (? & ? & Hc). pose proof (chain_start _ _ _ _ _ Hc) as [? ?].
    rewrite <- app_comm_cons. cbn [opcodes_from matched foldr]. fold (matched blocks).
    rewrite !bind_app, !count_app.
    destruct (gap_unified_counts i ai j bj) as [-> ->]; [lia..|].
    destruct (IH _ _ Hc) as [IH1 IH2]. cbn [snd].
    destruct (Nat.ltb_spec 0 k).
    + rewrite bind_cons, bind_nil, app_nil_r.
      rewrite !unified_lines_equal by auto.
      lia.
    + rewrite bind_nil. change (count ?f (@nil string)) with 0. lia.
Qed.

Lemma opcodes_net_change :
  count (startswith "+") (get_opcodes (fun _ => false) a b ≫= unified_lines a b) + length a
  = count (startswith "-") (get_opcodes (fun _ => false) a b ≫= unified_lines a b) + length b.
Proof.
  rewrite get_opcodes_from.
  destruct (get_matching_blocks_chain (fun _ => false) a b) as (blocks & -> & Hc).
  destruct (opcodes_unified_counts blocks 0 0 Hc) as [H1 H2]. unfold block in *. lia.
Qed.

Lemma unified_diff_counts (p fromfile tofile : string) :
  p = "+" \/ p = "-" ->
  count (startswith p) (unified_diff a b fromfile tofile)
  = (match get_grouped_opcodes 3 a b with [] => 0 | _ => 1 end)
    + count (startswith p) (get_opcodes (fun _ => false) a b ≫= unified_lines a b).
Proof.
  intros Hp. rewrite (unified_changes_counts p (get_opcodes _ a b)) by done.
  rewrite <- (grouped_changes 3 a b), <- unified_changes_counts, <- unified_groups_counts by done.
  unfold unified_diff. destruct (get_grouped_opcodes 3 a b) as [|g gs]; [done|].
  rewrite count_app. by destruct Hp as [-> | ->].
Qed.

End UnifiedCounts.

(** In the unified diff of two texts the added lines outnumber the removed
    ones by as much as the second text has more lines than the first; the
    two header lines count as one of each. *)
Theorem unified_diff_net_change (old_content new_content old_sha new_sha : string)
  (diff : list string) :
  compare_commits old_content new_content old_sha new_sha = Some diff ->
  count (startswith "+") diff + length (splitlines old_content)
  = count (startswith "-") diff + length (splitlines new_content).
Proof.
  unfold compare_commits. destruct (_ || _); [done|]. intros [= <-].
  rewrite !unified_diff_counts by auto.
  pose proof (opcodes_net_change (splitlines old_content) (splitlines new_content)). lia.
Qed.

Lemma get_grouped_opcodes_identical {A} `{Countable A} n (a : list A) :
  get_grouped_opcodes n a a = [].
Proof.
  unfold get_grouped_opcodes. rewrite get_opcodes_identical.
  assert (forall i2, fix_last n (fix_first n [Opcode Equal 0 i2 0 i2])
                     = [Opcode Equal (max 0 (i2 - n)) (min i2 (max 0 (i2 - n) + n))
                                     (max 0 (i2 - n)) (min i2 (max 0 (i2 - n) + n))]) as Hfix by done.
  assert (forall i2, foldl (group_step n) ([], []) (fix_last n (fix_first n [Opcode Equal 0 i2 0 i2]))
                     = ([], [Opcode Equal (max 0 (i2 - n)) (min i2 (max 0 (i2 - n) + n))
                                          (max 0 (i2 - n)) (min i2 (max 0 (i2 - n) + n))])) as Hloop.
  { intros i2. rewrite Hfix. cbn [foldl group_step].
    by replace (n + n <? _) with false by (symmetry; apply Nat.ltb_ge; lia). }
  destruct (0 <? length a); by rewrite Hloop.
Qed.

(** A text compared with itself has an empty diff, and the page shows the
    block for no changes. *)
Theorem same_text_shows_no_changes (no_changes t old_sha new_sha : string) (max_lines : Z) :
  compare_commits t t old_sha new_sha = (if is_empty t then None else Some []) /\
  create_diff_html no_changes (compare_commits t t old_sha new_sha) max_lines
  = "<div style='padding: 20px; background: #f8f9fa; border-radius: 5px;'>" +:+ no_changes +:+ "</div>".
Proof.
  unfold compare_commits, unified_diff. rewrite get_grouped_opcodes_identical, orb_diag.
  by destruct (is_empty t).
Qed.

Lemma html_lines_cut max_lines line_count diff_lines :
  html_lines max_lines line_count diff_lines
  = (diff_line_html <$> take (Z.to_nat max_lines - line_count) diff_lines) ++
    (if Z.to_nat max_lines - line_count <? length diff_lines
     then ["<div style='color: #666; padding: 5px; font-weight: bold;'>...</div>"] else []).
Proof.
  revert line_count. induction diff_lines as [|line rest IH]; intros line_count.
  - by rewrite take_nil.
  - cbn [html_lines]. destruct (Z.leb_spec max_lines (Z.of_nat line_count)).
    + by replace (Z.to_nat max_lines - line_count) with 0 by lia.
    + rewrite IH. replace (Z.to_nat max_lines - line_count)
        with (S (Z.to_nat max_lines - (line_count + 1))) by lia.
      cbn [take fmap list_fmap app length]. f_equal.
Qed.

(** For a diff that is not empty the page shows the first [max_lines]
    lines of the diff, each in its own block, and one block of dots after
    them when the diff is longer. *)
Theorem diff_html_cut_off (no_changes : string) (diff_lines : list string) (max_lines : Z) :
  diff_lines <> [] ->
  create_diff_html no_changes (Some diff_lines) max_lines
  = "<div style='max-height: 500px; overflow-y: auto; border: 1px solid #dee2e6; border-radius: 5px;'>"
    +:+ String.concat ""
          ((diff_line_html <$> take (Z.to_nat max_lines) diff_lines) ++
           (if Z.to_nat max_lines <? length diff_lines
            then ["<div style='color: #666; padding: 5px; font-weight: bold;'>...</div>"]
            else []))
    +:+ "</div>".
Proof.
  intros Hne. unfold create_diff_html. destruct diff_lines as [|line rest]; [done|].
  rewrite html_lines_cut. by rewrite Nat.sub_0_r.
Qed.

Lemma unified_diff_net_change_witness :
  count (startswith "+") (unified_diff (splitlines tide) (splitlines diet) "a/0123abcd" "b/4567cdef")
  + length (splitlines tide)
  = count (startswith "-") (unified_diff (splitlines tide) (splitlines diet) "a/0123abcd" "b/4567cdef")
    + length (splitlines diet).
Proof.
  apply (unified_diff_net_change tide diet "0123abcdef" "4567cdef01"). vm_compute. reflexivity.
Defined.

Lemma diff_html_cut_off_witness :
  create_diff_html "-" (Some ["--- a/1"; "+++ b/2"; "@@ -1 +1 @@"; "-x"; "+y"]) 3
  = "<div style='max-height: 500px; overflow-y: auto; border: 1px solid #dee2e6; border-radius: 5px;'>"
    +:+ String.concat ""
          ((diff_line_html <$> take (Z.to_nat 3) ["--- a/1"; "+++ b/2"; "@@ -1 +1 @@"; "-x"; "+y"]) ++
           (if Z.to_nat 3 <? length ["--- a/1"; "+++ b/2"; "@@ -1 +1 @@"; "-x"; "+y"]
            then ["<div style='color: #666; padding: 5px; font-weight: bold;'>...</div>"]
            else []))
    +:+ "</div>".
Proof. apply (diff_html_cut_off "-" ["--- a/1"; "+++ b/2"; "@@ -1 +1 @@"; "-x"; "+y"] 3). discriminate. Defined.

(** ** The counts of [analyze_urdf] *)

Section Matches.
Context {R : Type}.

(** The matches that [re.finditer] returns start at positions where the
    pattern matches. *)
Lemma finditer_go_positions (m : string -> option (R * string)) skip s :
  length (Re.finditer_go m skip s) <= length (Re.positions m s).
Proof.
  revert skip. induction s as [|c s IH]; intros skip.
  - destruct skip; simpl; [|lia]. destruct (m EmptyString) as [[r rest]|]; simpl; lia.
  - destruct skip as [|k]; cbn [Re.finditer_go Re.positions]; rewrite length_app, length_fmap.
    + destruct (m (String c s)) as [[r rest]|]; cbn [length]; [|apply IH].
      specialize (IH (String.length (String c s) - String.length rest - 1)). lia.
    + specialize (IH k). lia.
Qed.

End Matches.

Lemma positions_mono {R1 R2} (m1 : string -> option R1) (m2 : string -> option R2) s :
  (forall s, is_Some (m1 s) -> is_Some (m2 s)) ->
  length (Re.positions m1 s) <= length (Re.positions m2 s).
Proof.
  intros Hm. induction s as [|c s IH]; cbn [Re.positions]; rewrite !length_app, ?length_fmap.
  - destruct (m1 EmptyString) eqn:H1; [|simpl; lia].
    destruct (Hm EmptyString) as [r2 ->]; [by rewrite H1|]. done.
  - assert (length (match m1 (String c s) with Some _ => [0] | None => [] end)
            <= length (match m2 (String c s) with Some _ => [0] | None => [] end)).
    { destruct (m1 (String c s)) eqn:H1; [|simpl; lia].
      destruct (Hm (String c s)) as [r2 ->]; [by rewrite H1|]. done. }
    lia.
Qed.

(** A pattern none of whose matches has another match starting inside it:
    [re.finditer] then returns a match for every position at which the
    pattern matches. *)
Definition no_overlap {R} (m : string -> option (R * string)) : Prop :=
  forall s r rest d, m s = Some (r, rest) ->
    0 < d -> d < String.length s - String.length rest -> m (drop_chars d s) = None.

Lemma finditer_go_all {R} (m : string -> option (R * string)) skip s :
  no_overlap m ->
  (forall d, d < skip -> m (drop_chars d s) = None) ->
  length (Re.finditer_go m skip s) = length (Re.positions m s).
Proof.
  intros Hno. revert skip. induction s as [|c s IH]; intros skip Hskip.
  - destruct skip; simpl; [by destruct (m EmptyString) as [[r rest]|]|].
    pose proof (Hskip 0 ltac:(lia)) as H0. simpl in H0. by rewrite H0.
  - destruct skip as [|k]; cbn [Re.finditer_go Re.positions]; rewrite length_app, length_fmap.
    + destruct (m (String c s)) as [[r rest]|] eqn:Hm; cbn [length].
      * f_equal. apply IH. intros d Hd.
        apply (Hno (String c s) r rest (S d)); [done|lia|]. simpl in *. lia.
      * apply IH. intros d Hd. lia.
    + pose proof (Hskip 0 ltac:(lia)) as H0. cbn [drop_chars] in H0. rewrite H0. apply IH. intros d Hd. apply (Hskip (S d)). lia.
Qed.

Lemma string_length_append s t : String.length (s +:+ t) = String.length s + String.length t.
Proof. induction s as [|c s IH]; [done|]. simpl. by rewrite IH. Qed.

Lemma lit_false_inv p s rest : Re.lit false p s = Some rest -> s = p +:+ rest.
Proof.
  revert s. induction p as [|a p IH]; intros s; simpl.
  - by intros [= ->].
  - destruct s as [|c s]; [done|]. unfold Re.chr.
    destruct (Ascii.eqb_spec a c) as [->|]; [|done]. intros Hl. by rewrite (IH _ Hl).
Qed.

Lemma tag_space_no_overlap (open : string) :
  (forall d c s, d < String.length open -> is_space c = true ->
     Re.lit false open (drop_chars (S d) (open +:+ String c s)) = None) ->
  no_overlap (tag_space open).
Proof.
  intros Hopen s r rest d Hm Hd0 Hd. unfold tag_space in Hm.
  destruct (Re.lit false open s) as [s1|] eqn:Hl; [|done]. simpl in Hm.
  destruct s1 as [|c s1]; [done|]. destruct (is_space c) eqn:Hc; [|done].
  injection Hm as _ <-. apply lit_false_inv in Hl as ->.
  destruct d as [|d]; [lia|]. unfold tag_space. rewrite Hopen; [done| |done].
  revert Hd. clear. rewrite !string_length_append. simpl. lia.
Qed.

Lemma space_not_open c : is_space c = true -> Re.chr false "<" c = false.
Proof.
  intros Hc. unfold Re.chr. destruct (Ascii.eqb_spec "<" c) as [<-|]; [done|done].
Qed.

Lemma link_no_overlap : no_overlap (tag_space "<link").
Proof.
  apply tag_space_no_overlap. intros d c s Hd Hc.
  do 4 (destruct d as [|d]; [reflexivity|]).
  destruct d as [|d]; [|simpl in Hd; lia].
  change (Re.lit false "<link" (String c s) = None). cbn [Re.lit]. by rewrite space_not_open.
Qed.

Lemma joint_no_overlap : no_overlap (tag_space "<joint").
Proof.
  apply tag_space_no_overlap. intros d c s Hd Hc.
  do 5 (destruct d as [|d]; [reflexivity|]).
  destruct d as [|d]; [|simpl in Hd; lia].
  change (Re.lit false "<joint" (String c s) = None). cbn [Re.lit]. by rewrite space_not_open.
Qed.

Lemma named_tag_space open attr_eq s :
  is_Some (named_tag open attr_eq s) -> is_Some (tag_space open s).
Proof.
  unfold named_tag, tag_space. destruct (Re.lit false open s) as [s1|]; [|by intros [? ?]].
  simpl. unfold Re.plus. destruct s1 as [|c s1]; [by intros [? ?]|].
  cbn [Re.span]. destruct (is_space c); [done|]. by intros [? ?].
Qed.

Lemma count_named_tags {R} (m : string -> option (R * string)) open content :
  no_overlap (tag_space open) ->
  (forall s, is_Some (m s) -> is_Some (tag_space open s)) ->
  length (Re.finditer m content) <= count_matches (tag_space open) content.
Proof.
  intros Hno Hm. unfold count_matches, Re.finditer.
  rewrite (finditer_go_all (tag_space open)); [|done|intros d Hd; lia].
  etrans; [apply finditer_go_positions|]. by apply positions_mono.
Qed.

Section Stats.
Context {F : Type} `{PyFloat F}.

(** The summary counts every link and every joint that the structure of
    the same summary names: ['links'] and ['joints'] are never smaller than
    the lists of ['structure'] are long. *)
Theorem summary_counts_cover_structure (content : string) :
  let stats := analyze_urdf (F := F) content in
  length (s_links (stat_structure stats)) <= stat_links stats /\
  length (s_joints (stat_structure stats)) <= stat_joints stats.
Proof.
  cbv zeta. cbn [analyze_urdf stat_structure stat_links stat_joints].
  unfold parse_urdf_structure. destruct (is_empty content); [cbn; lia|].
  cbn [s_links s_joints]. split.
  - apply count_named_tags; [apply link_no_overlap|]. intros s. apply named_tag_space.
  - apply count_named_tags; [apply joint_no_overlap|]. intros s Hs.
    apply (named_tag_space _ NAME_EQ). unfold edge_pattern in Hs.
    destruct (named_tag "<joint" NAME_EQ s); [done|]. by destruct Hs.
Qed.

End Stats.

(** ** [parse_github_url] *)

Lemma str_in_app c s t : str_in c (s +:+ t) = str_in c s || str_in c t.
Proof. induction s as [|x s IH]; [done|]. simpl. by rewrite IH, orb_assoc. Qed.

Lemma partition_None c s : partition c s = None -> str_in c s = false.
Proof.
  induction s as [|x s IH]; [done|]. simpl. destruct (Ascii.eqb c x); [done|].
  destruct (partition c s) as [[b a]|]; [done|]. intros _. by apply IH.
Qed.

(** The characters of a text are among those of another. *)
Definition chars_of (s t : string) : Prop := forall c, str_in c s = true -> str_in c t = true.

Lemma chars_of_refl s : chars_of s s.
Proof. by intros c. Qed.

Lemma chars_of_trans s t u : chars_of s t -> chars_of t u -> chars_of s u.
Proof. intros H1 H2 c Hc. by apply H2, H1. Qed.

Lemma chars_of_cons x s t : chars_of s t -> chars_of (String x s) (String x t).
Proof.
  intros H c. simpl. destruct (Ascii.eqb c x); [done|]. apply H.
Qed.

Lemma chars_of_tail x s t : chars_of s t -> chars_of s (String x t).
Proof. intros H c Hc. simpl. rewrite (H c Hc). apply orb_true_r. Qed.

Lemma partition_before c s b a :
  partition c s = Some (b, a) -> str_in c b = false /\ chars_of b s.
Proof.
  revert b. induction s as [|x s IH]; intros b; [done|]. simpl.
  destruct (Ascii.eqb c x) eqn:Hx.
  - intros [= <- <-]. split; [done|]. by intros c'.
  - destruct (partition c s) as [[b' a']|]; [|done]. simpl. intros [= <- <-].
    destruct (IH b' eq_refl) as [Hb Hsub]. split; [simpl; by rewrite Hx|].
    by apply chars_of_cons.
Qed.

Lemma take_chars_of i s : chars_of (take_chars i s) s.
Proof.
  revert i. induction s as [|x s IH]; intros [|i]; try (by intros c).
  simpl. apply chars_of_cons, IH.
Qed.

Lemma drop_chars_of i s : chars_of (drop_chars i s) s.
Proof.
  revert i. induction s as [|x s IH]; intros [|i]; try apply chars_of_refl.
  simpl. apply chars_of_tail, IH.
Qed.

Lemma span_chars_of f s : chars_of (Re.span f s).2 s.
Proof.
  induction s as [|x s IH]; [done|]. simpl. destruct (f x); [|apply chars_of_refl].
  destruct (Re.span f s) as [g r]. simpl in *. by apply chars_of_tail.
Qed.

Lemma rstrip_chars_of f s : chars_of (rstrip_chars f s) s.
Proof.
  induction s as [|x s IH]; [done|]. simpl.
  destruct (is_empty (rstrip_chars f s) && f x); [done|]. by apply chars_of_cons.
Qed.

Lemma strip_chars_of f s : chars_of (strip_chars f s) s.
Proof.
  unfold strip_chars, lstrip_chars.
  eapply chars_of_trans; [apply rstrip_chars_of|apply span_chars_of].
Qed.

(** A text stripped of [/] is empty or starts with another character. *)
Lemma strip_chars_head f s :
  match strip_chars f s with
  | EmptyString => True
  | String c _ => f c = false
  end.
Proof.
  unfold strip_chars, lstrip_chars.
  assert (match (Re.span f s).2 with EmptyString => True | String c _ => f c = false end) as Hl.
  { induction s as [|x s IH]; [done|]. simpl. destruct (f x) eqn:Hx; [|done].
    by destruct (Re.span f s). }
  destruct (Re.span f s).2 as [|c r]; [done|]. simpl. by rewrite Hl, andb_false_r.
Qed.

Lemma append_nil_r s : s +:+ EmptyString = s.
Proof. induction s as [|x s IH]; [done|]. by rewrite append_cons, IH. Qed.

Lemma append_snoc cur x s : (cur +:+ String x EmptyString) +:+ s = cur +:+ String x s.
Proof. induction cur as [|y cur IH]; [done|]. by rewrite !append_cons, IH. Qed.

Lemma chars_of_app_l s t : chars_of s (s +:+ t).
Proof. intros c Hc. by rewrite str_in_app, Hc. Qed.

Lemma chars_of_app_r s t : chars_of t (s +:+ t).
Proof. intros c Hc. rewrite str_in_app, Hc. apply orb_true_r. Qed.

(** The pieces of [s.split(c)] hold no [c] and no character that [s] does
    not hold; the first piece is the text before the first [c]. *)
Lemma split_on_go_parts c cur s :
  str_in c cur = false ->
  Forall (fun p => str_in c p = false /\ chars_of p (cur +:+ s)) (split_on_go c cur s) /\
  exists rest, split_on_go c cur s = (cur +:+ (default s (fst <$> partition c s))) :: rest.
Proof.
  revert cur. induction s as [|x s IH]; intros cur Hcur.
  - simpl. split; [|exists []; cbn; by rewrite append_nil_r].
    constructor; [|done]. split; [done|]. apply chars_of_app_l.
  - simpl. destruct (Ascii.eqb c x) eqn:Hx.
    + destruct (IH EmptyString eq_refl) as [Hall _]. split.
      * constructor; [split; [done|apply chars_of_app_l]|].
        eapply Forall_impl; [exact Hall|]. intros p [Hp Hsub]. split; [done|].
        eapply chars_of_trans; [exact Hsub|]. simpl.
        eapply chars_of_trans; [|apply chars_of_app_r]. by apply chars_of_tail, chars_of_refl.
      * eexists. simpl. by rewrite append_nil_r.
    + assert (str_in c (cur +:+ String x EmptyString) = false) as Hcur'.
      { rewrite str_in_app, Hcur. simpl. by rewrite Hx. }
      destruct (IH _ Hcur') as [Hall [rest Hrest]]. rewrite append_snoc in Hall.
      split; [done|]. exists rest. rewrite Hrest. f_equal.
      destruct (partition c s) as [[b a]|]; simpl; apply append_snoc.
Qed.

Lemma split_on_parts c s :
  Forall (fun p => str_in c p = false /\ chars_of p s) (split_on c s) /\
  exists rest, split_on c s = default s (fst <$> partition c s) :: rest.
Proof. by apply (split_on_go_parts c EmptyString s). Qed.

Section Safety.
Variable ip_address : string -> option Urllib.ip_version.

(** The path of a parsed URL holds neither [#] nor [?]. *)
Lemma urlparse_path url parsed :
  Urllib.urlparse ip_address url = Ok parsed ->
  str_in "#" (Urllib.path parsed) = false /\ str_in "?" (Urllib.path parsed) = false.
Proof.
  unfold Urllib.urlparse, Urllib.urlsplit.
  set (url1 := foldl _ _ _).
  destruct (match find_from ":" 0 url1 with Some _ => _ | None => _ end) as [scheme url2].
  destruct (if String.eqb (take_chars 2 url2) "//" then _ else _) as [[netloc url3]|]; [|done].
  rewrite bind_Ok.
  assert (exists url4, (let '(u, _) := default (url3, EmptyString) (partition "#" url3) in u) = url4
                       /\ str_in "#" url4 = false) as (url4 & Hurl4 & H4).
  { destruct (partition "#" url3) as [[b a]|] eqn:Hp; simpl.
    - exists b. split; [done|]. by apply partition_before in Hp as [? _].
    - exists url3. split; [done|]. by apply partition_None. }
  destruct (default (url3, EmptyString) (partition "#" url3)) as [u4 fragment]. subst u4.
  assert (exists url5, (let '(u, _) := default (url4, EmptyString) (partition "?" url4) in u) = url5
                       /\ str_in "?" url5 = false /\ chars_of url5 url4) as (url5 & Hurl5 & H5 & Hsub5).
  { destruct (partition "?" url4) as [[b a]|] eqn:Hp; simpl.
    - exists b. split; [done|]. by apply partition_before in Hp.
    - exists url4. split; [done|]. split; [by apply partition_None|apply chars_of_refl]. }
  destruct (default (url4, EmptyString) (partition "?" url4)) as [u5 query]. subst u5.
  rewrite bind_Ok.
  destruct (if bool_decide _ && _ then _ else _) as [url6 params] eqn:H6.
  intros [= <-]. cbn [Urllib.path].
  assert (chars_of url6 url5) as Hsub6.
  { destruct (_ && _) in H6.
    - unfold Urllib.splitparams in H6.
      destruct (str_in "/" url5); [destruct (find_from _ _ _)|]; injection H6 as <- _;
        apply take_chars_of || apply chars_of_refl.
    - injection H6 as <- _. apply chars_of_refl. }
  split.
  - destruct (str_in "#" url6) eqn:Hc; [|done]. apply Hsub6, Hsub5 in Hc. congruence.
  - destruct (str_in "?" url6) eqn:Hc; [|done]. apply Hsub6 in Hc. congruence.
Qed.

(** The two names that [parse_github_url] returns hold none of [/], [?]
    and [#], and the first is not empty: put into the path of a request
    they stay two segments of it.  The second name can be empty. *)
Theorem github_names_are_path_segments (url owner repo : string) :
  parse_github_url ip_address url = Some (owner, repo) ->
  owner <> EmptyString /\
  (forall c, c = "/"%char \/ c = "?"%char \/ c = "#"%char ->
     str_in c owner = false /\ str_in c repo = false).
Proof.
  unfold parse_github_url.
  destruct (Urllib.urlparse ip_address url) as [parsed|] eqn:Hparsed; [|done].
  destruct (urlparse_path _ _ Hparsed) as [Hhash Hquery].
  set (stripped := strip_chars (Ascii.eqb "/") (Urllib.path parsed)).
  assert (chars_of stripped (Urllib.path parsed)) as Hsub by apply strip_chars_of.
  pose proof (strip_chars_head (Ascii.eqb "/") (Urllib.path parsed)) as Hhead.
  fold stripped in Hhead.
  destruct (split_on_parts "/" stripped) as [Hall [rest Hfirst]].
  destruct (split_on "/" stripped) as [|part0 [|part1 parts]] eqn:Hsplit; [done..|].
  intros [= <- <-]. injection Hfirst as Hfirst _.
  apply Forall_cons in Hall as [[H0 Hs0] Hall]. apply Forall_cons in Hall as [[H1 Hs1] _].
  split.
  - intros ->. destruct stripped as [|c s]; [done|].
    cbn [partition] in Hfirst. rewrite Hhead in Hfirst. by destruct (partition "/" s) as [[? ?]|].
  - assert (forall c p, str_in c (Urllib.path parsed) = false -> chars_of p stripped ->
                        str_in c p = false) as Hno.
    { intros c p Hc Hp. destruct (str_in c p) eqn:Hcp; [|done].
      apply Hp, Hsub in Hcp. congruence. }
    intros c [-> | [-> | ->]]; eauto.
Qed.

End Safety.

(** *** The names of a well-formed address *)

Lemma all_chars_app f s t : all_chars f (s +:+ t) = all_chars f s && all_chars f t.
Proof. induction s as [|x s IH]; [done|]. simpl. by rewrite IH, andb_assoc. Qed.

Lemma all_chars_impl (f g : ascii -> bool) s :
  (forall c, f c = true -> g c = true) -> all_chars f s = true -> all_chars g s = true.
Proof.
  intros Hfg. induction s as [|x s IH]; [done|]. simpl.
  intros [Hx Hs]%andb_true_iff. by rewrite (Hfg x Hx), IH.
Qed.

Lemma all_chars_not_in f b s : all_chars f s = true -> f b = false -> str_in b s = false.
Proof.
  intros Hs Hb. induction s as [|x s IH]; [done|]. simpl in *.
  apply andb_true_iff in Hs as [Hx Hs]. rewrite (IH Hs), orb_false_r.
  destruct (Ascii.eqb_spec b x) as [->|]; [congruence|done].
Qed.

Lemma remove_char_absent b s : str_in b s = false -> remove_char b s = s.
Proof.
  induction s as [|x s IH]; [done|]. simpl. intros [Hx Hs]%orb_false_elim.
  by rewrite Hx, IH.
Qed.

Lemma find_from_absent c s : str_in c s = false -> find_from c 0 s = None.
Proof.
  induction s as [|x s IH]; [done|]. simpl. intros [Hx Hs]%orb_false_elim.
  by rewrite Hx, IH.
Qed.

Lemma find_from_app c h s :
  str_in c h = false ->
  find_from c 0 (h +:+ s) = (fun i => String.length h + i) <$> find_from c 0 s.
Proof.
  induction h as [|x h IH]; cbn [str_in].
  - intros _. rewrite append_empty. by destruct (find_from c 0 s).
  - intros [Hx Hh]%orb_false_elim. rewrite append_cons. cbn [find_from].
    rewrite Hx, IH by done. by destruct (find_from c 0 s).
Qed.

Lemma substring_app h s : substring 0 (String.length h) (h +:+ s) = h.
Proof. induction h as [|x h IH]; simpl; [by destruct s|by rewrite IH]. Qed.

Lemma name_char_plain c : name_char c = true -> plain_char c = true.
Proof.
  unfold name_char, plain_char. intros Hc.
  destruct (Ascii.eqb_spec c "#") as [->|]; [done|].
  destruct (Ascii.eqb_spec c "?") as [->|]; [done|].
  destruct (Ascii.eqb_spec c ";") as [->|]; [done|].
  destruct (Ascii.eqb_spec c ":") as [->|]; [done|].
  destruct (Ascii.eqb_spec c "009") as [->|]; [done|].
  destruct (Ascii.eqb_spec c "010") as [->|]; [done|].
  destruct (Ascii.eqb_spec c "013") as [->|]; [done|]. done.
Qed.

Lemma name_char_not b s :
  all_chars name_char s = true -> name_char b = false -> str_in b s = false.
Proof. apply all_chars_not_in. Qed.

Lemma splitnetloc_host host t :
  all_chars name_char host = true ->
  Urllib.splitnetloc (String "/" (String "/" (host +:+ String "/" t))) 2 = (host, String "/" t).
Proof.
  intros Hhost. unfold Urllib.splitnetloc.
  assert (forall c, name_char c = false ->
            find_from c 2 (String "/" (String "/" (host +:+ String "/" t)))
            = (fun i => 2 + String.length host + i) <$> find_from c 0 (String "/" t)) as Hfind.
  { intros c Hc. set (r := find_from c 0 (String "/" t)). cbn [find_from].
    rewrite find_from_app by by apply name_char_not. fold r. by destruct r. }
  cbn [foldl]. rewrite !Hfind by done.
  change (find_from "/" 0 (String "/" t)) with (Some 0).
  cbn [fmap option_fmap option_map].
  assert (String.length (String "/" (String "/" (host +:+ String "/" t)))
          = 2 + String.length host + S (String.length t)) as ->.
  { cbn [String.length]. rewrite string_length_append. simpl. lia. }
  replace (min (2 + String.length host + S (String.length t)) (2 + String.length host + 0))
    with (2 + String.length host) by lia.
  assert (forall c, (match (fun i => 2 + String.length host + i) <$> find_from c 0 (String "/" t) with
                     | Some wdelim => min (2 + String.length host) wdelim
                     | None => 2 + String.length host
                     end) = 2 + String.length host) as Hmin.
  { intros c. destruct (find_from c 0 (String "/" t)); simpl; lia. }
  rewrite !Hmin. f_equal.
  - replace (2 + String.length host - 2) with (String.length host) by lia.
    cbn [substring]. apply substring_app.
  - cbn [Nat.add drop_chars]. apply drop_chars_app.
Qed.

Lemma partition_absent c s : str_in c s = false -> partition c s = None.
Proof.
  induction s as [|x s IH]; [done|]. simpl. intros [Hx Hs]%orb_false_elim.
  by rewrite Hx, IH.
Qed.

Lemma plain_not b s :
  all_chars plain_char s = true -> plain_char b = false -> str_in b s = false.
Proof. apply all_chars_not_in. Qed.

Lemma remove_unsafe s :
  str_in "009" s = false -> str_in "010" s = false -> str_in "013" s = false ->
  foldl (fun url b => remove_char b url) s ["009"; "013"; "010"]%char = s.
Proof.
  intros H9 H10 H13. cbn [foldl].
  by rewrite (remove_char_absent "009" s), (remove_char_absent "013" s),
             (remove_char_absent "010" s).
Qed.

Section Names.
Variable ip_address : string -> option Urllib.ip_version.

Lemma urlparse_web (https : bool) host t :
  all_chars name_char host = true -> all_chars plain_char t = true ->
  Urllib.urlparse ip_address
    ((if https then "https://" else "http://") +:+ host +:+ String "/" t)
  = Ok (Urllib.ParseResult (if https then "https" else "http") host (String "/" t)
          EmptyString EmptyString EmptyString).
Proof.
  intros Hhost Ht.
  assert (forall b, name_char b = false -> plain_char b = false ->
            str_in b (host +:+ String "/" t) = false) as Hno.
  { intros b Hb1 Hb2. rewrite str_in_app. cbn [str_in].
    rewrite (name_char_not b host), (plain_not b t) by done.
    destruct (Ascii.eqb_spec b "/") as [->|]; [by vm_compute in Hb2|done]. }
  unfold Urllib.urlparse, Urllib.urlsplit.
  assert (lstrip_chars Urllib.c0_control_or_space
            ((if https then "https://" else "http://") +:+ host +:+ String "/" t)
          = (if https then "https://" else "http://") +:+ host +:+ String "/" t) as ->
    by by destruct https.
  rewrite remove_unsafe; [|destruct https; by rewrite str_in_app, Hno..].
  assert (match find_from ":" 0 ((if https then "https://" else "http://") +:+ host +:+ String "/" t),
                (if https then "https://" else "http://") +:+ host +:+ String "/" t with
          | Some i, String c0 _ =>
              if (0 <? i) && Urllib.is_ascii_alpha c0
                 && all_chars Urllib.scheme_char
                      (take_chars i ((if https then "https://" else "http://") +:+ host +:+ String "/" t))
              then (lower (take_chars i ((if https then "https://" else "http://") +:+ host +:+ String "/" t)),
                    drop_chars (i + 1) ((if https then "https://" else "http://") +:+ host +:+ String "/" t))
              else (EmptyString, (if https then "https://" else "http://") +:+ host +:+ String "/" t)
          | _, _ => (EmptyString, (if https then "https://" else "http://") +:+ host +:+ String "/" t)
          end = (if https then "https" else "http", String "/" (String "/" (host +:+ String "/" t)))) as ->
    by by destruct https.
  change (String.eqb (take_chars 2 (String "/" (String "/" (host +:+ String "/" t)))) "//")
    with true. cbv iota.
  rewrite splitnetloc_host by done.
  rewrite (name_char_not "[" host), (name_char_not "]" host) by done. cbn [andb orb negb].
  rewrite !bind_Ok.
  rewrite (partition_absent "#" (String "/" t)) by (cbn [str_in]; by rewrite plain_not).
  cbn [default].
  rewrite (partition_absent "?" (String "/" t)) by (cbn [str_in]; by rewrite plain_not).
  cbn [default]. rewrite bind_Ok.
  assert (str_in ";" (String "/" t) = false) as -> by (cbn [str_in]; by rewrite plain_not).
  rewrite andb_false_r. done.
Qed.

Lemma name_char_visible c :
  name_char c = true ->
  Urllib.c0_control_or_space c = false /\ Ascii.eqb "/" c = false /\ Ascii.eqb c "/" = false.
Proof. destruct c as [[] [] [] [] [] [] [] []]; by vm_compute. Qed.

Lemma urlparse_bare c s :
  name_char c = true -> all_chars plain_char s = true ->
  Urllib.urlparse ip_address (String c s)
  = Ok (Urllib.ParseResult EmptyString EmptyString (String c s)
          EmptyString EmptyString EmptyString).
Proof.
  intros Hc Hs. destruct (name_char_visible c Hc) as (Hc0 & Hslash & Hslash').
  assert (forall b, plain_char b = false -> str_in b (String c s) = false) as Hno.
  { intros b Hb. cbn [str_in]. rewrite (plain_not b s) by done.
    destruct (Ascii.eqb_spec b c) as [->|]; [|done].
    apply name_char_plain in Hc. congruence. }
  unfold Urllib.urlparse, Urllib.urlsplit.
  assert (lstrip_chars Urllib.c0_control_or_space (String c s) = String c s) as ->.
  { unfold lstrip_chars. cbn [Re.span]. by rewrite Hc0. }
  rewrite remove_unsafe by by apply Hno.
  rewrite find_from_absent by by apply Hno.
  assert (String.eqb (take_chars 2 (String c s)) "//" = false) as ->.
  { cbn [take_chars]. destruct s; cbn [String.eqb take_chars]; by rewrite Hslash'. }
  rewrite !bind_Ok.
  rewrite (partition_absent "#" (String c s)) by by apply Hno. cbn [default].
  rewrite (partition_absent "?" (String c s)) by by apply Hno. cbn [default].
  rewrite bind_Ok, (Hno ";"%char) by done. by rewrite andb_false_r.
Qed.

End Names.

Lemma rstrip_chars_app f x y :
  all_chars (fun c => negb (f c)) x = true ->
  rstrip_chars f (x +:+ y) = x +:+ rstrip_chars f y.
Proof.
  induction x as [|c x IH]; [done|]. cbn [all_chars]. intros [Hc Hx]%andb_true_iff.
  rewrite !append_cons. cbn [rstrip_chars]. rewrite IH by done.
  apply negb_true_iff in Hc. by rewrite Hc, andb_false_r.
Qed.

Lemma split_on_go_app c cur x s :
  str_in c x = false -> split_on_go c cur (x +:+ s) = split_on_go c (cur +:+ x) s.
Proof.
  revert cur. induction x as [|y x IH]; intros cur.
  - intros _. by rewrite append_empty, append_nil_r.
  - cbn [str_in]. intros [Hy Hx]%orb_false_elim. rewrite append_cons. cbn [split_on_go].
    rewrite Hy, IH by done. by rewrite append_snoc.
Qed.

(** The first two segments of a path that starts, after at most one [/],
    with two names. *)
Lemma path_names (slash : bool) a b rest :
  all_chars name_char a = true -> a <> EmptyString ->
  all_chars name_char b = true -> b <> EmptyString ->
  rest = EmptyString \/ (exists tail, rest = String "/" tail) ->
  exists more,
    split_on "/" (strip_chars (Ascii.eqb "/")
                    ((if slash then "/" else EmptyString) +:+ a +:+ String "/" (b +:+ rest)))
    = a :: b :: more.
Proof.
  intros Ha Ha0 Hb Hb0 Hrest.
  assert (forall x, all_chars name_char x = true ->
            all_chars (fun c => negb (Ascii.eqb "/" c)) x = true) as Hname.
  { intros x. apply all_chars_impl. intros c Hc.
    destruct (name_char_visible c Hc) as (_ & -> & _). done. }
  assert (lstrip_chars (Ascii.eqb "/")
            ((if slash then "/" else EmptyString) +:+ a +:+ String "/" (b +:+ rest))
          = a +:+ String "/" (b +:+ rest)) as Hl.
  { destruct a as [|c a]; [done|]. cbn [all_chars] in Ha. apply andb_true_iff in Ha as [Hc _].
    destruct (name_char_visible c Hc) as (_ & Hslash & _).
    unfold lstrip_chars. destruct slash; rewrite ?append_empty, ?append_cons, ?append_empty,
      ?append_cons; cbn [Re.span]; rewrite ?Ascii.eqb_refl, Hslash; done. }
  unfold strip_chars. rewrite Hl, rstrip_chars_app by by apply Hname.
  cbn [rstrip_chars]. rewrite rstrip_chars_app by by apply Hname.
  assert (is_empty (b +:+ rstrip_chars (Ascii.eqb "/") rest) = false) as ->
    by by destruct b.
  cbn [andb].
  assert (rstrip_chars (Ascii.eqb "/") rest = EmptyString
          \/ exists r, rstrip_chars (Ascii.eqb "/") rest = String "/" r) as Hrest'.
  { destruct Hrest as [->|[tail ->]]; [by left|]. cbn [rstrip_chars].
    destruct (is_empty _ && _); [by left|right; eauto]. }
  unfold split_on.
  rewrite split_on_go_app, append_empty by (apply (name_char_not "/" a); done).
  cbn [split_on_go]. rewrite Ascii.eqb_refl.
  rewrite split_on_go_app, append_empty by (apply (name_char_not "/" b); done).
  destruct Hrest' as [->|[r ->]]; cbn [split_on_go]; rewrite ?Ascii.eqb_refl; eauto.
Qed.

Lemma path_tail_plain a b rest :
  all_chars name_char a = true -> all_chars name_char b = true -> path_tail rest ->
  all_chars plain_char (a +:+ String "/" (b +:+ rest)) = true /\
  (rest = EmptyString \/ exists tail, rest = String "/" tail).
Proof.
  intros Ha Hb Hrest.
  assert (all_chars plain_char rest = true /\ (rest = EmptyString \/ exists tail, rest = String "/" tail))
    as [Hr ?].
  { destruct Hrest as [->|(tail & -> & Ht)]; [by split; [|left]|]. split; [|right; eauto].
    cbn [all_chars]. by rewrite Ht. }
  split; [|done]. rewrite all_chars_app. cbn [all_chars]. rewrite all_chars_app, Hr.
  by rewrite !(all_chars_impl name_char plain_char _ name_char_plain).
Qed.

(** An address [http://host/owner/repo] or [https://host/owner/repo],
    with or without further segments, yields the two names after the host. *)
Theorem web_address_names (ip_address : string -> option Urllib.ip_version)
  (https : bool) (host owner repo rest : string) :
  all_chars name_char host = true ->
  all_chars name_char owner = true -> owner <> EmptyString ->
  all_chars name_char repo = true -> repo <> EmptyString ->
  path_tail rest ->
  parse_github_url ip_address
    ((if https then "https://" else "http://") +:+ host +:+ "/" +:+ owner +:+ "/" +:+ repo +:+ rest)
  = Some (owner, repo).
Proof.
  intros Hhost Ho Ho0 Hr Hr0 Hrest.
  change (parse_github_url ip_address
            ((if https then "https://" else "http://") +:+ host +:+
             String "/" (owner +:+ String "/" (repo +:+ rest))) = Some (owner, repo)).
  destruct (path_tail_plain owner repo rest) as [Hplain Hrest']; [done..|].
  unfold parse_github_url. rewrite urlparse_web by done. cbn [Urllib.path].
  destruct (path_names true owner repo rest) as [more Hparts]; [done..|].
  rewrite append_cons, append_empty in Hparts. by rewrite Hparts.
Qed.

(** An address without a scheme, [host/owner/repo], is read as a path: the
    host is returned as the first name and the owner as the second. *)
Theorem bare_address_names (ip_address : string -> option Urllib.ip_version)
  (host owner rest : string) :
  all_chars name_char host = true -> host <> EmptyString ->
  all_chars name_char owner = true -> owner <> EmptyString ->
  path_tail rest ->
  parse_github_url ip_address (host +:+ "/" +:+ owner +:+ rest) = Some (host, owner).
Proof.
  intros Hh Hh0 Ho Ho0 Hrest.
  change (parse_github_url ip_address (host +:+ String "/" (owner +:+ rest)) = Some (host, owner)).
  destruct (path_tail_plain host owner rest) as [Hplain Hrest']; [done..|].
  unfold parse_github_url.
  destruct (path_names false host owner rest) as [more Hparts]; [done..|].
  rewrite append_empty in Hparts.
  destruct host as [|c host]; [done|]. rewrite append_cons in *.
  cbn [all_chars] in Hh, Hplain.
  apply andb_true_iff in Hh as [Hc _]. apply andb_true_iff in Hplain as [_ Hplain].
  rewrite urlparse_bare by done. cbn [Urllib.path]. by rewrite Hparts.
Qed.

Lemma github_names_are_path_segments_witness :
  "ros" <> EmptyString /\
  (forall c, c = "/"%char \/ c = "?"%char \/ c = "#"%char ->
     str_in c "ros" = false /\ str_in c "urdf_tutorial" = false).
Proof.
  apply (github_names_are_path_segments (fun _ => None)
           "https://github.com/ros/urdf_tutorial/tree/main?tab=readme#top").
  vm_compute. reflexivity.
Defined.

Lemma web_address_names_witness :
  parse_github_url (fun _ => None) "https://github.com/ros/urdf_tutorial/tree/main"
  = Some ("ros", "urdf_tutorial").
Proof.
  apply (web_address_names (fun _ => None) true "github.com" "ros" "urdf_tutorial" "/tree/main");
    try reflexivity; try discriminate.
  right. exists "tree/main". split; reflexivity.
Defined.

Lemma bare_address_names_witness :
  parse_github_url (fun _ => None) "github.com/ros/urdf_tutorial" = Some ("github.com", "ros").
Proof.
  apply (bare_address_names (fun _ => None) "github.com" "ros" "/urdf_tutorial");
    try reflexivity; try discriminate.
  right. exists "urdf_tutorial". split; reflexivity.
Defined.

(** ** Camera control *)

Section Camera.
Local Open Scope Q_scope.

Lemma py_max_le a b : a <= py_max a b.
Proof.
  unfold py_max. destruct (Qle_bool b a) eqn:Hb; [apply Qle_refl|].
  destruct (Qlt_le_dec a b) as [Hlt|Hle]; [by apply Qlt_le_weak|].
  apply Qle_bool_iff in Hle. congruence.
Qed.

Lemma py_max_r a b : b <= py_max a b.
Proof.
  unfold py_max. destruct (Qle_bool b a) eqn:Hb; [by apply Qle_bool_iff|apply Qle_refl].
Qed.

Lemma py_max_lub a b c : a <= c -> b <= c -> py_max a b <= c.
Proof. intros. unfold py_max. by destruct (Qle_bool b a). Qed.

Lemma py_min_le a b : py_min a b <= a.
Proof.
  unfold py_min. destruct (Qle_bool a b) eqn:Hb; [apply Qle_refl|].
  destruct (Qlt_le_dec b a) as [Hlt|Hle]; [by apply Qlt_le_weak|].
  apply Qle_bool_iff in Hle. congruence.
Qed.

Lemma keyboard_distance v key st st' calls :
  keyboard v key st = Ok (st', calls) -> 1 <= camera_distance st -> 1 <= camera_distance st'.
Proof.
  unfold keyboard. destruct (128 <=? code key)%nat; [done|].
  intros Hk Hd.
  repeat match type of Hk with
         | (if ?c then _ else _) = _ => destruct c
         end; injection Hk as <- _; cbn [camera_distance]; try done.
  - apply py_max_le.
  - apply Qle_trans with (camera_distance st); [done|].
    rewrite <- (Qplus_0_r (camera_distance st)) at 1. by apply Qplus_le_r.
Qed.

(** Whatever keys are pressed and however the mouse is moved, the camera
    never comes closer than 1.0 to the origin. *)
Theorem camera_keeps_its_distance (v : variant) (evs : list event) (st : viewer)
  (calls : list glut_call) :
  handle_all v evs new_viewer = Ok (st, calls) -> 1 <= camera_distance st.
Proof.
  assert (1 <= camera_distance new_viewer) as H0 by done.
  revert H0. generalize new_viewer. revert st calls.
  induction evs as [|ev evs IH]; intros st calls st0 H0; cbn [handle_all].
  - by intros [= <- _].
  - destruct (handle v ev st0) as [[st1 calls1]|] eqn:Hev; [|done]. rewrite bind_Ok.
    destruct (handle_all v evs st1) as [[st2 calls2]|] eqn:Hevs; [|done]. rewrite bind_Ok.
    intros [= <- _]. apply (fun H => IH _ _ _ H Hevs).
    destruct ev as [key|button state x y|x y]; cbn [handle] in Hev.
    + by apply (keyboard_distance v key st0 st1 calls1).
    + injection Hev as <- _. unfold mouse. by repeat destruct (_ =? _)%Z.
    + injection Hev as Hev. unfold motion in Hev. destruct (mouse_down st0); by injection Hev as <- _.
Qed.

Lemma inject_Z_sub a b : inject_Z (a - b) == inject_Z a - inject_Z b.
Proof. unfold Z.sub. rewrite inject_Z_plus, inject_Z_opp. reflexivity. Qed.

Lemma motion_spec v x y st :
  mouse_down st = true ->
  let st' := (motion v x y st).1 in
  mouse_down st' = true /\ last_x st' = x /\ last_y st' = y /\
  camera_distance st' = camera_distance st /\
  camera_angle_x st' == camera_angle_x st + (inject_Z x - inject_Z (last_x st)) * (1 # 2) /\
  (v = Standalone ->
   camera_angle_y st' == camera_angle_y st + (inject_Z y - inject_Z (last_y st)) * (1 # 2)) /\
  (v = Embedded -> -89 <= camera_angle_y st' /\ camera_angle_y st' <= 89).
Proof.
  intros Hdown. unfold motion. rewrite Hdown. cbn [fst mouse_down last_x last_y camera_distance
    camera_angle_x camera_angle_y].
  do 4 (split; [done|]). split; [|split].
  - rewrite inject_Z_sub. reflexivity.
  - intros ->. rewrite inject_Z_sub. reflexivity.
  - intros ->. split; [apply py_max_le|]. apply py_max_lub; [done|apply py_min_le].
Qed.

Lemma drag_spec v points st :
  mouse_down st = true ->
  let st' := drag v points st in
  mouse_down st' = true /\
  (last_x st', last_y st') = default (last_x st, last_y st) (last points) /\
  camera_distance st' = camera_distance st /\
  camera_angle_x st' == camera_angle_x st + (inject_Z (last_x st') - inject_Z (last_x st)) * (1 # 2) /\
  (v = Standalone ->
   camera_angle_y st' == camera_angle_y st + (inject_Z (last_y st') - inject_Z (last_y st)) * (1 # 2)) /\
  (v = Embedded -> points <> [] -> -89 <= camera_angle_y st' /\ camera_angle_y st' <= 89).
Proof.
  cbv zeta. revert st. induction points as [|[x y] points IH]; intros st Hdown.
  - cbn [drag foldl last default]. do 3 (split; [done|]). split; [ring|].
    split; [intros; ring|done].
  - unfold drag. cbn [foldl]. fold (drag v points (motion v x y st).1).
    destruct (motion_spec v x y st Hdown) as (Hdown' & Hmx & Hmy & Hmd & Hmax & Hmay & Hmclamp).
    revert Hdown' Hmx Hmy Hmd Hmax Hmay Hmclamp. generalize ((motion v x y st).1). intros m.
    intros Hdown' Hmx Hmy Hmd Hmax Hmay Hmclamp.
    destruct (IH _ Hdown') as (Hd & Hlast & Hdist & Hx & Hy & Hclamp).
    split; [done|]. split; [|split; [|split; [|split]]].
    + rewrite Hlast, Hmx, Hmy, last_cons. by destruct (last points).
    + by rewrite Hdist.
    + rewrite Hx, Hmax, Hmx. ring.
    + intros ->. rewrite (Hy eq_refl), (Hmay eq_refl), Hmy. ring.
    + intros -> _. destruct points as [|p points]; [by apply Hmclamp|by apply Hclamp].
Qed.

(** While the button is held the camera turns by half a degree for every
    pixel between the place where the drag is now and the place where it
    began, whatever the way in between: around the vertical axis in both
    copies of the viewer, and in [urdf-3d-viewer.py] around the horizontal
    axis too.  The generated script keeps that angle between -89 and 89. *)
Theorem drag_turns_with_the_mouse (v : variant) (points : list (Z * Z)) (st : viewer) :
  mouse_down st = true ->
  let st' := drag v points st in
  (last_x st', last_y st') = default (last_x st, last_y st) (last points) /\
  camera_angle_x st' == camera_angle_x st + (inject_Z (last_x st') - inject_Z (last_x st)) * (1 # 2) /\
  (v = Standalone ->
   camera_angle_y st' == camera_angle_y st + (inject_Z (last_y st') - inject_Z (last_y st)) * (1 # 2)) /\
  (v = Embedded -> points <> [] -> -89 <= camera_angle_y st' /\ camera_angle_y st' <= 89).
Proof. intros Hdown. destruct (drag_spec v points st Hdown) as (_ & ? & _ & ? & ? & ?). done. Qed.

Lemma camera_keeps_its_distance_witness :
  1 <= camera_distance (Viewer 1 45 25 0 0 false false).
Proof.
  apply (camera_keeps_its_distance Embedded
           (Key "s" :: replicate 9 (Key "+")) _ (replicate 10 PostRedisplay)).
  vm_compute. reflexivity.
Defined.

Lemma drag_turns_with_the_mouse_witness :
  let st := mouse GLUT_LEFT_BUTTON GLUT_DOWN 100 100 new_viewer in
  let st' := drag Embedded [(110, 90); (130, 400)]%Z st in
  (last_x st', last_y st') = default (last_x st, last_y st) (last [(110, 90); (130, 400)]%Z) /\
  camera_angle_x st' == camera_angle_x st + (inject_Z (last_x st') - inject_Z (last_x st)) * (1 # 2) /\
  (Embedded = Standalone ->
   camera_angle_y st' == camera_angle_y st + (inject_Z (last_y st') - inject_Z (last_y st)) * (1 # 2)) /\
  (Embedded = Embedded -> [(110, 90); (130, 400)]%Z <> [] ->
   -89 <= camera_angle_y st' /\ camera_angle_y st' <= 89).
Proof.
  apply (drag_turns_with_the_mouse Embedded [(110, 90); (130, 400)]%Z
           (mouse GLUT_LEFT_BUTTON GLUT_DOWN 100 100 new_viewer)).
  reflexivity.
Defined.

End Camera.

(** ** The table of the launcher *)

Section Table.
Import Console.

Lemma enumerate_from_cons {A} k (x : A) l :
  zip (seq k (length (x :: l))) (x :: l) = (k, x) :: zip (seq (S k) (length l)) l.
Proof. reflexivity. Qed.

(** The length of the cell of a row in column [i], 0 when the row has no
    such cell. *)
Definition cell_length (row : list text) (i : nat) : nat := default 0 (length <$> row !! i).

Lemma widen_from_lookup col_widths k cells i :
  foldl widen_cell col_widths (zip (seq k (length cells)) cells) !! i
  = (fun w => if decide (k <= i) then max w (cell_length cells (i - k)) else w) <$> col_widths !! i.
Proof.
  revert k col_widths. induction cells as [|cell cells IH]; intros k col_widths.
  - cbn [length seq zip zip_with foldl]. unfold cell_length.
    destruct (col_widths !! i) as [w|]; [|done]. cbn. f_equal. case_decide; [|done].
    rewrite lookup_nil. cbn. lia.
  - rewrite enumerate_from_cons. cbn [foldl]. rewrite IH. unfold widen_cell. cbn [fst snd].
    destruct (col_widths !! k) as [wk|] eqn:Hk.
    + destruct (decide (i = k)) as [->|Hne].
      * rewrite list_lookup_insert_eq by by eapply lookup_lt_Some. rewrite Hk. cbn. f_equal.
        rewrite decide_False by lia. rewrite decide_True by lia.
        by rewrite Nat.sub_diag.
      * rewrite list_lookup_insert_ne by done.
        destruct (col_widths !! i) as [w|]; [|done]. cbn. f_equal.
        destruct (decide (S k <= i)), (decide (k <= i)); try lia.
        unfold cell_length. replace (i - k) with (S (i - S k)) by lia. done.
    + destruct (col_widths !! i) as [w|] eqn:Hi; [|done]. cbn. f_equal.
      assert (i < k).
      { apply lookup_lt_Some in Hi. apply lookup_ge_None in Hk. lia. }
      by rewrite !decide_False by lia.
Qed.

Lemma widen_lookup col_widths row i :
  widen col_widths row !! i = (fun w => max w (cell_length row i)) <$> col_widths !! i.
Proof.
  unfold widen, enumerate. rewrite widen_from_lookup.
  destruct (col_widths !! i); [|done]. cbn. by rewrite decide_True, Nat.sub_0_r by lia.
Qed.

Lemma widen_length col_widths row : length (widen col_widths row) = length col_widths.
Proof.
  apply Nat.le_antisymm.
  - destruct (widen col_widths row !! length col_widths) as [w|] eqn:Hw.
    + rewrite widen_lookup in Hw. by rewrite (lookup_ge_None_2 col_widths) in Hw.
    + by apply lookup_ge_None in Hw.
  - destruct (col_widths !! length (widen col_widths row)) as [w|] eqn:Hw.
    + pose proof (widen_lookup col_widths row (length (widen col_widths row))) as Hl.
      rewrite Hw in Hl. cbn in Hl. apply lookup_lt_Some in Hl. lia.
    + by apply lookup_ge_None in Hw.
Qed.

(** Every column is as wide as its header and as each of its cells. *)
Lemma column_widths_spec col_widths rows :
  length (foldl widen col_widths rows) = length col_widths /\
  (forall i w, col_widths !! i = Some w ->
     exists w', foldl widen col_widths rows !! i = Some w' /\ w <= w') /\
  (forall row i w', row ∈ rows -> foldl widen col_widths rows !! i = Some w' ->
     cell_length row i <= w').
Proof.
  revert col_widths. induction rows as [|row rows IH]; intros col_widths.
  - cbn [foldl]. split; [done|]. split; [eauto|]. by intros row i w' ?%elem_of_nil.
  - cbn [foldl]. destruct (IH (widen col_widths row)) as (Hlen & Hmono & Hfit).
    split; [by rewrite Hlen, widen_length|]. split.
    + intros i w Hi.
      destruct (Hmono i (max w (cell_length row i))) as (w' & Hw' & Hle).
      { by rewrite widen_lookup, Hi. }
      exists w'. split; [done|lia].
    + intros row' i w' [->|Hin]%elem_of_cons Hw'; [|by eapply Hfit].
      destruct (col_widths !! i) as [w|] eqn:Hi.
      * destruct (Hmono i (max w (cell_length row i))) as (w'' & Hw'' & Hle).
        { by rewrite widen_lookup, Hi. }
        rewrite Hw' in Hw''. injection Hw'' as <-. lia.
      * apply lookup_lt_Some in Hw'. apply lookup_ge_None in Hi.
        rewrite Hlen, widen_length in Hw'. lia.
Qed.

Lemma ljust_length w (s : text) : length s <= w -> length (ljust w s) = w.
Proof. intros. unfold ljust. rewrite length_app, length_replicate. lia. Qed.

Lemma sum_list_drop (l : list nat) k w :
  l !! k = Some w -> sum_list (drop k l) = w + sum_list (drop (S k) l).
Proof. intros Hk. by rewrite (drop_S l w k Hk). Qed.

(** A row that has a width for each of its cells prints as one line. *)
Lemma row_from col_widths n k cells acc :
  (forall j, cell_length cells j <= default 0 (col_widths !! (k + j))) ->
  k + length cells = n -> n = length col_widths ->
  exists line,
    foldl (row_cell col_widths n) (Some acc) (zip (seq k (length cells)) cells) = Some line /\
    length line = length acc + sum_list (drop k col_widths) + 3 * (n - 1 - k).
Proof.
  revert k acc. induction cells as [|cell cells IH]; intros k acc Hfit Hk Hn.
  - cbn [length seq zip zip_with foldl]. exists acc. split; [done|].
    rewrite drop_ge by (simpl in Hk; lia). simpl. simpl in Hk. lia.
  - rewrite enumerate_from_cons. cbn [foldl]. unfold row_cell at 2. cbn [fst snd mbind option_bind].
    destruct (col_widths !! k) as [w|] eqn:Hw.
    2:{ apply lookup_ge_None in Hw. simpl in Hk. lia. }
    cbn [mbind option_bind].
    destruct (IH (S k) (acc ++ ljust w cell ++ (if k <? n - 1 then [SPACE; BAR; SPACE] else [])))
      as (line & Hline & Hlen).
    { intros j. specialize (Hfit (S j)). by rewrite Nat.add_succ_r in Hfit. }
    { simpl in Hk. lia. }
    { done. }
    exists line. split; [done|]. rewrite Hlen, !length_app, (sum_list_drop _ k w Hw).
    rewrite ljust_length.
    2:{ specialize (Hfit 0). rewrite Nat.add_0_r, Hw in Hfit. exact Hfit. }
    destruct (Nat.ltb_spec k (n - 1)); simpl; lia.
Qed.

Lemma row_cell_None col_widths n l : foldl (row_cell col_widths n) None l = None.
Proof. by induction l. Qed.

(** [col_widths[i]] raises exactly when the row is longer than [col_widths]. *)
Lemma row_from_error col_widths n k cells acc :
  foldl (row_cell col_widths n) (Some acc) (zip (seq k (length cells)) cells) = None
  <-> cells <> [] /\ length col_widths < k + length cells.
Proof.
  revert k acc. induction cells as [|cell cells IH]; intros k acc.
  - cbn. split; [done|]. by intros [? _].
  - rewrite enumerate_from_cons. cbn [foldl]. unfold row_cell at 2. cbn [fst snd mbind option_bind].
    destruct (col_widths !! k) as [w|] eqn:Hw; cbn [mbind option_bind].
    + rewrite IH. apply lookup_lt_Some in Hw. cbn [length].
      split; [intros [_ ?]; split; [done|lia]|].
      intros [_ ?]. split; [|lia]. intros ->. simpl in *. lia.
    + rewrite row_cell_None. apply lookup_ge_None in Hw. cbn [length]. split; [|done].
      intros _. split; [done|lia].
Qed.

Lemma header_from col_widths n k headers lines :
  (forall j, cell_length headers j <= default 0 (col_widths !! (k + j))) ->
  k + length headers = n -> n = length col_widths ->
  let lines' := foldl (header_cell col_widths n) lines (zip (seq k (length headers)) headers) in
  length lines'.1 = length lines.1 + sum_list (drop k col_widths) + 3 * (n - 1 - k) /\
  length lines'.2 = length lines.2 + sum_list (drop k col_widths) + 3 * (n - 1 - k).
Proof.
  cbv zeta. revert k lines. induction headers as [|header headers IH]; intros k lines Hfit Hk Hn.
  - cbn [length seq zip zip_with foldl]. rewrite drop_ge by (simpl in Hk; lia).
    simpl. simpl in Hk. lia.
  - rewrite enumerate_from_cons. cbn [foldl].
    destruct (col_widths !! k) as [w|] eqn:Hw.
    2:{ apply lookup_ge_None in Hw. simpl in Hk. lia. }
    destruct (IH (S k) (header_cell col_widths n lines (k, header))) as [H1 H2].
    { intros j. specialize (Hfit (S j)). by rewrite Nat.add_succ_r in Hfit. }
    { simpl in Hk. lia. }
    { done. }
    rewrite H1, H2, (sum_list_drop _ k w Hw). unfold header_cell. cbn [fst snd]. rewrite Hw.
    cbn [default].
    assert (length (ljust w header) = w) as Hl.
    { apply ljust_length. specialize (Hfit 0). by rewrite Nat.add_0_r, Hw in Hfit. }
    destruct (Nat.ltb_spec k (n - 1)); cbn [fst snd]; unfold id;
      rewrite !length_app, ?length_replicate, Hl; simpl; lia.
Qed.

Lemma row_line_error col_widths row :
  row_line col_widths row = None <-> length col_widths < length row.
Proof.
  unfold row_line, enumerate. rewrite row_from_error. split; [intros [_ ?]; lia|].
  intros Hlt. split; [|lia]. intros ->. simpl in Hlt. lia.
Qed.

Lemma print_rows_error col_widths rows :
  (print_rows col_widths rows).2 = IndexError
  <-> Exists (fun row => length col_widths < length row) rows.
Proof.
  induction rows as [|row rows IH]; cbn [print_rows].
  - split; [done|]. by intros ?%Exists_nil.
  - rewrite Exists_cons, <- IH, <- row_line_error.
    destruct (row_line col_widths row) as [line|]; [|by split; [left|]].
    destruct (print_rows col_widths rows) as [lines end_]. cbn [snd].
    split; [by right|]. by intros [?|?].
Qed.

Lemma print_rows_lines col_widths rows width :
  Forall (fun row => exists line, row_line col_widths row = Some line /\ length line = width) rows ->
  exists lines, print_rows col_widths rows = (lines, Returned) /\
                length lines = length rows /\ Forall (fun line => length line = width) lines.
Proof.
  induction 1 as [|row rows (line & Hline & Hlen) _ (lines & Hlines & Hn & Hall)]; cbn [print_rows].
  - by exists [].
  - rewrite Hline, Hlines. exists (line :: lines). split; [done|]. split; [by rewrite !length_cons, Hn|].
    by constructor.
Qed.

(** When every row has as many cells as there are headers, [print_table]
    prints the header line, the separator line and one line for each row, and
    all these lines are equally long: the columns are aligned. *)
Theorem table_columns_align (headers : list text) (rows : list (list text)) :
  rows <> [] ->
  Forall (fun row => length row = length headers) rows ->
  exists lines,
    print_table headers rows = (lines, Returned) /\
    length lines = 2 + length rows /\
    Forall (fun line =>
              length line = 2 + sum_list (column_widths headers rows) + 3 * (length headers - 1))
           lines.
Proof.
  intros Hrows Hlen. unfold print_table. destruct rows as [|row0 rows0] eqn:Heq; [done|].
  rewrite <- Heq in *. clear Heq Hrows.
  destruct (column_widths_spec (length <$> headers) rows) as (Hwl & Hmono & Hfit).
  fold (column_widths headers rows) in Hwl, Hmono, Hfit. rewrite length_fmap in Hwl.
  set (col_widths := column_widths headers rows) in *.
  destruct (header_from col_widths (length headers) 0 headers ([SPACE; SPACE], [SPACE; SPACE]))
    as [Hh Hs]; [|done|done|].
  { intros j. cbn [Nat.add]. unfold cell_length.
    destruct (headers !! j) as [header|] eqn:Hj; [|cbn; lia].
    destruct (Hmono j (length header)) as (w' & -> & Hle); [|done].
    rewrite list_lookup_fmap. unfold text in *. by rewrite Hj. }
  fold (enumerate headers) in Hh, Hs. fold (header_lines col_widths headers) in Hh, Hs.
  destruct (header_lines col_widths headers) as [header_line separator_line].
  cbn [fst snd length] in Hh, Hs. rewrite drop_0, Nat.sub_0_r in Hh, Hs.
  destruct (print_rows_lines col_widths rows
              (2 + sum_list col_widths + 3 * (length headers - 1))) as (lines & -> & Hn & Hall).
  { apply Forall_forall. intros row Hrow.
    rewrite Forall_forall in Hlen. specialize (Hlen row Hrow).
    destruct (row_from col_widths (length row) 0 row [SPACE; SPACE]) as (line & Hline & Hl).
    - intros j. cbn [Nat.add]. destruct (col_widths !! j) as [w'|] eqn:Hj.
      + by apply (Hfit row j w').
      + unfold cell_length. rewrite (lookup_ge_None_2 row); [done|].
        apply lookup_ge_None in Hj. unfold text in *. lia.
    - done.
    - unfold text in *. lia.
    - exists line. split; [done|]. rewrite Hl, drop_0, Nat.sub_0_r, Hlen. done. }
  eexists. split; [done|]. split; [cbn [length]; lia|].
  constructor; [exact Hh|]. constructor; [exact Hs|]. done.
Qed.

(** [print_table] raises [IndexError] exactly when a row has more cells
    than there are headers. *)
Theorem table_row_too_long (headers : list text) (rows : list (list text)) :
  (print_table headers rows).2 = IndexError
  <-> Exists (fun row => length headers < length row) rows.
Proof.
  unfold print_table. destruct rows as [|row0 rows0] eqn:Heq.
  { split; [done|]. by intros ?%Exists_nil. }
  rewrite <- Heq. clear Heq.
  destruct (column_widths_spec (length <$> headers) rows) as (Hwl & _ & _).
  fold (column_widths headers rows) in Hwl. rewrite length_fmap in Hwl.
  assert (Exists (fun row => length headers < length row) rows
          <-> Exists (fun row => length (column_widths headers rows) < length row) rows) as ->.
  { rewrite !Exists_exists. unfold text in *.
    split; intros (row & ? & ?); exists row; (split; [done|lia]). }
  rewrite <- print_rows_error.
  destruct (header_lines _ headers) as [header_line separator_line].
  by destruct (print_rows _ rows).
Qed.

Lemma table_columns_align_witness :
  exists lines,
    print_table [[80; 111; 114; 116]; [85; 82; 76]]%N
                [[[1055; 1086; 1088; 1090]; [56; 53; 48; 49]];
                 [[85; 82; 76]; [108; 111; 99; 97; 108; 104; 111; 115; 116]]]%N
    = (lines, Returned) /\
    length lines = 2 + length [[[1055; 1086; 1088; 1090]; [56; 53; 48; 49]];
                              [[85; 82; 76]; [108; 111; 99; 97; 108; 104; 111; 115; 116]]]%N /\
    Forall (fun line =>
              length line
              = 2 + sum_list (column_widths
                                [[80; 111; 114; 116]; [85; 82; 76]]%N
                                [[[1055; 1086; 1088; 1090]; [56; 53; 48; 49]];
                                 [[85; 82; 76]; [108; 111; 99; 97; 108; 104; 111; 115; 116]]]%N)
                + 3 * (length [[80; 111; 114; 116]; [85; 82; 76]]%N - 1))
           lines.
Proof.
  apply (table_columns_align
           [[80; 111; 114; 116]; [85; 82; 76]]%N
           [[[1055; 1086; 1088; 1090]; [56; 53; 48; 49]];
            [[85; 82; 76]; [108; 111; 99; 97; 108; 104; 111; 115; 116]]]%N).
  - discriminate.
  - repeat constructor.
Defined.

End Table.

(** ** The port of the launcher *)

Section Port.
Local Open Scope Z_scope.

Lemma try_ports_spec probe (n : nat) start :
  match try_ports probe (seqZ start (Z.of_nat n)) with
  | Some port =>
      start <= port < start + Z.of_nat n /\
      (exists result, probe port = Some result /\ result <> 0) /\
      (forall q, start <= q < port -> busy probe q)
  | None => forall q, start <= q < start + Z.of_nat n -> busy probe q
  end.
Proof.
  revert start. induction n as [|n IH]; intros start.
  - cbn. intros q ?. lia.
  - rewrite Nat2Z.inj_succ, seqZ_cons by lia. rewrite Z.pred_succ. cbn [try_ports].
    specialize (IH (Z.succ start)).
    destruct (probe start) as [result|] eqn:Hstart.
    + destruct (Z.eqb_spec result 0) as [->|Hne].
      * destruct (try_ports probe (seqZ (Z.succ start) (Z.of_nat n))) as [port|].
        -- destruct IH as (? & ? & Hq). split; [lia|]. split; [done|].
           intros q ?. destruct (decide (q = start)) as [->|]; [by right|]. apply Hq. lia.
        -- intros q ?. destruct (decide (q = start)) as [->|]; [by right|]. apply IH. lia.
      * split; [lia|]. split; [eauto|]. intros q ?. lia.
    + destruct (try_ports probe (seqZ (Z.succ start) (Z.of_nat n))) as [port|].
      * destruct IH as (? & ? & Hq). split; [lia|]. split; [done|].
        intros q ?. destruct (decide (q = start)) as [->|]; [by left|]. apply Hq. lia.
      * intros q ?. destruct (decide (q = start)) as [->|]; [by left|]. apply IH. lia.
Qed.

(** The port that [find_free_port] returns is one of the twenty from
    [start_port] on: the first on which the probe finds nothing listening,
    and [start_port] itself, though busy, when there is none. *)
Theorem free_port_is_first_free (probe : Z -> option Z) (start_port : Z) :
  let port := find_free_port probe start_port in
  start_port <= port < start_port + 20 /\
  (forall q, start_port <= q < port -> busy probe q) /\
  ((exists result, probe port = Some result /\ result <> 0) \/
   (port = start_port /\ forall q, start_port <= q < start_port + 20 -> busy probe q)).
Proof.
  cbv zeta. unfold find_free_port.
  pose proof (try_ports_spec probe 20 start_port) as Hspec.
  change (Z.of_nat 20) with 20 in Hspec.
  destruct (try_ports probe (seqZ start_port 20)) as [port|]; cbn [default from_option id].
  - destruct Hspec as (? & ? & ?). auto.
  - split; [lia|]. split; [intros q ?; lia|]. right. auto.
Qed.

End Port.

(** ** Commits by author *)

Lemma count_up_keys key counts a :
  a ∈ (count_up key counts).*1 <-> a = key \/ a ∈ counts.*1.
Proof.
  induction counts as [|[k n] counts IH]; cbn [count_up].
  - rewrite fmap_cons. cbn. rewrite list_elem_of_singleton, elem_of_nil. tauto.
  - destruct (String.eqb_spec k key) as [->|Hne]; rewrite !fmap_cons; cbn [fst];
      rewrite !elem_of_cons; [tauto|]. rewrite IH. tauto.
Qed.

Lemma count_up_NoDup key counts : NoDup counts.*1 -> NoDup (count_up key counts).*1.
Proof.
  induction counts as [|[k n] counts IH]; cbn [count_up].
  - intros _. rewrite fmap_cons. cbn. apply NoDup_singleton.
  - rewrite fmap_cons. cbn [fst]. intros [Hk Hnd]%NoDup_cons.
    destruct (String.eqb_spec k key) as [->|Hne]; rewrite fmap_cons; cbn [fst].
    + by apply NoDup_cons.
    + apply NoDup_cons. split; [|by apply IH]. rewrite count_up_keys. intros [?|?]; done.
Qed.

Lemma count_up_sum key counts : sum_list (count_up key counts).*2 = S (sum_list counts.*2).
Proof.
  induction counts as [|[k n] counts IH]; cbn [count_up]; [done|].
  destruct (String.eqb k key); rewrite !fmap_cons; simpl; [lia|].
  rewrite IH. lia.
Qed.

(** What a dict holds for a key: the counts of its entries with that key
    together (there is at most one). *)
Definition held (key : string) (counts : list (string * nat)) : nat :=
  sum_list (snd <$> filter (fun p => p.1 = key) counts).

Lemma held_cons key k n counts :
  held key ((k, n) :: counts) = (if decide (k = key) then n else 0) + held key counts.
Proof. unfold held. rewrite filter_cons. cbn [fst]. by case_decide. Qed.

Lemma count_up_held key counts a :
  held a (count_up key counts) = held a counts + (if decide (a = key) then 1 else 0).
Proof.
  induction counts as [|[k n] counts IH]; cbn [count_up].
  - rewrite held_cons. unfold held. cbn. repeat case_decide; subst; done.
  - destruct (String.eqb_spec k key) as [->|Hne]; rewrite !held_cons, ?IH;
      repeat case_decide; subst; try done; lia.
Qed.

Lemma held_absent key counts : key ∉ counts.*1 -> held key counts = 0.
Proof.
  induction counts as [|[k n] counts IH]; [done|].
  rewrite fmap_cons, not_elem_of_cons, held_cons. cbn [fst]. intros [Hne Hnot].
  rewrite decide_False by done. by rewrite IH.
Qed.

Lemma held_elem key n counts : NoDup counts.*1 -> (key, n) ∈ counts -> held key counts = n.
Proof.
  induction counts as [|[k m] counts IH]; [by intros _ ?%elem_of_nil|].
  rewrite fmap_cons, held_cons. cbn [fst]. intros [Hk Hnd]%NoDup_cons [[= -> ->]|Hin]%elem_of_cons.
  - rewrite decide_True by done. rewrite held_absent by done. lia.
  - rewrite decide_False, IH by (try done; intros ->; apply Hk, list_elem_of_fmap; by exists (key, n)).
    done.
Qed.

Lemma author_counts_spec commits counts :
  NoDup counts.*1 ->
  let counts' := foldl (fun author_counts commit => count_up (commit_author commit) author_counts)
                       counts commits in
  NoDup counts'.*1 /\
  sum_list counts'.*2 = sum_list counts.*2 + length commits /\
  (forall a, a ∈ counts'.*1 <-> a ∈ counts.*1 \/ a ∈ commit_author <$> commits) /\
  (forall a, held a counts' = held a counts + commits_of a commits).
Proof.
  cbv zeta. revert counts. induction commits as [|c commits IH]; intros counts Hnd.
  - cbn [foldl]. split; [done|]. split; [simpl; lia|]. split.
    + intros a. rewrite fmap_nil, elem_of_nil. tauto.
    + intros a. unfold commits_of. simpl. lia.
  - cbn [foldl]. destruct (IH (count_up (commit_author c) counts)) as (H1 & H2 & H3 & H4).
    { by apply count_up_NoDup. }
    split; [done|]. split; [rewrite H2, count_up_sum; simpl; lia|]. split.
    + intros a. rewrite H3, count_up_keys, fmap_cons, elem_of_cons. tauto.
    + intros a. rewrite H4, count_up_held. unfold commits_of. rewrite filter_cons.
      repeat case_decide; subst; simpl; try done; lia.
Qed.

Lemma insert_by_count_perm x l : insert_by_count x l ≡ₚ x :: l.
Proof.
  induction l as [|y l IH]; [done|]. cbn [insert_by_count].
  destruct (x.2 <? y.2); [|done]. by rewrite IH, Permutation_swap.
Qed.

Lemma sorted_by_count_perm l : sorted_by_count l ≡ₚ l.
Proof.
  induction l as [|x l IH]; [done|]. cbn [sorted_by_count foldr].
  fold (sorted_by_count l). by rewrite insert_by_count_perm, IH.
Qed.

Lemma insert_by_count_sorted x l :
  StronglySorted falling l -> StronglySorted falling (insert_by_count x l).
Proof.
  induction 1 as [|y l Hs IH Hall]; cbn [insert_by_count].
  - by repeat constructor.
  - destruct (Nat.ltb_spec x.2 y.2).
    + constructor; [done|]. rewrite insert_by_count_perm. constructor; [|done].
      unfold falling. lia.
    + constructor; [by constructor|]. constructor; [done|].
      eapply Forall_impl; [exact Hall|]. unfold falling. intros z ?. lia.
Qed.

Lemma sorted_by_count_sorted l : StronglySorted falling (sorted_by_count l).
Proof.
  induction l as [|x l IH]; [constructor|]. by apply insert_by_count_sorted.
Qed.

(** The statistics name every author of the commits once, with the number
    of commits by that author, in the order of falling numbers; the numbers
    add up to the number of commits. *)
Theorem author_stats_count_every_commit (commits : list commit) (stats : list (string * nat)) :
  create_author_stats commits = Some stats ->
  NoDup stats.*1 /\
  (forall a, a ∈ stats.*1 <-> a ∈ commit_author <$> commits) /\
  (forall a n, (a, n) ∈ stats -> n = commits_of a commits) /\
  sum_list stats.*2 = length commits /\
  StronglySorted falling stats.
Proof.
  unfold create_author_stats. destruct commits as [|c0 commits0] eqn:Heq; [done|].
  rewrite <- Heq. clear Heq. intros [= <-].
  destruct (author_counts_spec commits []) as (Hnd & Hsum & Hkeys & Hheld); [constructor|].
  set (counts := foldl _ [] commits) in *.
  pose proof (sorted_by_count_perm counts) as Hperm.
  split; [by rewrite Hperm|]. split; [|split; [|split]].
  - intros a. rewrite Hperm, Hkeys, fmap_nil, elem_of_nil. tauto.
  - intros a n Hin. rewrite Hperm in Hin. rewrite <- (held_elem a n counts) by done.
    rewrite Hheld. unfold held. simpl. lia.
  - by rewrite Hperm, Hsum.
  - apply sorted_by_count_sorted.
Qed.

Lemma author_stats_count_every_commit_witness :
  let commits := [Commit "1a2b3c4" "1a2b3c4d5e" "add arm" "ann";
                  Commit "2b3c4d5" "2b3c4d5e6f" "fix wheel" "bob";
                  Commit "3c4d5e6" "3c4d5e6f7a" "fix gripper" "bob"] in
  let stats := [("bob", 2); ("ann", 1)] in
  NoDup stats.*1 /\
  (forall a, a ∈ stats.*1 <-> a ∈ commit_author <$> commits) /\
  (forall a n, (a, n) ∈ stats -> n = commits_of a commits) /\
  sum_list stats.*2 = length commits /\
  StronglySorted falling stats.
Proof.
  apply (author_stats_count_every_commit
           [Commit "1a2b3c4" "1a2b3c4d5e" "add arm" "ann";
            Commit "2b3c4d5" "2b3c4d5e6f" "fix wheel" "bob";
            Commit "3c4d5e6" "3c4d5e6f7a" "fix gripper" "bob"]
           [("bob", 2); ("ann", 1)]).
  vm_compute. reflexivity.
Defined.
